(** * OpenPNM: the Voronoi-fibre geometry pipeline and the reaction solver

    A shallow embedding of
      - [openpnm/algorithms/Reaction.py]      ([GenericReaction.run]),
      - [openpnm/materials/VoronoiFibers.py]  ([VoronoiGeometry]: [inhull],
        [_get_fibre_image], [_process_pore_voxels], [_indiameter_from_fibres],
        [_throat_props]; and, in the second half of the file, the loop of
        [in_hull_volume], [_get_fibre_slice], [_centroids], [_t_normals],
        [_throat_c2c], [_bresenham] and the curves of
        [plot_porosity_profile]).

    Conventions.  Python integers are [Z]; array shapes and positions inside
    an array are [nat].  Floating-point numbers are read as the numbers they
    denote: rationals ([Q]) where the code only compares, adds and scales
    them, reals ([R]) where it takes square roots.  numpy's indexing,
    rounding and element-wise arithmetic are written out; the routines of
    scipy, scikit-image and transforms3d that the methods call (Qhull, the
    convex-hull image, the distance transform of a facet, region
    properties, rotation matrices, the linear solve) are parameters. *)

From Stdlib Require Import String.
From Stdlib Require Import ZArith List Bool QArith Qabs Reals Lia Lra.
Import ListNotations.

(** ** [GenericReaction.run] *)

Module Reaction.
Local Open Scope Q_scope.

Definition vec := list Q.

(** What [print] wrote. *)
Inductive message :=
| Tolerance_met (res : Q)
| Tolerance_not_met (res : Q).

(** The objects [run] writes to: [self[settings['quantity']]], the diagonal
    of [alg.A] and [alg.b], both restricted to the pores [Ps] of the
    reaction, and the standard output. *)
Record state := mkState {
  quantity : option vec;
  alg_A_diag : vec;
  alg_b : vec;
  stdout : list message
}.

(** A Python call either returns a value ([None] included) or the
    interpreter runs out of stack frames. *)
Inductive outcome :=
| Returns (v : option vec)
| RecursionError.

Definition zip_with {A B C} (f : A -> B -> C) (l : list A) (l' : list B) : list C :=
  map (fun p => f (fst p) (snd p)) (combine l l').

(** [sp.sum] *)
Definition sum (v : vec) : Q := fold_left Qplus v 0.

(** [res < tol] *)
Definition Qltb (a b : Q) : bool := negb (Qle_bool b a).

Lemma Qltb_lt a b : Qltb a b = true <-> a < b.
Proof.
  unfold Qltb. rewrite negb_true_iff.
  destruct (Qle_bool b a) eqn:E.
  - apply Qle_bool_iff in E. split; [discriminate|]. intros H.
    exfalso. exact (Qlt_not_le _ _ H E).
  - split; [|reflexivity]. intros _. apply Qnot_le_lt. intros H.
    apply Qle_bool_iff in H. congruence.
Qed.

(** The default of the keyword argument [tol]. *)
Definition default_tol : Q := 1 # 1000.

Section Run.
(** [self.Np], the number of pores of the reaction object *)
Variable Np : nat.
(** [self.A.diagonal()[Ps]] and [self.b[Ps]], the copies made by [setup] *)
Variable self_A_diag : vec.
Variable self_b : vec.
(** [self['pore.rate']] after [self.regenerate_models()], as a function of
    the quantity just stored; one row of three columns per pore *)
Variable pore_rate : vec -> list (Q * Q * Q).
(** [alg.solve()[Ps]], as a function of the diagonal of [alg.A] and of
    [alg.b] at [Ps] *)
Variable alg_solve : vec -> vec -> vec.

(** [sp.zeros_like(self.Ps)] *)
Definition zeros_like_Ps : vec := repeat 0 Np.

Definition col1 (r : Q * Q * Q) : Q := snd (fst r).
Definition col2 (r : Q * Q * Q) : Q := snd r.

(** [datadiag[Ps] + rate[:, 1]] *)
Definition new_diag (x : vec) : vec :=
  zip_with (fun d r => d + col1 r) self_A_diag (pore_rate x).

(** [self.b[Ps] - rate[:, 2]] *)
Definition new_b (x : vec) : vec :=
  zip_with (fun b r => b - col2 r) self_b (pore_rate x).

(** [x_new = alg.solve()[Ps]] *)
Definition x_new (x : vec) : vec := alg_solve (new_diag x) (new_b x).

(** [res = sp.sum(sp.absolute(x_new - x))] *)
Definition residual (x : vec) : Q :=
  sum (zip_with (fun a b => Qabs (a - b)) (x_new x) x).

(** [run]; [depth] is the number of stack frames left.  The recursive
    call passes [x_new] only, so it runs with the default tolerance, and
    its value is dropped: the [else] branch falls off the end of the
    function. *)
Fixpoint run (depth : nat) (st : state) (x : option vec) (tol : Q)
  : state * outcome :=
  match depth with
  | O => (st, RecursionError)
  | S depth' =>
    let x := match x with None => zeros_like_Ps | Some x => x end in
    let st := mkState (Some x) (new_diag x) (new_b x) (stdout st) in
    let res := residual x in
    if Qltb res tol then
      (mkState (quantity st) (alg_A_diag st) (alg_b st)
               (stdout st ++ [Tolerance_met res]),
       Returns (Some x))
    else
      let st := mkState (quantity st) (alg_A_diag st) (alg_b st)
                        (stdout st ++ [Tolerance_not_met res]) in
      match run depth' st (Some (x_new x)) default_tol with
      | (st', Returns _) => (st', Returns None)
      | (st', RecursionError) => (st', RecursionError)
      end
  end.

(** The [n]-th iterate of the fixed-point map. *)
Fixpoint iterate (n : nat) (x : vec) : vec :=
  match n with
  | O => x
  | S n' => iterate n' (x_new x)
  end.

(** A call without [x] starts from zeros. *)
Lemma run_default_x depth st tol :
  run depth st None tol = run depth st (Some zeros_like_Ps) tol.
Proof. destruct depth; reflexivity. Qed.

(** Once some iterate meets the default tolerance, a call with enough
    stack returns. *)
Lemma run_terminates n : forall depth st x,
  (n < depth)%nat ->
  residual (iterate n x) < default_tol ->
  exists r, snd (run depth st (Some x) default_tol) = Returns r.
Proof.
  induction n as [|n IH]; intros depth st x Hd Hres.
  - destruct depth as [|d]; [lia|]. simpl in *.
    apply Qltb_lt in Hres. rewrite Hres. eexists; reflexivity.
  - destruct depth as [|d]; [lia|]. simpl in *.
    destruct (Qltb (residual x) default_tol).
    + eexists; reflexivity.
    + match goal with
      | |- context [run d ?s (Some (x_new x)) default_tol] =>
          destruct (IH d s (x_new x) ltac:(lia) Hres) as [r Hr];
          destruct (run d s (Some (x_new x)) default_tol) as [s' o]
      end.
      simpl in Hr. subst o. eexists; reflexivity.
Qed.

(** C10.  A call of [run] on [x] with a stack frame to run in returns a
    solution vector exactly when the residual computed on that very call
    is below the tolerance, and the vector it returns is then [x] itself.
    When the tolerance is not met the call recurses on [x_new] and drops
    what the recursion returns: whenever the iteration converges (some
    later iterate meets the default tolerance within the available stack),
    the top-level call returns [None]. *)
Theorem run_returns_x_only_when_tolerance_met :
  forall depth st x tol,
    let r := snd (run (S depth) st (Some x) tol) in
    (forall y, r = Returns (Some y) <-> (residual x < tol /\ y = x)) /\
    (~ residual x < tol ->
     forall n, (n < depth)%nat ->
               residual (iterate n (x_new x)) < default_tol ->
               r = Returns None).
Proof.
  intros depth st x tol r. subst r. simpl.
  destruct (Qltb (residual x) tol) eqn:E.
  - apply Qltb_lt in E. split.
    + intros y. simpl. split.
      * intros H. injection H as <-. split; [exact E | reflexivity].
      * intros [_ ->]. reflexivity.
    + intros H. contradiction.
  - assert (Hn : ~ residual x < tol).
    { intros H. apply Qltb_lt in H. congruence. }
    split.
    + intros y. split.
      * intros H.
        destruct (run depth _ (Some (x_new x)) default_tol) as [s' [v|]];
          simpl in H; discriminate.
      * intros [H _]. contradiction.
    + intros _ n Hd Hres.
      match goal with
      | |- context [run depth ?s (Some (x_new x)) default_tol] =>
          destruct (run_terminates n depth s (x_new x) Hd Hres) as [v Hv];
          destruct (run depth s (Some (x_new x)) default_tol) as [s' o]
      end.
      simpl in Hv. subst o. reflexivity.
Qed.

End Run.

(** A reaction on one pore whose linear solve returns the right-hand side:
    from [x = [0]] the first residual is 1, the second 0. *)
Definition demo_rate (_ : vec) : list (Q * Q * Q) := [(0, 0, -(1))].
Definition demo_solve (_ b : vec) : vec := b.
Definition demo_state : state := mkState None [] [] [].

Lemma run_returns_x_only_when_tolerance_met_witness :
  snd (run 1 [1] [0] demo_rate demo_solve 3 demo_state (Some [0]) default_tol)
    = Returns None /\
  snd (run 1 [1] [0] demo_rate demo_solve 3 demo_state (Some [1]) default_tol)
    = Returns (Some [1]).
Proof.
  split.
  - refine (proj2 (run_returns_x_only_when_tolerance_met
                     1 [1] [0] demo_rate demo_solve 2 demo_state [0] default_tol)
                  _ 0%nat _ _).
    + vm_compute. intros H. discriminate H.
    + lia.
    + vm_compute. reflexivity.
  - apply (proj1 (run_returns_x_only_when_tolerance_met
                     1 [1] [0] demo_rate demo_solve 2 demo_state [1] default_tol)
                 [1]).
    split; [vm_compute; reflexivity | reflexivity].
Defined.

End Reaction.

(** ** numpy arrays of three dimensions *)

Module Ndarray.

(** An index as numpy reads it against an axis of length [n]: [0 .. n-1]
    as it stands, [-n .. -1] counted from the end, anything else is an
    [IndexError]. *)
Definition normalize_index (n : nat) (i : Z) : option nat :=
  if (0 <=? i)%Z && (i <? Z.of_nat n)%Z then Some (Z.to_nat i)
  else if (- Z.of_nat n <=? i)%Z && (i <? 0)%Z then Some (Z.to_nat (i + Z.of_nat n))
  else None.

Lemma normalize_index_negative n i :
  (- Z.of_nat n <= i < 0)%Z ->
  normalize_index n i = Some (Z.to_nat (i + Z.of_nat n)).
Proof.
  intros H. unfold normalize_index.
  destruct (0 <=? i)%Z eqn:E0; [apply Z.leb_le in E0; lia|]. simpl.
  destruct (- Z.of_nat n <=? i)%Z eqn:E1; [|apply Z.leb_gt in E1; lia].
  destruct (i <? 0)%Z eqn:E2; [reflexivity | apply Z.ltb_ge in E2; lia].
Qed.

Lemma normalize_index_nonnegative n i :
  (0 <= i < Z.of_nat n)%Z -> normalize_index n i = Some (Z.to_nat i).
Proof.
  intros H. unfold normalize_index.
  destruct (0 <=? i)%Z eqn:E0; [|apply Z.leb_gt in E0; lia].
  destruct (i <? Z.of_nat n)%Z eqn:E1; [reflexivity|].
  apply Z.ltb_ge in E1. lia.
Qed.

Lemma normalize_index_in_range n i k :
  normalize_index n i = Some k -> (k < n)%nat.
Proof.
  unfold normalize_index.
  destruct ((0 <=? i)%Z && (i <? Z.of_nat n)%Z) eqn:E.
  - apply andb_true_iff in E. destruct E as [E1 E2].
    apply Z.leb_le in E1. apply Z.ltb_lt in E2. intros [= <-]. lia.
  - destruct ((- Z.of_nat n <=? i)%Z && (i <? 0)%Z) eqn:E'; [|discriminate].
    apply andb_true_iff in E'. destruct E' as [E1 E2].
    apply Z.leb_le in E1. apply Z.ltb_lt in E2. intros [= <-]. lia.
Qed.

Definition voxel : Type := nat * nat * nat.

(** Cells in C order, as [flatten] gives them. *)
Record array3 (A : Type) := mkArray {
  dim_x : nat;
  dim_y : nat;
  dim_z : nat;
  cells : list A
}.
Arguments mkArray {A}.
Arguments dim_x {A}.
Arguments dim_y {A}.
Arguments dim_z {A}.
Arguments cells {A}.

Section Array3.
Context {A : Type}.

(** [np.ones], [np.zeros]: an array filled with one value *)
Definition full (lx ly lz : nat) (v : A) : array3 A :=
  mkArray lx ly lz (repeat v (lx * ly * lz)).

Definition in_range (a : array3 A) (v : voxel) : bool :=
  let '(x, y, z) := v in
  (x <? dim_x a)%nat && (y <? dim_y a)%nat && (z <? dim_z a)%nat.

Definition offset (a : array3 A) (v : voxel) : nat :=
  let '(x, y, z) := v in (x * dim_y a + y) * dim_z a + z.

Definition lookup (a : array3 A) (v : voxel) : option A :=
  if in_range a v then nth_error (cells a) (offset a v) else None.

Fixpoint update_nth (l : list A) (n : nat) (v : A) : list A :=
  match l, n with
  | [], _ => []
  | _ :: t, O => v :: t
  | h :: t, S n' => h :: update_nth t n' v
  end.

(** [a[x, y, z] = v] for a position inside the array *)
Definition store (a : array3 A) (p : voxel) (v : A) : array3 A :=
  if in_range a p
  then mkArray (dim_x a) (dim_y a) (dim_z a) (update_nth (cells a) (offset a p) v)
  else a.

Lemma nth_error_update_nth_same l n v :
  (n < length l)%nat -> nth_error (update_nth l n v) n = Some v.
Proof.
  revert n; induction l as [|h t IH]; intros [|n] H; simpl in *;
    try lia; auto. apply IH. lia.
Qed.

Lemma nth_error_update_nth_other l n m v :
  n <> m -> nth_error (update_nth l n v) m = nth_error l m.
Proof.
  revert n m; induction l as [|h t IH]; intros [|n] [|m] H; simpl;
    auto; congruence.
Qed.

Lemma length_update_nth l n v : length (update_nth l n v) = length l.
Proof.
  revert n; induction l as [|h t IH]; intros [|n]; simpl; auto.
Qed.

(** An array holds one cell per position. *)
Definition well_formed (a : array3 A) : Prop :=
  length (cells a) = (dim_x a * dim_y a * dim_z a)%nat.

Lemma offset_in_cells (a : array3 A) (p : voxel) :
  well_formed a -> in_range a p = true -> (offset a p < length (cells a))%nat.
Proof.
  destruct p as [[x y] z]. unfold well_formed, in_range, offset. intros ->.
  rewrite !andb_true_iff, !Nat.ltb_lt. intros [[Hx Hy] Hz].
  assert (H1 : (x * dim_y a + y + 1 <= dim_x a * dim_y a)%nat) by nia.
  assert (H2 : ((x * dim_y a + y + 1) * dim_z a <= dim_x a * dim_y a * dim_z a)%nat)
    by (apply Nat.mul_le_mono_r; exact H1).
  nia.
Qed.

Lemma lookup_store (a : array3 A) (p : voxel) (v : A) :
  well_formed a -> in_range a p = true -> lookup (store a p v) p = Some v.
Proof.
  intros Hwf Hin. pose proof (offset_in_cells a p Hwf Hin) as Hlt.
  unfold store. rewrite Hin. unfold lookup.
  replace (in_range _ p) with true by (destruct p as [[x y] z]; exact (eq_sym Hin)).
  destruct p as [[x y] z]. simpl. apply nth_error_update_nth_same. exact Hlt.
Qed.

Lemma full_well_formed lx ly lz (v : A) : well_formed (full lx ly lz v).
Proof. unfold well_formed, full. simpl. apply repeat_length. Qed.
End Array3.

(** The positions [lo <= i < hi] of a slice [lo:hi]. *)
Definition span (lo hi : nat) : list nat := seq lo (hi - lo).

Record box := mkBox {
  x_lo : nat; x_hi : nat;
  y_lo : nat; y_hi : nat;
  z_lo : nat; z_hi : nat
}.

(** The voxels of [a[x_lo:x_hi, y_lo:y_hi, z_lo:z_hi]], in C order. *)
Definition voxels (b : box) : list voxel :=
  flat_map (fun x =>
    flat_map (fun y =>
      map (fun z => (x, y, z)) (span (z_lo b) (z_hi b)))
      (span (y_lo b) (y_hi b)))
    (span (x_lo b) (x_hi b)).

End Ndarray.

(** ** [VoronoiGeometry._get_fibre_image]

    The part of the function after the image size [lx, ly, lz] and the
    rounded line points [line_ints] are known: the allocation of the three
    grids, the rasterisation of the line points, the chunk loop and the
    final clamp of the distance image. *)

Module FibreImage.
Import Ndarray.

Inductive exn :=
| UnboundLocalError (name : string).

Inductive result (A : Type) :=
| Ok (a : A)
| Raise (e : exn).
Arguments Ok {A}.
Arguments Raise {A}.

(** What the logger received (the message on the range of the domain,
    sent before the grids are created, is left out). *)
Inductive event :=
| Info_domain_too_large
| Warning_out_of_bounds
| Info_processing_chunk (cnum num_chunks : nat).

(** Statements write to the log and may raise. *)
Definition M (A : Type) : Type := list event -> list event * result A.

Definition ret {A} (a : A) : M A := fun log => (log, Ok a).
Definition raise {A} (e : exn) : M A := fun log => (log, Raise e).
Definition bind {A B} (m : M A) (k : A -> M B) : M B :=
  fun log =>
    match m log with
    | (log', Ok a) => k a log'
    | (log', Raise e) => (log', Raise e)
    end.
Definition emit (e : event) : M unit := fun log => (log ++ [e], Ok tt).

Notation "x <- m ;; k" := (bind m (fun x => k))
  (at level 61, m at next level, right associativity).
Notation "m ;;; k" := (bind m (fun _ => k))
  (at level 61, right associativity).

(** Reading a local variable that no assignment has bound. *)
Definition read {A} (name : string) (v : option A) : M A :=
  match v with
  | Some a => ret a
  | None => raise (UnboundLocalError name)
  end.

(** An entry of the distance image: [0.0], or [sqrt sq - rad] for the
    squared Euclidean distance [sq] and the fibre radius [rad]. *)
Inductive distance :=
| Zero
| Sqrt_minus (sq : Z) (rad : nat).

Definition radius_sq (rad : nat) : Z := Z.of_nat rad * Z.of_nat rad.

(** [dt[dt < 0] = 0] on one entry *)
Definition clamp (d : distance) : distance :=
  match d with
  | Zero => Zero
  | Sqrt_minus sq rad => if (sq <? radius_sq rad)%Z then Zero else d
  end.

Record locals := mkLocals {
  pore_space : option (array3 Z);
  fibre_space : option (array3 Z);
  dt : option (array3 distance);
  cx : nat;
  cy : nat;
  cz : nat;
  chunk_len : nat
}.

(** [np.ceil(l/chunk_len).astype(int)] *)
Definition ceil_div (l chunk : nat) : nat := (l + chunk - 1) / chunk.

(** [cx], [cy], [cz] of the [except] branch *)
Definition chunks_along (l chunk : nat) : nat :=
  if (chunk <? l)%nat then ceil_div l chunk else 1%nat.

Definition sq_diff (a b : nat) : Z :=
  (Z.of_nat a - Z.of_nat b) * (Z.of_nat a - Z.of_nat b).

Definition sq_dist (p q : voxel) : Z :=
  let '(px, py, pz) := p in
  let '(qx, qy, qz) := q in
  sq_diff px qx + sq_diff py qy + sq_diff pz qz.

Section GetFibreImage.
(** Whether the [k]-th array creation of the call succeeds. *)
Variable allocates : nat -> bool.
(** The squared distance [scipy.ndimage.distance_transform_edt] reports
    at a position of an input (given by its box) that has no zero entry;
    the documentation leaves the case open. *)
Variable edt_no_background : box -> voxel -> Z.

(** The [except] branch *)
Definition fall_back (lx ly lz : nat)
           (ps fs : option (array3 Z)) : M locals :=
  emit Info_domain_too_large ;;;
  ret (mkLocals ps fs None
                (chunks_along lx 100) (chunks_along ly 100)
                (chunks_along lz 100) 100).

(** The [try] statement: the names bound before an allocation fails stay
    bound, the others are never assigned. *)
Definition allocate (lx ly lz : nat) : M locals :=
  if allocates 0 then
    let ps := full lx ly lz 1%Z in
    if allocates 1 then
      let fs := full lx ly lz 0%Z in
      if allocates 2 then
        ret (mkLocals (Some ps) (Some fs) (Some (full lx ly lz Zero))
                      1 1 1 (Nat.max lx (Nat.max ly lz)))
      else fall_back lx ly lz (Some ps) (Some fs)
    else fall_back lx ly lz (Some ps) None
  else fall_back lx ly lz None None.

(** [try: pore_space[x][y][z] = 0  except IndexError: logger.warning(..)] *)
Definition rasterize_point (ps : array3 Z) (p : Z * Z * Z) : M (array3 Z) :=
  let '(x, y, z) := p in
  match normalize_index (dim_x ps) x with
  | None => emit Warning_out_of_bounds ;;; ret ps
  | Some x' =>
    match normalize_index (dim_y ps) y with
    | None => emit Warning_out_of_bounds ;;; ret ps
    | Some y' =>
      match normalize_index (dim_z ps) z with
      | None => emit Warning_out_of_bounds ;;; ret ps
      | Some z' => ret (store ps (x', y', z') 0%Z)
      end
    end
  end.

(** [for x, y, z in line_ints: ...] *)
Fixpoint rasterize (ps : option (array3 Z)) (line_ints : list (Z * Z * Z))
  : M (option (array3 Z)) :=
  match line_ints with
  | [] => ret ps
  | p :: rest =>
    a <- read "pore_space" ps ;;
    a' <- rasterize_point a p ;;
    rasterize (Some a') rest
  end.

(** [cxmin .. czmax] of chunk [(ci, cj, ck)], after "Don't overshoot" *)
Definition chunk_box (lx ly lz fibre_rad chunk : nat) (c : voxel) : box :=
  let '(ci, cj, ck) := c in
  mkBox (ci * chunk) (Nat.min lx ((ci + 1) * chunk + 5 * fibre_rad))
        (cj * chunk) (Nat.min ly ((cj + 1) * chunk + 5 * fibre_rad))
        (ck * chunk) (Nat.min lz ((ck + 1) * chunk + 5 * fibre_rad)).

Definition is_background (ps : array3 Z) (v : voxel) : bool :=
  match lookup ps v with
  | Some 0%Z => true
  | _ => false
  end.

(** [distance_transform_edt(pore_space[b])], squared: at each voxel of
    the slice the least squared distance to a zero voxel of the slice. *)
Definition distance_transform_edt_sq (ps : array3 Z) (b : box) : voxel -> Z :=
  match filter (is_background ps) (voxels b) with
  | [] => edt_no_background b
  | q :: qs => fun v => fold_left (fun m q' => Z.min m (sq_dist v q')) qs (sq_dist v q)
  end.

(** [a[b][mask] = value] *)
Definition assign_where {A} (a : array3 A) (b : box)
           (mask : voxel -> bool) (value : voxel -> A) : array3 A :=
  fold_left (fun a v => if mask v then store a v (value v) else a) (voxels b) a.

(** The body of the innermost loop *)
Definition process_chunk (lx ly lz fibre_rad : nat) (l : locals)
           (c : voxel) (cnum num_chunks : nat) : M locals :=
  emit (Info_processing_chunk cnum num_chunks) ;;;
  let b := chunk_box lx ly lz fibre_rad (chunk_len l) c in
  ps <- read "pore_space" (pore_space l) ;;
  let dtc := distance_transform_edt_sq ps b in
  fs <- read "fibre_space" (fibre_space l) ;;
  let fs := assign_where fs b
              (fun v => (dtc v <=? radius_sq fibre_rad)%Z) (fun _ => 0%Z) in
  let fs := assign_where fs b
              (fun v => (radius_sq fibre_rad <? dtc v)%Z) (fun _ => 1%Z) in
  d <- read "dt" (dt l) ;;
  let d := assign_where d b (fun _ => true)
              (fun v => Sqrt_minus (dtc v) fibre_rad) in
  ret (mkLocals (pore_space l) (Some fs) (Some d)
                (cx l) (cy l) (cz l) (chunk_len l)).

(** The three nested [for] loops, [cnum] counting the chunks *)
Fixpoint process_chunks (lx ly lz fibre_rad : nat) (l : locals)
         (cs : list voxel) (cnum num_chunks : nat) : M locals :=
  match cs with
  | [] => ret l
  | c :: rest =>
    l' <- process_chunk lx ly lz fibre_rad l c cnum num_chunks ;;
    process_chunks lx ly lz fibre_rad l' rest (S cnum) num_chunks
  end.

(** [(ci, cj, ck)] in the order of the loops *)
Definition chunk_indices (l : locals) : list voxel :=
  voxels (mkBox 0 (cx l) 0 (cy l) 0 (cz l)).

Definition map_cells {A B} (f : A -> B) (a : array3 A) : array3 B :=
  mkArray (dim_x a) (dim_y a) (dim_z a) (map f (cells a)).

(** From the rasterisation to the end of the function, for locals as
    the [try] statement left them. *)
Definition fill_image (lx ly lz : nat) (line_ints : list (Z * Z * Z))
           (fibre_rad : nat) (l : locals) : M (array3 Z * array3 distance) :=
  ps <- rasterize (pore_space l) line_ints ;;
  let l := mkLocals ps (fibre_space l) (dt l) (cx l) (cy l) (cz l) (chunk_len l) in
  l <- process_chunks lx ly lz fibre_rad l (chunk_indices l) 1
                      (cx l * cy l * cz l) ;;
  _ <- read "pore_space" (pore_space l) ;;
  fs <- read "fibre_space" (fibre_space l) ;;
  d <- read "dt" (dt l) ;;
  ret (fs, map_cells clamp d).

(** The result is the pair [(self._fibre_image, self._dt_image)]. *)
Definition _get_fibre_image (lx ly lz : nat) (line_ints : list (Z * Z * Z))
           (fibre_rad : nat) : M (array3 Z * array3 distance) :=
  l <- allocate lx ly lz ;;
  fill_image lx ly lz line_ints fibre_rad l.

(** The locals of a call whose three allocations succeeded, with the
    chunk counts of the single-pass and of the fall-back path. *)
Definition single_pass_locals (lx ly lz : nat) : locals :=
  mkLocals (Some (full lx ly lz 1%Z)) (Some (full lx ly lz 0%Z))
           (Some (full lx ly lz Zero))
           1 1 1 (Nat.max lx (Nat.max ly lz)).

Definition chunked_locals (lx ly lz : nat) : locals :=
  mkLocals (Some (full lx ly lz 1%Z)) (Some (full lx ly lz 0%Z))
           (Some (full lx ly lz Zero))
           (chunks_along lx 100) (chunks_along ly 100)
           (chunks_along lz 100) 100.

End GetFibreImage.

(** The voxels of the fibre image, when the call returned one. *)
Definition fibre_voxel (r : list event * result (array3 Z * array3 distance))
           (v : voxel) : option Z :=
  match snd r with
  | Ok (fs, _) => lookup fs v
  | Raise _ => None
  end.

(** Whether a point lies on the grid. *)
Definition on_grid {A} (a : array3 A) (p : Z * Z * Z) : Prop :=
  let '(x, y, z) := p in
  (0 <= x < Z.of_nat (dim_x a))%Z /\
  (0 <= y < Z.of_nat (dim_y a))%Z /\
  (0 <= z < Z.of_nat (dim_z a))%Z.

(** Allocation oracles: every request succeeds; the first one fails. *)
Definition all_succeed (_ : nat) : bool := true.
Definition first_fails (k : nat) : bool := negb (k =? 0)%nat.

(** *** Facts about the loops *)

Lemma span_cons lo hi : (lo < hi)%nat -> span lo hi = lo :: span (S lo) hi.
Proof.
  intros H. unfold span. destruct (hi - lo)%nat as [|n] eqn:E; [lia|].
  simpl. f_equal. replace (hi - S lo)%nat with n by lia. reflexivity.
Qed.

Lemma voxels_cons (b : box) :
  (x_lo b < x_hi b)%nat -> (y_lo b < y_hi b)%nat -> (z_lo b < z_hi b)%nat ->
  exists rest, voxels b = (x_lo b, y_lo b, z_lo b) :: rest.
Proof.
  intros Hx Hy Hz. unfold voxels.
  rewrite (span_cons _ _ Hx), (span_cons _ _ Hy), (span_cons _ _ Hz).
  simpl. eexists; reflexivity.
Qed.

Lemma chunks_along_pos l : (0 < chunks_along l 100)%nat.
Proof.
  unfold chunks_along, ceil_div.
  destruct (100 <? l)%nat eqn:E; [|lia].
  apply Nat.ltb_lt in E. apply Nat.div_str_pos. lia.
Qed.

Section Loops.
Variable edt_no_background : box -> voxel -> Z.

Lemma rasterize_point_returns ps p log :
  exists log' ps', rasterize_point ps p log = (log', Ok ps').
Proof.
  destruct p as [[x y] z]. unfold rasterize_point.
  destruct (normalize_index (dim_x ps) x);
    [destruct (normalize_index (dim_y ps) y);
     [destruct (normalize_index (dim_z ps) z)|]|];
    do 2 eexists; reflexivity.
Qed.

Lemma rasterize_bound pts : forall ps log,
  exists log' ps', rasterize (Some ps) pts log = (log', Ok (Some ps')).
Proof.
  induction pts as [|p rest IH]; intros ps log; simpl.
  - do 2 eexists; reflexivity.
  - unfold bind, read, ret.
    destruct (rasterize_point_returns ps p log) as (log1 & ps1 & H1).
    rewrite H1. apply IH.
Qed.

Lemma rasterize_unbound pts log :
  rasterize None pts log = (log, Ok None) \/
  rasterize None pts log = (log, Raise (UnboundLocalError "pore_space")).
Proof.
  destruct pts; simpl; [left|right]; reflexivity.
Qed.

(** The first chunk stops at the first of the three grids that is not
    bound. *)
Lemma process_chunks_unbound lx ly lz r l cnum num log :
  (0 < cx l)%nat -> (0 < cy l)%nat -> (0 < cz l)%nat ->
  pore_space l = None \/ fibre_space l = None \/ dt l = None ->
  exists log' name,
    process_chunks edt_no_background lx ly lz r l (chunk_indices l) cnum num log
    = (log', Raise (UnboundLocalError name)).
Proof.
  intros Hx Hy Hz H.
  assert (Hc : exists c rest, chunk_indices l = c :: rest).
  { destruct (voxels_cons (mkBox 0 (cx l) 0 (cy l) 0 (cz l)) Hx Hy Hz)
      as [rest Hr].
    eexists; eexists; exact Hr. }
  revert H Hc. intros H (c & rest & ->). simpl.
  unfold bind, process_chunk, bind, emit, read, raise, ret.
  destruct (pore_space l); [|do 2 eexists; reflexivity].
  destruct (fibre_space l); [|do 2 eexists; reflexivity].
  destruct (dt l); [|do 2 eexists; reflexivity].
  destruct H as [H|[H|H]]; discriminate.
Qed.
End Loops.

(** A coordinate that numpy rejects: the point is dropped with a warning
    and the grid is left as it was. *)
Lemma rasterize_point_index_error ps x y z log :
  normalize_index (dim_x ps) x = None \/
  normalize_index (dim_y ps) y = None \/
  normalize_index (dim_z ps) z = None ->
  rasterize_point ps (x, y, z) log = (log ++ [Warning_out_of_bounds], Ok ps).
Proof.
  unfold rasterize_point, bind, emit, ret. intros H.
  destruct (normalize_index (dim_x ps) x); [|reflexivity].
  destruct (normalize_index (dim_y ps) y); [|reflexivity].
  destruct (normalize_index (dim_z ps) z); [|reflexivity].
  destruct H as [H|[H|H]]; discriminate.
Qed.

(** A point whose coordinates numpy accepts clears the cell they select,
    with no warning; this includes negative coordinates, which select a
    cell counted from the far end of the axis. *)
Lemma rasterize_point_clears ps x y z x' y' z' log :
  well_formed ps ->
  normalize_index (dim_x ps) x = Some x' ->
  normalize_index (dim_y ps) y = Some y' ->
  normalize_index (dim_z ps) z = Some z' ->
  exists ps',
    rasterize_point ps (x, y, z) log = (log, Ok ps') /\
    lookup ps' (x', y', z') = Some 0%Z.
Proof.
  intros Hwf Hx Hy Hz. unfold rasterize_point. rewrite Hx, Hy, Hz.
  eexists. split; [reflexivity|].
  apply lookup_store; [exact Hwf|].
  apply normalize_index_in_range in Hx, Hy, Hz.
  unfold in_range. rewrite !andb_true_iff, !Nat.ltb_lt. auto.
Qed.

Lemma negative_x_clears_far_cell lx ly lz x log :
  (- Z.of_nat lx <= x < 0)%Z -> (0 < ly)%nat -> (0 < lz)%nat ->
  exists ps',
    rasterize_point (full lx ly lz 1%Z) (x, 0, 0)%Z log = (log, Ok ps') /\
    lookup ps' (Z.to_nat (x + Z.of_nat lx), 0, 0)%nat = Some 0%Z.
Proof.
  intros Hx Hy Hz. apply rasterize_point_clears.
  - apply full_well_formed.
  - apply normalize_index_negative. exact Hx.
  - apply (normalize_index_nonnegative ly 0). simpl. lia.
  - apply (normalize_index_nonnegative lz 0). simpl. lia.
Qed.

(** When the three allocations succeed the call is the single pass. *)
Lemma get_fibre_image_single_pass edt_no_background lx ly lz line_ints fibre_rad log :
  _get_fibre_image all_succeed edt_no_background lx ly lz line_ints fibre_rad log
  = fill_image edt_no_background lx ly lz line_ints fibre_rad
               (single_pass_locals lx ly lz) log.
Proof. reflexivity. Qed.

(** *** Main results *)

(** C3.  Chunked and single-pass construction do not agree.  On a domain
    of 106 x 1 x 1 voxels with fibre seeds at x = 99 and x = 105 and a
    fibre radius of one voxel: the call whose first allocation fails, the
    only way into chunked mode, raises before any image exists; and the
    chunk loop itself, run with the chunk counts of the fall-back path on
    grids that were allocated, leaves voxel x = 100 as pore space (1),
    where the single pass makes it fibre (0): the second chunk starts at
    x = 100 and its distance transform does not see the seed at x = 99. *)
Theorem chunked_differs_from_single_pass :
  forall edt_no_background,
    let seeds := [(99, 0, 0); (105, 0, 0)]%Z in
    snd (_get_fibre_image first_fails edt_no_background 106 1 1 seeds 1 [])
      = Raise (UnboundLocalError "pore_space") /\
    fibre_voxel (fill_image edt_no_background 106 1 1 seeds 1
                            (chunked_locals 106 1 1) []) (100, 0, 0)%nat
      = Some 1%Z /\
    fibre_voxel (_get_fibre_image all_succeed edt_no_background 106 1 1 seeds 1 [])
                (100, 0, 0)%nat
      = Some 0%Z.
Proof.
  intros nb seeds. subst seeds. repeat split; vm_compute; reflexivity.
Qed.

(** C4.  The fall-back does not complete: whenever one of the three
    full-size allocations fails, the call raises [UnboundLocalError] for
    the first grid that was never bound, whatever the input. *)
Theorem allocation_failure_is_fatal :
  forall allocates edt_no_background lx ly lz line_ints fibre_rad log,
    allocates 0%nat && allocates 1%nat && allocates 2%nat = false ->
    exists name,
      snd (_get_fibre_image allocates edt_no_background
                            lx ly lz line_ints fibre_rad log)
      = Raise (UnboundLocalError name).
Proof.
  intros allocates nb lx ly lz pts r log H.
  pose proof (chunks_along_pos lx) as Hx.
  pose proof (chunks_along_pos ly) as Hy.
  pose proof (chunks_along_pos lz) as Hz.
  unfold _get_fibre_image, allocate, fall_back, fill_image.
  destruct (allocates 0%nat).
  - assert (Hb : exists ps fs d,
              (fs = None \/ d = None) /\
              (if allocates 1%nat
               then if allocates 2%nat
                    then ret (mkLocals (Some (full lx ly lz 1%Z))
                                       (Some (full lx ly lz 0%Z))
                                       (Some (full lx ly lz Zero)) 1 1 1
                                       (Nat.max lx (Nat.max ly lz)))
                    else emit Info_domain_too_large ;;;
                         ret (mkLocals (Some (full lx ly lz 1%Z))
                                       (Some (full lx ly lz 0%Z)) None
                                       (chunks_along lx 100) (chunks_along ly 100)
                                       (chunks_along lz 100) 100)
               else emit Info_domain_too_large ;;;
                    ret (mkLocals (Some (full lx ly lz 1%Z)) None None
                                  (chunks_along lx 100) (chunks_along ly 100)
                                  (chunks_along lz 100) 100)) log
              = (log ++ [Info_domain_too_large],
                 Ok (mkLocals (Some ps) fs d
                              (chunks_along lx 100) (chunks_along ly 100)
                              (chunks_along lz 100) 100))).
    { destruct (allocates 1%nat); [destruct (allocates 2%nat)|].
      - discriminate.
      - do 3 eexists. split; [right; reflexivity | reflexivity].
      - do 3 eexists. split; [left; reflexivity | reflexivity]. }
    destruct Hb as (ps & fs & d & Hfd & Hb).
    unfold bind at 1. rewrite Hb. unfold bind at 1. simpl pore_space.
    destruct (rasterize_bound pts ps (log ++ [Info_domain_too_large]))
      as (log1 & ps1 & Hr).
    rewrite Hr. unfold bind at 1.
    match goal with
    | |- context [process_chunks nb lx ly lz r ?l (chunk_indices ?l) ?c ?n ?lg] =>
        assert (Hu : pore_space l = None \/ fibre_space l = None \/ dt l = None)
          by (simpl; destruct Hfd; auto);
        destruct (process_chunks_unbound nb lx ly lz r l c n lg Hx Hy Hz Hu)
          as (log2 & name & Hp)
    end.
    rewrite Hp. exists name. reflexivity.
  - unfold bind at 1. simpl. unfold bind at 1. simpl pore_space.
    destruct (rasterize_unbound pts (log ++ [Info_domain_too_large]))
      as [Hr|Hr]; rewrite Hr.
    + unfold bind at 1.
      match goal with
      | |- context [process_chunks nb lx ly lz r ?l (chunk_indices ?l) ?c ?n ?lg] =>
          assert (Hu : pore_space l = None \/ fibre_space l = None \/ dt l = None)
            by (simpl; auto);
          destruct (process_chunks_unbound nb lx ly lz r l c n lg Hx Hy Hz Hu)
            as (log2 & name & Hp)
      end.
      rewrite Hp. exists name. reflexivity.
    + eexists. reflexivity.
Qed.

Lemma allocation_failure_is_fatal_witness :
  exists name,
    snd (_get_fibre_image first_fails (fun _ _ => 0%Z) 2 2 2 [(0, 0, 0)%Z] 1 [])
    = Raise (UnboundLocalError name).
Proof.
  apply (allocation_failure_is_fatal first_fails (fun _ _ => 0%Z)
                                     2 2 2 [(0, 0, 0)%Z] 1 []).
  reflexivity.
Defined.

(** C7.  A line point with a negative coordinate is off the grid, yet it
    is not dropped: numpy counts the index from the far end, no
    [IndexError] is raised, no warning is logged and a cell of the grid is
    cleared.  On a grid of 3 x 1 x 1 voxels the point (-1, 0, 0) clears
    cell (2, 0, 0), and the fibre image of the call differs at that voxel
    from the image obtained without the point. *)
Theorem negative_point_is_not_dropped :
  forall edt_no_background,
    let grid := full 3 1 1 1%Z in
    ~ on_grid grid (-1, 0, 0)%Z /\
    rasterize (Some grid) [(-1, 0, 0)%Z] []
      = ([], Ok (Some (mkArray 3 1 1 [1; 1; 0]%Z))) /\
    fibre_voxel (_get_fibre_image all_succeed edt_no_background 3 1 1
                                  [(0, 0, 0); (-1, 0, 0)]%Z 0 []) (2, 0, 0)%nat
      = Some 0%Z /\
    fibre_voxel (_get_fibre_image all_succeed edt_no_background 3 1 1
                                  [(0, 0, 0)]%Z 0 []) (2, 0, 0)%nat
      = Some 1%Z.
Proof.
  intros nb grid. subst grid. split.
  - unfold on_grid. simpl. lia.
  - repeat split; vm_compute; reflexivity.
Qed.

End FibreImage.

(** ** [_process_pore_voxels], [_indiameter_from_fibres] and the volume
    line of [in_hull_volume]

    The hull image holds a pore index per voxel, -1 where no hull was
    written; the fibre image holds 1 for pore space and 0 for fibre; the
    distance image holds the clamped distances as numbers. *)

Module HullVolume.
Import Ndarray.
Local Open Scope Q_scope.

Inductive result (A : Type) :=
| Ok (a : A)
| IndexError.
Arguments Ok {A}.
Arguments IndexError {A}.

(** [scipy.stats.itemfreq]: the distinct values in increasing order, each
    with the number of its occurrences. *)
Fixpoint count_in (v : Z) (freq : list (Z * nat)) : list (Z * nat) :=
  match freq with
  | [] => [(v, 1%nat)]
  | (w, n) :: rest =>
    if (v <? w)%Z then (v, 1%nat) :: freq
    else if (v =? w)%Z then (w, S n) :: rest
    else (w, n) :: count_in v rest
  end.

Definition itemfreq (values : list Z) : list (Z * nat) :=
  fold_left (fun freq v => count_in v freq) values [].

(** [np.unique] *)
Definition unique (values : list Z) : list Z := map fst (itemfreq values).

(** [a[labels] = counts] for an array of length [length a] *)
Fixpoint assign_at {A} (a : list A) (entries : list (Z * A)) : result (list A) :=
  match entries with
  | [] => Ok a
  | (i, v) :: rest =>
    match normalize_index (length a) i with
    | None => IndexError
    | Some n => assign_at (update_nth a n v) rest
    end
  end.

Section HullImages.
(** [self.num_pores()] *)
Variable num_pores : nat.
(** [self._hull_image], [self._fibre_image], [self._dt_image] *)
Variable hull_image : array3 Z.
Variable fibre_image : array3 Z.
Variable dt_image : array3 Q.
(** [self._vox_len] *)
Variable vox_len : Q.

(** [space = hull_image.copy(); space[fibre_image == flag] = -1] *)
Definition mask_out (flag : Z) : list Z :=
  map (fun lf => if (snd lf =? flag)%Z then (-1)%Z else fst lf)
      (combine (cells hull_image) (cells fibre_image)).

(** [freq[freq[:, 0] > -1]] *)
Definition assigned (freq : list (Z * nat)) : list (Z * nat) :=
  filter (fun e => (-1 <? fst e)%Z) freq.

(** The pair [(self['pore.fibre_voxels'], self['pore.pore_voxels'])]. *)
Definition _process_pore_voxels : result (list nat * list nat) :=
  let pore_vox := repeat 0%nat num_pores in
  let fibre_vox := repeat 0%nat num_pores in
  let freq_pore_vox := assigned (itemfreq (mask_out 0)) in
  let freq_fibre_vox := assigned (itemfreq (mask_out 1)) in
  match assign_at pore_vox freq_pore_vox with
  | IndexError => IndexError
  | Ok pore_vox =>
    match assign_at fibre_vox freq_fibre_vox with
    | IndexError => IndexError
    | Ok fibre_vox => Ok (fibre_vox, pore_vox)
    end
  end.

(** [self['pore.volume'] = self['pore.pore_voxels']*voxel] *)
Definition pore_volume (pore_vox : list nat) : list Q :=
  map (fun n => inject_Z (Z.of_nat n) * (vox_len * vox_len * vox_len)) pore_vox.

(** [dt_pore = self._dt_image*(self._hull_image == pore)], flattened *)
Definition dt_pore (pore : Z) : list Q :=
  map (fun dl => if (snd dl =? pore)%Z then fst dl * 1 else fst dl * 0)
      (combine (cells dt_image) (cells hull_image)).

(** [max] and [np.argmax] (the first position of the maximum) of a
    non-empty array *)
Fixpoint max_from (best : Q) (pos : nat) (i : nat) (l : list Q) : Q * nat :=
  match l with
  | [] => (best, pos)
  | v :: rest =>
    if Qle_bool v best then max_from best pos (S i) rest
    else max_from v i (S i) rest
  end.

Definition max_and_argmax (l : list Q) : Q * nat :=
  match l with
  | [] => (0, 0%nat)
  | v :: rest => max_from v 0 1 rest
  end.

(** [(indx[i], indy[i], indz[i])] for the position [i] of the flattened
    image *)
Definition unravel (i : nat) : Q * Q * Q :=
  let ly := dim_y hull_image in
  let lz := dim_z hull_image in
  (inject_Z (Z.of_nat (i / (ly * lz))),
   inject_Z (Z.of_nat ((i / lz) mod ly)),
   inject_Z (Z.of_nat (i mod lz))).

(** The loop over [hull_pores]: every value found in the hull image is
    used as an index into [indiam] and [incen]. *)
Fixpoint each_hull_pore (hull_pores : list Z)
         (indiam : list Q) (incen : list (Q * Q * Q))
  : result (list Q * list (Q * Q * Q)) :=
  match hull_pores with
  | [] => Ok (indiam, incen)
  | pore :: rest =>
    let '(m, max_ind) := max_and_argmax (dt_pore pore) in
    match normalize_index (length indiam) pore with
    | None => IndexError
    | Some n =>
      match normalize_index (length incen) pore with
      | None => IndexError
      | Some n' =>
        each_hull_pore rest (update_nth indiam n (m * 2))
                       (update_nth incen n' (unravel max_ind))
      end
    end
  end.

(** The pair [(indiam, incen)]. *)
Definition _indiameter_from_fibres : result (list Q * list (Q * Q * Q)) :=
  let indiam := repeat 0 num_pores in
  let incen := repeat (0, 0, 0) num_pores in
  let hull_pores := unique (cells hull_image) in
  match each_hull_pore hull_pores indiam incen with
  | IndexError => IndexError
  | Ok (indiam, incen) =>
    Ok (map (fun d => d * vox_len) indiam,
        map (fun c => (fst (fst c) * vox_len, snd (fst c) * vox_len,
                       snd c * vox_len)) incen)
  end.

End HullImages.

(** The number of voxels of the hull image assigned to a pore. *)
Definition voxels_of_pore (hull_image : array3 Z) (pore : Z) : nat :=
  count_occ Z.eq_dec (cells hull_image) pore.

(** The in-diameter recorded for a pore, and its volume. *)
Definition indiameter_of (r : result (list Q * list (Q * Q * Q))) (pore : nat)
  : option Q :=
  match r with
  | Ok (indiam, _) => nth_error indiam pore
  | IndexError => None
  end.

Definition volume_of (vox_len : Q) (r : result (list nat * list nat)) (pore : nat)
  : option Q :=
  match r with
  | Ok (_, pore_vox) => nth_error (pore_volume vox_len pore_vox) pore
  | IndexError => None
  end.

(** *** Pores without voxels *)

Lemma count_in_keys v freq k :
  In k (map fst (count_in v freq)) <-> k = v \/ In k (map fst freq).
Proof.
  induction freq as [|[w n] rest IH]; simpl.
  - intuition.
  - destruct (v <? w)%Z; [simpl; intuition|].
    destruct (v =? w)%Z eqn:E.
    + apply Z.eqb_eq in E. subst w. simpl. intuition.
    + simpl. rewrite IH. intuition.
Qed.

Lemma itemfreq_from_keys values : forall acc k,
  In k (map fst (fold_left (fun freq v => count_in v freq) values acc))
  <-> In k values \/ In k (map fst acc).
Proof.
  induction values as [|v rest IH]; intros acc k; simpl.
  - intuition.
  - rewrite IH, count_in_keys. intuition.
Qed.

Lemma unique_In values k : In k (unique values) <-> In k values.
Proof.
  unfold unique, itemfreq. rewrite itemfreq_from_keys. simpl. intuition.
Qed.

(** The loop of [_indiameter_from_fibres] leaves alone the entry of a
    pore that no label of the hull image selects. *)
Lemma each_hull_pore_other hull dt p : forall labels indiam incen,
  length indiam = length incen ->
  Forall (fun l => exists k, normalize_index (length indiam) l = Some k /\ k <> p)
         labels ->
  exists indiam' incen',
    each_hull_pore hull dt labels indiam incen = Ok (indiam', incen') /\
    nth_error indiam' p = nth_error indiam p.
Proof.
  induction labels as [|l rest IH]; intros indiam incen Hlen H; simpl.
  - do 2 eexists. split; reflexivity.
  - inversion H as [|l' rest' (k & Hk & Hkp) Hrest]; subst.
    destruct (max_and_argmax (dt_pore hull dt l)) as [m max_ind].
    rewrite <- Hlen, Hk.
    destruct (IH (update_nth indiam k (m * 2))
                 (update_nth incen k (unravel hull max_ind)))
      as (indiam' & incen' & Hrun & Hnth).
    + rewrite !length_update_nth. exact Hlen.
    + rewrite length_update_nth. exact Hrest.
    + exists indiam', incen'. split; [exact Hrun|].
      rewrite Hnth. apply nth_error_update_nth_other. exact Hkp.
Qed.

Lemma count_occ_zero_not_In (l : list Z) (x : Z) :
  count_occ Z.eq_dec l x = 0%nat -> ~ In x l.
Proof. intros H. apply (count_occ_not_In Z.eq_dec). exact H. Qed.

(** X9.  A pore without a voxel keeps the in-diameter 0, unless it is the
    last pore and some voxel of the hull image is unassigned. *)
Lemma indiameter_of_pore_without_voxels num_pores hull dt vox_len p :
  Forall (fun l => (-1 <= l < Z.of_nat num_pores)%Z) (cells hull) ->
  (p < num_pores)%nat ->
  voxels_of_pore hull (Z.of_nat p) = 0%nat ->
  (S p < num_pores)%nat \/ ~ In (-1)%Z (cells hull) ->
  exists d,
    indiameter_of (_indiameter_from_fibres num_pores hull dt vox_len) p = Some d /\
    d == 0.
Proof.
  intros Hlabels Hp Hnone Hlast.
  apply count_occ_zero_not_In in Hnone.
  unfold _indiameter_from_fibres.
  destruct (each_hull_pore_other hull dt p (unique (cells hull))
              (repeat 0 num_pores) (repeat (0, 0, 0) num_pores))
    as (indiam & incen & Hrun & Hnth).
  - rewrite !repeat_length. reflexivity.
  - apply Forall_forall. intros l Hl. apply (proj1 (unique_In _ _)) in Hl.
    rewrite repeat_length.
    rewrite Forall_forall in Hlabels. specialize (Hlabels l Hl).
    destruct (Z.eq_dec l (-1)) as [->|Hneg].
    + exists (Z.to_nat (-1 + Z.of_nat num_pores)). split.
      * apply normalize_index_negative. lia.
      * destruct Hlast as [Hlast|Hlast]; [lia | contradiction].
    + exists (Z.to_nat l). split.
      * apply normalize_index_nonnegative. lia.
      * intros E. apply Hnone. replace (Z.of_nat p) with l by lia. exact Hl.
  - rewrite Hrun. simpl.
    rewrite nth_error_map, Hnth.
    rewrite (nth_error_repeat 0 Hp). simpl.
    eexists. split; [reflexivity|]. apply Qmult_0_l.
Qed.

Lemma assign_at_other {A} (p : nat) (entries : list (Z * A)) : forall a,
  Forall (fun e => exists k, normalize_index (length a) (fst e) = Some k /\ k <> p)
         entries ->
  exists a', assign_at a entries = Ok a' /\ nth_error a' p = nth_error a p.
Proof.
  induction entries as [|[i v] rest IH]; intros a H; simpl.
  - eexists. split; reflexivity.
  - inversion H as [|e rest' (k & Hk & Hkp) Hrest]; subst. simpl in Hk.
    rewrite Hk.
    destruct (IH (update_nth a k v)) as (a' & Hrun & Hnth).
    + rewrite length_update_nth. exact Hrest.
    + exists a'. split; [exact Hrun|].
      rewrite Hnth. apply nth_error_update_nth_other. exact Hkp.
Qed.

Lemma mask_out_In hull fibre flag l :
  In l (mask_out hull fibre flag) -> l = (-1)%Z \/ In l (cells hull).
Proof.
  unfold mask_out. intros H. apply in_map_iff in H.
  destruct H as ([h f] & E & Hin). simpl in E.
  destruct (f =? flag)%Z; [left; auto|].
  right. subst l. eapply in_combine_l. exact Hin.
Qed.

Lemma assigned_entries num_pores hull fibre flag p :
  Forall (fun l => (-1 <= l < Z.of_nat num_pores)%Z) (cells hull) ->
  ~ In (Z.of_nat p) (cells hull) ->
  Forall (fun e : Z * nat =>
            exists k, normalize_index (length (repeat 0%nat num_pores)) (fst e) = Some k
                      /\ k <> p)
         (assigned (itemfreq (mask_out hull fibre flag))).
Proof.
  intros Hlabels Hnone. apply Forall_forall. intros [l n] He.
  unfold assigned in He. apply filter_In in He. destruct He as [He Hpos].
  simpl in Hpos. apply Z.ltb_lt in Hpos.
  assert (Hl : In l (mask_out hull fibre flag)).
  { apply (proj1 (unique_In _ _)). unfold unique.
    apply in_map_iff. exists (l, n). auto. }
  apply mask_out_In in Hl. destruct Hl as [Hl|Hl]; [lia|].
  rewrite Forall_forall in Hlabels. specialize (Hlabels l Hl).
  rewrite repeat_length. simpl. exists (Z.to_nat l). split.
  - apply normalize_index_nonnegative. lia.
  - intros E. apply Hnone. replace (Z.of_nat p) with l by lia. exact Hl.
Qed.

(** A pore without a voxel has volume 0. *)
Lemma volume_of_pore_without_voxels num_pores hull fibre vox_len p :
  Forall (fun l => (-1 <= l < Z.of_nat num_pores)%Z) (cells hull) ->
  (p < num_pores)%nat ->
  voxels_of_pore hull (Z.of_nat p) = 0%nat ->
  exists v,
    volume_of vox_len (_process_pore_voxels num_pores hull fibre) p = Some v /\
    v == 0.
Proof.
  intros Hlabels Hp Hnone. apply count_occ_zero_not_In in Hnone.
  unfold _process_pore_voxels.
  destruct (assign_at_other p _ _ (assigned_entries num_pores hull fibre 0 p Hlabels Hnone))
    as (pore_vox & -> & Hnth).
  destruct (assign_at_other p _ _ (assigned_entries num_pores hull fibre 1 p Hlabels Hnone))
    as (fibre_vox & -> & _).
  simpl. unfold pore_volume. rewrite nth_error_map, Hnth.
  rewrite (nth_error_repeat 0%nat Hp). simpl.
  eexists. split; [reflexivity|]. apply Qmult_0_l.
Qed.

(** *** Main result *)

(** C6.  A pore without a voxel gets volume 0, but not always in-diameter
    0.  The labels found in the hull image include -1 as soon as a voxel is
    unassigned, and [indiam[-1]] is the entry of the last pore.  With two
    pores, voxel 0 in the hull of pore 0 and voxels 1 and 2 unassigned,
    pore 1 has no voxel and volume 0, and is given the in-diameter 4: twice
    the largest distance found among the unassigned voxels. *)
Theorem last_pore_takes_indiameter_of_unassigned :
  let hull := mkArray 3 1 1 [0; -1; -1]%Z in
  let fibre := mkArray 3 1 1 [1; 1; 0]%Z in
  let dt := mkArray 3 1 1 [1; 2; 0] in
  voxels_of_pore hull 1 = 0%nat /\
  volume_of 1 (_process_pore_voxels 2 hull fibre) 1 = Some 0 /\
  indiameter_of (_indiameter_from_fibres 2 hull dt 1) 1 = Some 4 /\
  indiameter_of (_indiameter_from_fibres 2 hull dt 1) 0 = Some 2.
Proof.
  repeat split; vm_compute; reflexivity.
Qed.

End HullVolume.

(** ** Floating-point helpers read over the reals *)

Module Float.
Local Open Scope R_scope.

(** [np.floor], [np.ceil] followed by [astype(int)] *)
Definition floor (x : R) : Z := Int_part x.
Definition ceil (x : R) : Z := (- Int_part (- x))%Z.

(** [np.rint]: the nearest integer, a tie going to the even one *)
Definition rint (x : R) : Z :=
  let n := floor x in
  let f := x - IZR n in
  if Rlt_dec f (1 / 2) then n
  else if Rlt_dec (1 / 2) f then (n + 1)%Z
  else if Z.even n then n else (n + 1)%Z.

(** [np.around(x, decimals)] *)
Definition around (decimals : Z) (x : R) : R :=
  IZR (rint (x * powerRZ 10 decimals)) / powerRZ 10 decimals.

(** [min] and [max] of a column; numpy raises on an empty one *)
Definition min_of (l : list R) : option R :=
  match l with
  | [] => None
  | x :: rest => Some (fold_left Rmin rest x)
  end.

Definition max_of (l : list R) : option R :=
  match l with
  | [] => None
  | x :: rest => Some (fold_left Rmax rest x)
  end.

Lemma floor_unique (x : R) (n : Z) : IZR n <= x < IZR n + 1 -> floor x = n.
Proof.
  intros H. unfold floor. symmetry. apply Int_part_spec. lra.
Qed.

Lemma ceil_unique (x : R) (n : Z) : IZR n - 1 < x <= IZR n -> ceil x = n.
Proof.
  intros H. unfold ceil.
  rewrite <- (Int_part_spec (- x) (- n)%Z).
  - lia.
  - rewrite opp_IZR. lra.
Qed.

Lemma rint_IZR (n : Z) : rint (IZR n) = n.
Proof.
  unfold rint. rewrite (floor_unique (IZR n) n) by lra.
  destruct (Rlt_dec (IZR n - IZR n) (1 / 2)); [reflexivity | lra].
Qed.

Lemma around_exact (decimals : Z) (x : R) (n : Z) :
  x * powerRZ 10 decimals = IZR n -> around decimals x = x.
Proof.
  intros H. unfold around. rewrite H, rint_IZR, <- H.
  assert (powerRZ 10 decimals <> 0) by (apply powerRZ_NOR; lra).
  field. assumption.
Qed.

End Float.

(** ** [VoronoiGeometry.inhull] *)

Module InHull.
Import Ndarray Float.
Local Open Scope R_scope.

Definition vec3 : Type := R * R * R.

Definition vx (v : vec3) : R := fst (fst v).
Definition vy (v : vec3) : R := snd (fst v).
Definition vz (v : vec3) : R := snd v.

Definition vsub (a b : vec3) : vec3 := (vx a - vx b, vy a - vy b, vz a - vz b).
Definition vscale (a : vec3) (k : R) : vec3 := (vx a * k, vy a * k, vz a * k).
Definition vneg (a : vec3) : vec3 := (- vx a, - vy a, - vz a).
Definition vmap (f : R -> R) (a : vec3) : vec3 := (f (vx a), f (vy a), f (vz a)).
Definition dot (a b : vec3) : R := vx a * vx b + vy a * vy b + vz a * vz b.
Definition cross (a b : vec3) : vec3 :=
  (vy a * vz b - vz a * vy b,
   vz a * vx b - vx a * vz b,
   vx a * vy b - vy a * vx b).

(** [np.mean(xyz, axis=0)] *)
Definition mean (xyz : list vec3) : vec3 :=
  let n := INR (length xyz) in
  (fold_left Rplus (map vx xyz) 0 / n,
   fold_left Rplus (map vy xyz) 0 / n,
   fold_left Rplus (map vz xyz) 0 / n).

Inductive exn :=
| ValueError
| QhullError
| IndexError.

(** The label image: its shape and the label of each voxel. *)
Record image := mkImage {
  shape : nat * nat * nat;
  label : voxel -> Z
}.

(** One facet of the hull: its unit normal turned inwards, the plane
    constant [aN] and the length the raw normal had. *)
Record plane := mkPlane {
  normal : vec3;
  aN : R;
  nrmlen : R
}.

(** The normal of the simplex [(a, b, c)], scaled to unit length and
    turned towards the centre of mass, and [aN = sum(nrmls*a)]. *)
Definition facet_plane (center a b c : vec3) : plane :=
  let vab := vsub a b in
  let vac := vsub a c in
  let nrml := cross vab vac in
  let len := sqrt (vx nrml * vx nrml + vy nrml * vy nrml + vz nrml * vz nrml) in
  let nrml := vscale nrml (1 / len) in
  let dp := dot (vsub center a) nrml in
  let nrml := if Rlt_dec dp 0 then vneg nrml else nrml in
  mkPlane nrml (dot nrml a) len.

(** The planes of [hull.simplices], in their order. *)
Fixpoint planes_of (xyz : list vec3) (center : vec3)
         (simplices : list (nat * nat * nat)) : option (list plane) :=
  match simplices with
  | [] => Some []
  | (i, j, k) :: rest =>
    match nth_error xyz i, nth_error xyz j, nth_error xyz k,
          planes_of xyz center rest with
    | Some a, Some b, Some c, Some ps => Some (facet_plane center a b c :: ps)
    | _, _, _, _ => None
    end
  end.

(** [xN - aN[plane_index] >= 0-tol] at the grid position [idx].  A facet
    of zero area has the normal [0*inf], not a number, and a comparison
    with it is false. *)
Definition satisfies (tol : R) (p : plane) (idx : voxel) : bool :=
  let '(i, j, k) := idx in
  let eqx := vx (normal p) * INR i in
  let eqy := vy (normal p) * INR j in
  let eqz := vz (normal p) * INR k in
  let xN := eqx + eqy + eqz in
  if Req_dec_T (nrmlen p) 0 then false
  else if Rge_dec (xN - aN p) (0 - tol) then true else false.

(** [+= 1] on an entry of dtype [uint8] *)
Definition uint8_succ (c : Z) : Z := ((c + 1) mod 256)%Z.

(** The entry of [dom] at [idx] after the loop over the planes *)
Definition counter (tol : R) (planes : list plane) (idx : voxel) : Z :=
  fold_left (fun c p => if satisfies tol p idx then uint8_succ c else c)
            planes 0%Z.

(** ... and after [dom[dom < len(a)] = 0; dom[dom == len(a)] = 1] *)
Definition dom (tol : R) (planes : list plane) (idx : voxel) : Z :=
  let n := Z.of_nat (length planes) in
  let c := counter tol planes idx in
  let c := if (c <? n)%Z then 0%Z else c in
  if (c =? n)%Z then 1%Z else c.

(** A bound of a Python slice on an axis of length [len] *)
Definition clip (len : nat) (i : Z) : nat :=
  if (i <? 0)%Z then Z.to_nat (Z.max (i + Z.of_nat len) 0)
  else Z.to_nat (Z.min i (Z.of_nat len)).

(** The slice [start : start+d] of an axis of length [len] against a
    source axis of length [d]: the position it starts at and whether numpy
    accepts the assignment (equal lengths, or a source axis of length 1
    that is repeated). *)
Definition slice_start (len : nat) (start : Z) : nat := clip len start.
Definition slice_len (len : nat) (start : Z) (d : nat) : nat :=
  (clip len (start + Z.of_nat d) - clip len start)%nat.
Definition axis_fits (len : nat) (start : Z) (d : nat) : bool :=
  (slice_len len start d =? d)%nat || (d =? 1)%nat.

(** The position of the source read for position [pos] of the target *)
Definition source_pos (len : nat) (start : Z) (d : nat) (pos : nat) : option nat :=
  let s := slice_start len start in
  if (s <=? pos)%nat && (pos <? s + slice_len len start d)%nat
  then Some (if (d =? 1)%nat then 0%nat else (pos - s)%nat)
  else None.

Section InHull.
(** [scipy.spatial.ConvexHull(xyz).simplices]; [None] when Qhull fails *)
Variable ConvexHull_simplices : list vec3 -> option (list (nat * nat * nat)).

(** What the function has computed when it reaches the loop over the
    planes: the start index [si], the shape of [dom] and the planes. *)
Record grid := mkGrid {
  si : Z * Z * Z;
  ds : nat * nat * nat;
  planes : list plane
}.

Definition prepare (xyz : list vec3) : exn + grid :=
  let xyz := map (vmap (around 10)) xyz in
  match min_of (map vx xyz), max_of (map vx xyz),
        min_of (map vy xyz), max_of (map vy xyz),
        min_of (map vz xyz), max_of (map vz xyz) with
  | Some xmin, Some xmax, Some ymin, Some ymax, Some zmin, Some zmax =>
    let xr := (ceil xmax - floor xmin + 1)%Z in
    let yr := (ceil ymax - floor ymin + 1)%Z in
    let zr := (ceil zmax - floor zmin + 1)%Z in
    let origin := (xmin, ymin, zmin) in
    let si := (floor xmin, floor ymin, floor zmin) in
    let xyz := map (fun p => vsub p origin) xyz in
    match ConvexHull_simplices xyz with
    | None => inl QhullError
    | Some simplices =>
      match planes_of xyz (mean xyz) simplices with
      | None => inl IndexError
      | Some planes =>
        inr (mkGrid si (Z.to_nat xr, Z.to_nat yr, Z.to_nat zr) planes)
      end
    end
  | _, _, _, _, _, _ => inl ValueError
  end.

(** [temp_arr] after [temp_arr[si[0]:si[0]+ds[0], ...] = dom] *)
Definition temp_arr (tol : R) (g : grid) (img_shape : nat * nat * nat)
           (v : voxel) : bool :=
  let '(lx, ly, lz) := img_shape in
  let '(sx, sy, sz) := si g in
  let '(dx, dy, dz) := ds g in
  let '(x, y, z) := v in
  match source_pos lx sx dx x, source_pos ly sy dy y, source_pos lz sz dz z with
  | Some i, Some j, Some k => negb (dom tol (planes g) (i, j, k) =? 0)%Z
  | _, _, _ => false
  end.

Definition fits (g : grid) (img_shape : nat * nat * nat) : bool :=
  let '(lx, ly, lz) := img_shape in
  let '(sx, sy, sz) := si g in
  let '(dx, dy, dz) := ds g in
  axis_fits lx sx dx && axis_fits ly sy dy && axis_fits lz sz dz.

(** [inhull]: the hull image after the call, and the exception if one was
    raised (the image is then as it was). *)
Definition inhull (xyz : list vec3) (pore : Z) (tol : R) (hull_image : image)
  : image * option exn :=
  match prepare xyz with
  | inl e => (hull_image, Some e)
  | inr g =>
    if fits g (shape hull_image) then
      (mkImage (shape hull_image)
               (fun v => if temp_arr tol g (shape hull_image) v then pore
                         else label hull_image v),
       None)
    else (hull_image, Some ValueError)
  end.

End InHull.

(** [v] is a convex combination of the points with positive weights: for
    points that are not coplanar, an interior point of their hull. *)
Definition strictly_inside (xyz : list vec3) (v : vec3) : Prop :=
  exists weights : list R,
    length weights = length xyz /\
    Forall (fun w => 0 < w) weights /\
    fold_left Rplus weights 0 = 1 /\
    fold_left (fun acc wp => (vx acc + fst wp * vx (snd wp),
                              vy acc + fst wp * vy (snd wp),
                              vz acc + fst wp * vz (snd wp)))
              (combine weights xyz) (0, 0, 0) = v.

(** A plane with unit normal has all the points on one side and [v] at a
    distance of at least [margin] on the other. *)
Definition outside_by (margin : R) (xyz : list vec3) (v : vec3) : Prop :=
  exists (n : vec3) (c : R),
    dot n n = 1 /\
    Forall (fun p => c <= dot n p) xyz /\
    dot n v + margin <= c.

(** The centre of the voxel with the given indices, in the coordinates
    of the vertices (voxel units). *)
Definition centre (v : voxel) : vec3 :=
  let '(x, y, z) := v in (INR x, INR y, INR z).

(** *** A tetrahedron off the integer grid

    Four vertices at multiples of a quarter voxel, as a voxel length of
    4e-6 gives them, with the four facets Qhull reports for them. *)

Definition tetrahedron : list vec3 :=
  [(3/4, 3/4, 3/4); (19/4, 3/4, 3/4); (3/4, 19/4, 3/4); (3/4, 3/4, 19/4)].
Definition tetrahedron_simplices : list (nat * nat * nat) :=
  [(0, 1, 2); (0, 1, 3); (0, 2, 3); (1, 2, 3)]%nat.
Definition tetrahedron_hull (_ : list vec3) := Some tetrahedron_simplices.

(** The vertices after [xyz -= origin] *)
Definition translated : list vec3 := [(0, 0, 0); (4, 0, 0); (0, 4, 0); (0, 0, 4)].

(** The default of the keyword argument [tol] *)
Definition tol : R := 1 / 10000000.

(** A hull image of 6 x 6 x 6 voxels on which no hull has been written *)
Definition unlabelled : image := mkImage (6, 6, 6)%nat (fun _ => (-1)%Z).

(** The planes of its four facets, for the centre of mass (1, 1, 1) *)
Definition tetrahedron_planes : list plane :=
  [facet_plane (1,1,1) (0,0,0) (4,0,0) (0,4,0);
   facet_plane (1,1,1) (0,0,0) (4,0,0) (0,0,4);
   facet_plane (1,1,1) (0,0,0) (0,4,0) (0,0,4);
   facet_plane (1,1,1) (4,0,0) (0,4,0) (0,0,4)].

(** The same four points with a facet list of 256 entries. *)
Definition many_facets_hull (_ : list vec3) : option (list (nat * nat * nat)) :=
  Some (repeat (0, 1, 2)%nat 256).

(** *** The counter of [dom] *)

Lemma uint8_succ_range c : (0 <= uint8_succ c < 256)%Z.
Proof. unfold uint8_succ. apply Z.mod_pos_bound. lia. Qed.

Lemma counter_from_range tol idx planes : forall c,
  (0 <= c < 256)%Z ->
  (0 <= fold_left (fun c p => if satisfies tol p idx then uint8_succ c else c)
                  planes c < 256)%Z.
Proof.
  induction planes as [|p rest IH]; intros c Hc; simpl.
  - exact Hc.
  - apply IH. destruct (satisfies tol p idx); [apply uint8_succ_range | exact Hc].
Qed.

Lemma counter_range tol planes idx : (0 <= counter tol planes idx < 256)%Z.
Proof. unfold counter. apply counter_from_range. lia. Qed.

Lemma counter_from_all_satisfied tol idx planes : forall c,
  Forall (fun p => satisfies tol p idx = true) planes ->
  fold_left (fun c p => if satisfies tol p idx then uint8_succ c else c) planes c
  = ((c + Z.of_nat (length planes)) mod 256)%Z \/ planes = [].
Proof.
  induction planes as [|p rest IH]; intros c H.
  - right; reflexivity.
  - left. inversion H as [|p' rest' Hp Hrest]; subst. simpl fold_left. rewrite Hp.
    destruct (IH (uint8_succ c) Hrest) as [E | E].
    + rewrite E. unfold uint8_succ. rewrite Zplus_mod_idemp_l.
      f_equal. simpl length. lia.
    + subst rest. simpl. unfold uint8_succ. f_equal.
Qed.

Lemma dom_zero tol planes idx :
  (255 < length planes)%nat -> dom tol planes idx = 0%Z.
Proof.
  intros H. unfold dom.
  pose proof (counter_range tol planes idx) as Hc.
  destruct (counter tol planes idx <? Z.of_nat (length planes))%Z eqn:E.
  - destruct (0 =? Z.of_nat (length planes))%Z eqn:E0; [|reflexivity].
    apply Z.eqb_eq in E0. lia.
  - apply Z.ltb_ge in E. lia.
Qed.

Lemma length_planes_of xyz center simplices : forall planes,
  planes_of xyz center simplices = Some planes ->
  length planes = length simplices.
Proof.
  induction simplices as [|[[i j] k] rest IH]; intros planes H; simpl in H.
  - injection H as <-. reflexivity.
  - destruct (nth_error xyz i); [|discriminate].
    destruct (nth_error xyz j); [|discriminate].
    destruct (nth_error xyz k); [|discriminate].
    destruct (planes_of xyz center rest) as [ps|]; [|discriminate].
    injection H as <-. simpl. f_equal. apply IH. reflexivity.
Qed.

Lemma planes_of_defined xyz center simplices :
  Forall (fun s : nat * nat * nat =>
            let '(i, j, k) := s in
            (i < length xyz)%nat /\ (j < length xyz)%nat /\ (k < length xyz)%nat)
         simplices ->
  exists planes, planes_of xyz center simplices = Some planes.
Proof.
  induction 1 as [|[[i j] k] rest (Hi & Hj & Hk) _ IH]; simpl.
  - eexists; reflexivity.
  - destruct IH as [ps ->].
    apply nth_error_Some in Hi, Hj, Hk.
    destruct (nth_error xyz i); [|congruence].
    destruct (nth_error xyz j); [|congruence].
    destruct (nth_error xyz k); [|congruence].
    eexists; reflexivity.
Qed.

(** [prepare] reaches the loop whenever Qhull returns facets over the
    points it was given. *)
Lemma prepare_succeeds ConvexHull_simplices xyz simplices :
  xyz <> [] ->
  (forall pts, length pts = length xyz ->
               ConvexHull_simplices pts = Some simplices) ->
  Forall (fun s : nat * nat * nat =>
            let '(i, j, k) := s in
            (i < length xyz)%nat /\ (j < length xyz)%nat /\ (k < length xyz)%nat)
         simplices ->
  exists g, prepare ConvexHull_simplices xyz = inr g /\
            length (planes g) = length simplices.
Proof.
  intros Hne Hhull Hidx. unfold prepare.
  destruct xyz as [|p rest]; [congruence|]. simpl map. simpl min_of. simpl max_of.
  cbv beta iota zeta.
  match goal with
  | |- context [ConvexHull_simplices ?pts] =>
      rewrite (Hhull pts) by (simpl; rewrite !length_map; reflexivity);
      destruct (planes_of_defined pts (mean pts) simplices) as [ps Hps]
  end.
  - simpl length. rewrite !length_map. exact Hidx.
  - rewrite Hps. eexists. split; [reflexivity|].
    simpl. eapply length_planes_of. exact Hps.
Qed.

(** *** Main results *)

(** C9.  The counter of [dom] is an unsigned byte: at a grid position
    that satisfies every plane it holds the number of facets modulo 256.
    For a hull with more than 255 facets ([planes g] has one plane per
    entry of [hull.simplices]) no entry of [dom] reaches the number of
    facets, every entry is reset to 0, and the call leaves every label of
    the hull image as it was. *)
Theorem more_than_255_facets_classify_nothing :
  forall ConvexHull_simplices xyz pore tol hull_image g,
    prepare ConvexHull_simplices xyz = inr g ->
    (255 < length (planes g))%nat ->
    (forall idx, Forall (fun p => satisfies tol p idx = true) (planes g) ->
                 counter tol (planes g) idx
                 = (Z.of_nat (length (planes g)) mod 256)%Z) /\
    (forall idx, dom tol (planes g) idx = 0%Z) /\
    (forall v, label (fst (inhull ConvexHull_simplices xyz pore tol hull_image)) v
               = label hull_image v).
Proof.
  intros CH xyz pore tol img g Hg Hn. repeat split.
  - intros idx Hall. unfold counter.
    destruct (counter_from_all_satisfied tol idx (planes g) 0%Z Hall) as [E|E].
    + exact E.
    + rewrite E in Hn. simpl in Hn. lia.
  - intros idx. apply dom_zero. exact Hn.
  - intros v. unfold inhull. rewrite Hg.
    destruct (fits g (shape img)); [|reflexivity].
    simpl. unfold temp_arr.
    destruct (shape img) as [[lx ly] lz], (si g) as [[sx sy] sz],
             (ds g) as [[dx dy] dz], v as [[x y] z].
    destruct (source_pos lx sx dx x); [|reflexivity].
    destruct (source_pos ly sy dy y); [|reflexivity].
    destruct (source_pos lz sz dz z); [|reflexivity].
    rewrite dom_zero by exact Hn. reflexivity.
Qed.

Lemma more_than_255_facets_classify_nothing_witness :
  label (fst (inhull many_facets_hull tetrahedron 7 tol unlabelled)) (1, 1, 1)%nat
  = (-1)%Z.
Proof.
  destruct (prepare_succeeds many_facets_hull tetrahedron (repeat (0, 1, 2)%nat 256))
    as (g & Hg & Hlen).
  - discriminate.
  - reflexivity.
  - apply Forall_forall. intros s Hs. apply repeat_spec in Hs. subst s.
    simpl. lia.
  - apply (proj2 (proj2 (more_than_255_facets_classify_nothing
                           many_facets_hull tetrahedron 7 tol unlabelled g Hg
                           ltac:(rewrite Hlen, repeat_length; lia)))).
Defined.

(** *** The tetrahedron, evaluated *)

Lemma around_three_quarters : around 10 (3/4) = 3/4.
Proof. apply (around_exact 10 (3/4) 7500000000). simpl. lra. Qed.

Lemma around_nineteen_quarters : around 10 (19/4) = 19/4.
Proof. apply (around_exact 10 (19/4) 47500000000). simpl. lra. Qed.

Lemma rounded : map (vmap (around 10)) tetrahedron = tetrahedron.
Proof.
  unfold tetrahedron, vmap, vx, vy, vz. simpl.
  rewrite around_three_quarters, around_nineteen_quarters. reflexivity.
Qed.

Ltac eval_min_max :=
  repeat match goal with
         | |- context [Rmin ?a ?b] =>
             first [rewrite (Rmin_left a b) by lra | rewrite (Rmin_right a b) by lra]
         | |- context [Rmax ?a ?b] =>
             first [rewrite (Rmax_left a b) by lra | rewrite (Rmax_right a b) by lra]
         end.

Lemma mins :
  min_of (map vx tetrahedron) = Some (3/4) /\
  min_of (map vy tetrahedron) = Some (3/4) /\
  min_of (map vz tetrahedron) = Some (3/4).
Proof.
  unfold tetrahedron, min_of. cbn [map fold_left vx vy vz fst snd].
  repeat split; eval_min_max; reflexivity.
Qed.

Lemma maxs :
  max_of (map vx tetrahedron) = Some (19/4) /\
  max_of (map vy tetrahedron) = Some (19/4) /\
  max_of (map vz tetrahedron) = Some (19/4).
Proof.
  unfold tetrahedron, max_of. cbn [map fold_left vx vy vz fst snd].
  repeat split; eval_min_max; reflexivity.
Qed.

Lemma floor_34 : floor (3/4) = 0%Z.
Proof. apply floor_unique. lra. Qed.

Lemma ceil_194 : ceil (19/4) = 5%Z.
Proof. apply ceil_unique. lra. Qed.

Lemma translate : map (fun p => vsub p (3/4, 3/4, 3/4)) tetrahedron = translated.
Proof.
  unfold tetrahedron, translated, vsub, vx, vy, vz. simpl.
  repeat (f_equal; try lra).
Qed.

Lemma mean_translated : mean translated = (1, 1, 1).
Proof.
  unfold mean, translated, vx, vy, vz. simpl.
  repeat (f_equal; try lra).
Qed.

Lemma prepare_tetrahedron :
  prepare tetrahedron_hull tetrahedron
  = inr (mkGrid (0, 0, 0)%Z (6, 6, 6)%nat
                [facet_plane (1,1,1) (0,0,0) (4,0,0) (0,4,0);
                 facet_plane (1,1,1) (0,0,0) (4,0,0) (0,0,4);
                 facet_plane (1,1,1) (0,0,0) (0,4,0) (0,0,4);
                 facet_plane (1,1,1) (4,0,0) (0,4,0) (0,0,4)]).
Proof.
  unfold prepare. rewrite rounded.
  destruct mins as (-> & -> & ->). destruct maxs as (-> & -> & ->).
  cbv beta iota zeta. rewrite translate, mean_translated, floor_34, ceil_194.
  reflexivity.
Qed.

(** The plane test without the square root in the denominator: the
    signed product with the raw normal against [-tol] times its length. *)
Lemma satisfies_facet_plane tol center a b c idx q :
  let raw := cross (vsub a b) (vsub a c) in
  vx raw * vx raw + vy raw * vy raw + vz raw * vz raw = q ->
  0 < q ->
  let d := dot raw (vsub (centre idx) a) in
  let d' := if Rlt_dec (dot (vsub center a) raw) 0 then - d else d in
  satisfies tol (facet_plane center a b c) idx
  = if Rge_dec d' (- tol * sqrt q) then true else false.
Proof.
  intros raw Hq Hpos d d'. subst d' d.
  destruct idx as [[i j] k].
  unfold satisfies, facet_plane. cbn [normal aN nrmlen].
  fold raw. rewrite Hq.
  pose proof (sqrt_lt_R0 q Hpos) as Hs.
  set (s := sqrt q) in *.
  destruct (Req_dec_T s 0) as [E|_]; [lra|].
  assert (Hk : 0 < 1 / s) by (apply Rdiv_lt_0_compat; lra).
  assert (Hks : 1 / s * s = 1) by (field; lra).
  set (r := 1 / s) in *.
  assert (Hdp : dot (vsub center a) (vscale raw r) = dot (vsub center a) raw * r).
  { unfold dot, vscale, vsub, vx, vy, vz. cbn [fst snd]. ring. }
  rewrite Hdp.
  assert (Hsign : dot (vsub center a) raw * r < 0 <-> dot (vsub center a) raw < 0).
  { split; intros H; nra. }
  unfold centre.
  destruct (Rlt_dec (dot (vsub center a) raw * r) 0) as [L|L];
    destruct (Rlt_dec (dot (vsub center a) raw) 0) as [L'|L'];
    try (exfalso; tauto).
  - match goal with
    | |- (if Rge_dec ?u ?v then _ else _) = (if Rge_dec ?u' ?v' then _ else _) =>
        assert (Hu : u = u' * r)
          by (unfold dot, vscale, vneg, vsub, vx, vy, vz; cbn [fst snd]; ring);
        assert (Hu' : u' = u * s) by (rewrite Hu, Rmult_assoc, Hks; ring);
        destruct (Rge_dec u v); destruct (Rge_dec u' v'); try reflexivity;
        exfalso; clear Hu; nra
    end.
  - match goal with
    | |- (if Rge_dec ?u ?v then _ else _) = (if Rge_dec ?u' ?v' then _ else _) =>
        assert (Hu : u = u' * r)
          by (unfold dot, vscale, vneg, vsub, vx, vy, vz; cbn [fst snd]; ring);
        assert (Hu' : u' = u * s) by (rewrite Hu, Rmult_assoc, Hks; ring);
        destruct (Rge_dec u v); destruct (Rge_dec u' v'); try reflexivity;
        exfalso; clear Hu; nra
    end.
Qed.

Lemma sqrt_768 : sqrt 768 <= 28.
Proof.
  rewrite <- (sqrt_square 28) by lra. apply sqrt_le_1_alt. lra.
Qed.

Ltac plane_test q :=
  rewrite (satisfies_facet_plane _ _ _ _ _ _ q);
  [ pose proof (sqrt_pos q); pose proof sqrt_768;
    unfold tol, centre, cross, dot, vsub, vx, vy, vz; cbn [fst snd INR];
    repeat match goal with
           | |- context [Rlt_dec ?a ?b] => destruct (Rlt_dec a b); try lra
           | |- context [Rge_dec ?a ?b] => destruct (Rge_dec a b); try nra
           end;
    try reflexivity
  | unfold cross, vsub, vx, vy, vz; cbn [fst snd]; lra
  | lra ].

Lemma origin_satisfies_all :
  Forall (fun p => satisfies tol p (0, 0, 0)%nat = true)
         [facet_plane (1,1,1) (0,0,0) (4,0,0) (0,4,0);
          facet_plane (1,1,1) (0,0,0) (4,0,0) (0,0,4);
          facet_plane (1,1,1) (0,0,0) (0,4,0) (0,0,4);
          facet_plane (1,1,1) (4,0,0) (0,4,0) (0,0,4)].
Proof.
  repeat constructor.
  - plane_test 256.
  - plane_test 256.
  - plane_test 256.
  - plane_test 768.
Qed.

Lemma slanted_facet_rejects_222 :
  satisfies tol (facet_plane (1,1,1) (4,0,0) (0,4,0) (0,0,4)) (2, 2, 2)%nat = false.
Proof. plane_test 768. Qed.

Lemma others_accept_222 :
  Forall (fun p => satisfies tol p (2, 2, 2)%nat = true)
         [facet_plane (1,1,1) (0,0,0) (4,0,0) (0,4,0);
          facet_plane (1,1,1) (0,0,0) (4,0,0) (0,0,4);
          facet_plane (1,1,1) (0,0,0) (0,4,0) (0,0,4)].
Proof.
  repeat constructor.
  - plane_test 256.
  - plane_test 256.
  - plane_test 256.
Qed.

Lemma dom_origin : dom tol tetrahedron_planes (0, 0, 0)%nat = 1%Z.
Proof.
  unfold dom, counter.
  destruct (counter_from_all_satisfied tol (0,0,0)%nat tetrahedron_planes 0%Z
              origin_satisfies_all) as [E|E]; [|discriminate E].
  rewrite E. reflexivity.
Qed.

Lemma dom_222 : dom tol tetrahedron_planes (2, 2, 2)%nat = 0%Z.
Proof.
  unfold dom, counter, tetrahedron_planes.
  change [facet_plane (1,1,1) (0,0,0) (4,0,0) (0,4,0);
          facet_plane (1,1,1) (0,0,0) (4,0,0) (0,0,4);
          facet_plane (1,1,1) (0,0,0) (0,4,0) (0,0,4);
          facet_plane (1,1,1) (4,0,0) (0,4,0) (0,0,4)]
    with ([facet_plane (1,1,1) (0,0,0) (4,0,0) (0,4,0);
           facet_plane (1,1,1) (0,0,0) (4,0,0) (0,0,4);
           facet_plane (1,1,1) (0,0,0) (0,4,0) (0,0,4)]
          ++ [facet_plane (1,1,1) (4,0,0) (0,4,0) (0,0,4)]).
  rewrite fold_left_app.
  destruct (counter_from_all_satisfied tol (2,2,2)%nat _ 0%Z others_accept_222)
    as [E|E]; [|discriminate E].
  rewrite E. cbn [fold_left]. rewrite slanted_facet_rejects_222. reflexivity.
Qed.

(** C2.  The classifier tests the grid position [idx] at the point
    [origin + idx] but writes the result to voxel [floor(origin) + idx].
    For the tetrahedron with corner (3/4, 3/4, 3/4) and edges of 4 voxels
    along the axes: the centre of voxel (2, 2, 2) is a convex combination
    of the vertices with positive weights, and the voxel keeps the label
    -1; the centre of voxel (0, 0, 0) lies three quarters of a voxel
    outside the hull (and the point half a voxel further along each axis a
    quarter of a voxel), and the voxel is given the pore index. *)
Theorem voxels_misclassified_off_integer_origin :
  let after := fst (inhull tetrahedron_hull tetrahedron 7 tol unlabelled) in
  strictly_inside tetrahedron (centre (2, 2, 2)%nat) /\
  label after (2, 2, 2)%nat = (-1)%Z /\
  outside_by (3 / 4) tetrahedron (centre (0, 0, 0)%nat) /\
  outside_by (1 / 4) tetrahedron (1 / 2, 1 / 2, 1 / 2) /\
  label after (0, 0, 0)%nat = 7%Z.
Proof.
  intros after. subst after. unfold inhull. rewrite prepare_tetrahedron.
  fold tetrahedron_planes.
  change (fits (mkGrid (0, 0, 0)%Z (6, 6, 6)%nat tetrahedron_planes)
               (shape unlabelled)) with true.
  cbn [fst label].
  change (temp_arr tol (mkGrid (0, 0, 0)%Z (6, 6, 6)%nat tetrahedron_planes)
                   (shape unlabelled) (2, 2, 2)%nat)
    with (negb (dom tol tetrahedron_planes (2, 2, 2)%nat =? 0)%Z).
  change (temp_arr tol (mkGrid (0, 0, 0)%Z (6, 6, 6)%nat tetrahedron_planes)
                   (shape unlabelled) (0, 0, 0)%nat)
    with (negb (dom tol tetrahedron_planes (0, 0, 0)%nat =? 0)%Z).
  rewrite dom_origin, dom_222. cbn [negb Z.eqb label unlabelled].
  repeat split.
  - exists [1/16; 5/16; 5/16; 5/16].
    unfold tetrahedron, centre, vx, vy, vz. cbn [length combine fold_left fst snd INR].
    repeat split.
    + repeat constructor; lra.
    + lra.
    + repeat (f_equal; try lra).
  - exists (1, 0, 0), (3 / 4).
    unfold tetrahedron, centre, dot, vx, vy, vz. cbn [fst snd INR].
    repeat split.
    + lra.
    + repeat constructor; cbn [fst snd]; lra.
    + lra.
  - exists (1, 0, 0), (3 / 4).
    unfold tetrahedron, dot, vx, vy, vz. cbn [fst snd].
    repeat split.
    + lra.
    + repeat constructor; cbn [fst snd]; lra.
    + lra.
Qed.

End InHull.

(** ** [VoronoiGeometry._throat_props] *)

Module ThroatProps.
Import Ndarray Float InHull.
Local Open Scope R_scope.

(** The rows of [M[:3, :3]] *)
Definition matrix : Type := vec3 * vec3 * vec3.

Definition identity : matrix := ((1, 0, 0), (0, 1, 0), (0, 0, 1)).

(** [np.dot(v, M[:3, :3].T)] for one row [v] *)
Definition dot_T (v : vec3) (M : matrix) : vec3 :=
  let '(r0, r1, r2) := M in (dot v r0, dot v r1, dot v r2).

(** A two-dimensional image: its shape and the value of each pixel. *)
Record image2 := mkImage2 {
  rows : nat;
  cols : nat;
  pixel : nat -> nat -> R
}.

(** What is read from an entry of [regionprops] *)
Record region := mkRegion {
  rp_centroid : R * R;
  rp_equivalent_diameter : R;
  rp_area : R;
  rp_perimeter : R;
  rp_coords : list (Z * Z)
}.

(** The functions of transforms3d, scikit-image and scipy that the method
    calls.  [rotation_matrix] and [inverse_matrix] are read on the upper
    left 3 x 3 block, the only part the method uses. *)
Record library := mkLibrary {
  angle_between_vectors : vec3 -> vec3 -> R;
  vector_product : vec3 -> vec3 -> vec3;
  rotation_matrix : R -> vec3 -> matrix;
  inverse_matrix : matrix -> matrix;
  convex_hull_image : image2 -> image2;
  distance_transform_edt : image2 -> image2;
  regionprops : image2 -> list region
}.

Inductive exn :=
| ValueError
| OverflowError
| IndexError.

(** The entries of the seven arrays for one throat. *)
Record throat := mkThroat {
  area : R;
  perimeter : R;
  equiv_diameter : R;
  inradius : R;
  centroid : option vec3;
  incentre : option vec3;
  eroded_verts : option (list vec3)
}.

(** The entries before the loop: zeros, and for the arrays of dtype
    [object] nothing.  [centroid] and [incentre] are arrays of zeros when
    the geometry holds every throat of the network. *)
Definition initial (Nt net_Nt : nat) : throat :=
  let c := if (Nt =? net_Nt)%nat then Some (0, 0, 0) else None in
  mkThroat 0 0 0 0 c c None.

Definition res : R := 200.
Definition z_axis : vec3 := (0, 0, 1).

(** [np.log10] *)
Definition log10 (x : R) : R := ln x / ln 10.

(** The positions of an image in C order *)
Definition positions (img : image2) : list (nat * nat) :=
  flat_map (fun a => map (fun b => (a, b)) (seq 0 (cols img))) (seq 0 (rows img)).

(** [np.sum(img)] *)
Definition sum_pixels (img : image2) : R :=
  fold_left (fun s p => s + pixel img (fst p) (snd p)) (positions img) 0.

(** [np.unravel_index(img.argmax(), img.shape)]: the first position, in C
    order, that holds the maximum *)
Definition argmax (img : image2) : nat * nat :=
  fold_left (fun best p =>
               if Rlt_dec (pixel img (fst best) (snd best)) (pixel img (fst p) (snd p))
               then p else best)
            (positions img) (0%nat, 0%nat).

(** [img_pad]: a ring of zeros around [img] *)
Definition pad (img : image2) : image2 :=
  mkImage2 (rows img + 2) (cols img + 2)
           (fun a b =>
              if ((1 <=? a) && (a <=? rows img) && (1 <=? b) && (b <=? cols img))%nat
              then pixel img (a - 1) (b - 1) else 0).

(** [img[1:nrows+1, 1:ncols+1]] *)
Definition crop (nrows ncols : nat) (img : image2) : image2 :=
  mkImage2 (Nat.min (rows img) (nrows + 1) - 1) (Nat.min (cols img) (ncols + 1) - 1)
           (fun a b => pixel img (a + 1) (b + 1)).

(** [eroded[eroded <= r] = 0; eroded[eroded > r] = 1] *)
Definition threshold (r : R) (img : image2) : image2 :=
  mkImage2 (rows img) (cols img)
           (fun a b =>
              let e := pixel img a b in
              let e := if Rle_dec e r then 0 else e in
              if Rgt_dec e r then 1 else e).

(** [img[pt[0]][pt[1]] = 1] for every point: the positions written, or
    an [IndexError] *)
Fixpoint written (nrows ncols : nat) (int_pts : list (Z * Z))
  : option (list (nat * nat)) :=
  match int_pts with
  | [] => Some []
  | (a, b) :: rest =>
    match normalize_index nrows a, normalize_index ncols b, written nrows ncols rest with
    | Some a', Some b', Some ps => Some ((a', b') :: ps)
    | _, _, _ => None
    end
  end.

Definition drawn (nrows ncols : nat) (ps : list (nat * nat)) : image2 :=
  mkImage2 nrows ncols
           (fun a b => if existsb (fun p => (fst p =? a)%nat && (snd p =? b)%nat) ps
                       then 1 else 0).

(** [np.unique] up to the order of the values, which the mean does not
    depend on *)
Fixpoint distinct (l : list R) : list R :=
  match l with
  | [] => []
  | x :: rest =>
    if in_dec Req_dec_T x rest then distinct rest else x :: distinct rest
  end.

(** [z_plane]: the rounded heights of the facet, their mean when they
    differ *)
Definition z_plane_of (order : Z) (z : list R) : R :=
  match distinct (map (around (order + 2)) z) with
  | [v] => v
  | vs => fold_left Rplus vs 0 / INR (length vs)
  end.

(** [np.argmin(np.sum(np.square(coords-pt), axis=1))]: the first entry of
    [coords] nearest to [pt] *)
Definition sq_dist2 (c pt : Z * Z) : Z :=
  ((fst c - fst pt) * (fst c - fst pt) + (snd c - snd pt) * (snd c - snd pt))%Z.

Fixpoint argmin_from (pt : Z * Z) (best : nat) (best_d : Z) (i : nat)
         (coords : list (Z * Z)) : nat :=
  match coords with
  | [] => best
  | c :: rest =>
    if (sq_dist2 c pt <? best_d)%Z
    then argmin_from pt i (sq_dist2 c pt) (S i) rest
    else argmin_from pt best best_d (S i) rest
  end.

Definition argmin (pt : Z * Z) (coords : list (Z * Z)) : option nat :=
  match coords with
  | [] => None
  | c :: rest => Some (argmin_from pt 0 (sq_dist2 c pt) 1 rest)
  end.

(** The loop that collects [offset_verts] *)
Fixpoint nearest_coords (coords : list (Z * Z)) (int_pts : list (Z * Z))
         (offset_verts : list nat) : option (list nat) :=
  match int_pts with
  | [] => Some offset_verts
  | pt :: rest =>
    match argmin pt coords with
    | None => None
    | Some vert =>
      if existsb (Nat.eqb vert) offset_verts
      then nearest_coords coords rest offset_verts
      else nearest_coords coords rest (offset_verts ++ [vert])
    end
  end.

Section Throat.
Variable lib : library.

(** [np.dot(x, MI[:3, :3].T)] when the facet was rotated, [x] otherwise *)
Definition unrotate (rotation : option matrix) (v : vec3) : vec3 :=
  match rotation with
  | Some M => dot_T v (inverse_matrix lib M)
  | None => v
  end.

(** The body of [if np.sum(eroded) >= 3:] for the single region. *)
Definition measure (rotation : option matrix) (translation : R * R) (f : R)
           (z_plane : R) (int_pts : list (Z * Z)) (eroded : image2)
           (props : region) (t : throat) : exn + throat :=
  let '(x0, y0) := rp_centroid props in
  let t := mkThroat (rp_area props) (rp_perimeter props)
                    (rp_equivalent_diameter props) (inradius t)
                    (centroid t) (incentre t) (eroded_verts t) in
  let coords := rp_coords props in
  let centroid3d := (x0 / f + fst translation, y0 / f + snd translation, z_plane) in
  let dt := distance_transform_edt lib eroded in
  let '(inx0, iny0) := argmax dt in
  let incentre3d := (INR inx0 / f + fst translation,
                     INR iny0 / f + snd translation, z_plane) in
  match nearest_coords coords int_pts [] with
  | None => inl ValueError
  | Some offset_verts =>
    if (3 <=? length offset_verts)%nat then
      let oc_3d :=
          map (fun vert =>
                 let c := nth vert coords (0, 0)%Z in
                 (IZR (fst c) / f + fst translation,
                  IZR (snd c) / f + snd translation,
                  1 * z_plane))
              offset_verts in
      inr (mkThroat (area t / (f * f)) (perimeter t / f)
                    (equiv_diameter t / f)
                    (pixel dt inx0 iny0 / f)
                    (Some (unrotate rotation centroid3d))
                    (Some (unrotate rotation incentre3d))
                    (Some (map (unrotate rotation) oc_3d)))
    else
      inr (mkThroat 0 0 0 (inradius t) (centroid t) (incentre t) (eroded_verts t))
  end.

(** The body of [if r <= res/2:] *)
Definition extract (rotation : option matrix) (translation : R * R)
           (pts : list (R * R)) (z : list R) (order : Z) (f r : R)
           (t : throat) : exn + throat :=
  let pts := map (fun p => (fst p * f, snd p * f)) pts in
  match min_of (map fst pts), min_of (map snd pts),
        max_of (map fst pts), max_of (map snd pts) with
  | Some minp1, Some minp2, Some maxp1, Some maxp2 =>
    let nrows := Z.to_nat (ceil (maxp1 - minp1) + 1) in
    let ncols := Z.to_nat (ceil (maxp2 - minp2) + 1) in
    let int_pts := map (fun p => (rint (fst p), rint (snd p))) pts in
    match written nrows ncols int_pts with
    | None => inl IndexError
    | Some ps =>
      let img := drawn nrows ncols ps in
      let img_pad := pad img in
      let z_plane := z_plane_of order z in
      let convhullimg := convex_hull_image lib img_pad in
      let eroded := threshold r (distance_transform_edt lib convhullimg) in
      if Rge_dec (sum_pixels eroded) 3 then
        let cropped := crop nrows ncols eroded in
        match regionprops lib cropped with
        | [props] => measure rotation translation f z_plane int_pts eroded props t
        | _ => inr t
        end
      else inr t
    end
  | _, _, _, _ => inl ValueError
  end.

(** The scaled fibre radius [r = f*offset] of a facet in the plane *)
Definition scaled_offset (max_factor offset : R) : R := res / max_factor * offset.

(** One pass of the loop from [x = facet[:, 0]] on: [facet] holds the
    vertices in the plane and [rotation] the matrix [M] if the facet was
    rotated.  A facet whose points all project to one point has
    [np.max(pts) = 0], and [math.ceil] raises [OverflowError] on the
    infinite logarithm. *)
Definition analyse (rotation : option matrix) (facet : list vec3) (offset : R)
           (t : throat) : exn + throat :=
  match min_of (map vx facet), min_of (map vy facet) with
  | Some tx, Some ty =>
    let translation := (tx, ty) in
    let pts := map (fun p => (vx p - tx, vy p - ty)) facet in
    match max_of (flat_map (fun p => [fst p; snd p]) pts),
          max_of (map fst pts), max_of (map snd pts) with
    | Some max_pts, Some max1, Some max2 =>
      if Req_dec_T max_pts 0 then inl OverflowError
      else
        let order := ceil (- log10 max_pts) in
        let max_factor := Rmax max1 max2 in
        let f := res / max_factor in
        let r := scaled_offset max_factor offset in
        if Rle_dec r (res / 2)
        then extract rotation translation pts (map vz facet) order f r t
        else inr t
    | _, _, _ => inl ValueError
    end
  | _, _ => inl ValueError
  end.

(** "We are already aligned" *)
Definition aligned (normal : vec3) : bool :=
  let angle := angle_between_vectors lib normal z_axis in
  if Req_dec_T angle 0 then true
  else if Req_dec_T angle PI then true else false.

(** One pass of the loop over the throats *)
Definition throat_props_of (vertices : list vec3) (normal : vec3) (offset : R)
           (t : throat) : exn + throat :=
  if aligned normal then analyse None vertices offset t
  else
    let M := rotation_matrix lib (angle_between_vectors lib normal z_axis)
                             (vector_product lib normal z_axis) in
    analyse (Some M) (map (fun v => dot_T v M) vertices) offset t.

(** [_throat_props]: the entries of the arrays it stores for the throats
    the loop visits, given the vertices and the normal of each; [Nt] is
    the length of the arrays and [net_Nt] the number of throats of the
    network. *)
Fixpoint each_throat (t0 : throat) (offset : R)
         (throats : list (list vec3 * vec3)) : exn + list throat :=
  match throats with
  | [] => inr []
  | (vertices, normal) :: rest =>
    match throat_props_of vertices normal offset t0 with
    | inl e => inl e
    | inr t =>
      match each_throat t0 offset rest with
      | inl e => inl e
      | inr ts => inr (t :: ts)
      end
    end
  end.

Definition _throat_props (Nt net_Nt : nat) (throats : list (list vec3 * vec3))
           (offset : R) : exn + list throat :=
  each_throat (initial Nt net_Nt) offset throats.

(** What the facet would give with the matrix [M] applied to it, whatever
    the angle. *)
Definition throat_props_rotated_by (M : matrix) (vertices : list vec3)
           (offset : R) (t : throat) : exn + throat :=
  analyse (Some M) (map (fun v => dot_T v M) vertices) offset t.

End Throat.

(** What a pass of the loop can leave in the arrays: the entries as they
    were; the three scalars zeroed; or the measurements of one region,
    divided by a positive scale factor (by its square for the area). *)
Inductive pass_result (t : throat) : throat -> Prop :=
| Untouched : pass_result t t
| Too_few_vertices :
    pass_result t (mkThroat 0 0 0 (inradius t) (centroid t) (incentre t)
                                (eroded_verts t))
| Measured (props : region) (f r : R) c i vs :
    0 < f ->
    pass_result t (mkThroat (rp_area props / (f * f)) (rp_perimeter props / f)
                                (rp_equivalent_diameter props / f) r
                                (Some c) (Some i) (Some vs)).

(** A square facet of side 10 in the plane z = 0, and its normal. *)
Definition square : list vec3 := [(0, 0, 0); (10, 0, 0); (10, 10, 0); (0, 10, 0)].
Definition square_normal : vec3 := (0, 0, 100).

(** A library for facets that lie in the plane: every angle is 0, no
    matrix moves a point and no region is found. *)
Definition flat_library : library :=
  mkLibrary (fun _ _ => 0) cross (fun _ _ => identity) (fun M => M)
            (fun img => img) (fun img => img) (fun _ => []).

(** *** Rotation by the identity *)

Lemma dot_T_identity v : dot_T v identity = v.
Proof.
  destruct v as [[a b] c]. unfold dot_T, identity, dot, vx, vy, vz. cbn [fst snd].
  repeat (f_equal; try lra).
Qed.

Lemma unrotate_identity lib v :
  inverse_matrix lib identity = identity ->
  unrotate lib (Some identity) v = unrotate lib None v.
Proof.
  intros H. unfold unrotate. rewrite H. apply dot_T_identity.
Qed.

Lemma measure_identity lib translation f z_plane int_pts eroded props t :
  inverse_matrix lib identity = identity ->
  measure lib (Some identity) translation f z_plane int_pts eroded props t
  = measure lib None translation f z_plane int_pts eroded props t.
Proof.
  intros H. unfold measure.
  destruct (rp_centroid props) as [x0 y0].
  destruct (argmax (distance_transform_edt lib eroded)) as [inx0 iny0].
  destruct (nearest_coords (rp_coords props) int_pts []) as [offset_verts|];
    [|reflexivity].
  destruct (3 <=? length offset_verts)%nat; [|reflexivity].
  rewrite !(unrotate_identity lib _ H).
  f_equal. f_equal. f_equal. apply map_ext. intros v. apply unrotate_identity, H.
Qed.

Lemma extract_identity lib translation pts z order f r t :
  inverse_matrix lib identity = identity ->
  extract lib (Some identity) translation pts z order f r t
  = extract lib None translation pts z order f r t.
Proof.
  intros H. unfold extract.
  repeat match goal with
         | |- context [match ?x with _ => _ end] => destruct x; try reflexivity
         end.
  apply measure_identity, H.
Qed.

Lemma analyse_identity lib facet offset t :
  inverse_matrix lib identity = identity ->
  analyse lib (Some identity) facet offset t = analyse lib None facet offset t.
Proof.
  intros H. unfold analyse.
  repeat match goal with
         | |- context [match ?x with _ => _ end] => destruct x; try reflexivity
         end.
  apply extract_identity, H.
Qed.

(** *** The test on the scaled offset *)

Lemma aligned_iff lib normal :
  aligned lib normal = true <->
  angle_between_vectors lib normal z_axis = 0 \/
  angle_between_vectors lib normal z_axis = PI.
Proof.
  unfold aligned.
  destruct (Req_dec_T (angle_between_vectors lib normal z_axis) 0);
    [|destruct (Req_dec_T (angle_between_vectors lib normal z_axis) PI)];
    intuition congruence.
Qed.

Lemma analyse_skips lib rotation facet offset t tx ty max_pts max1 max2 :
  min_of (map vx facet) = Some tx ->
  min_of (map vy facet) = Some ty ->
  let pts := map (fun p => (vx p - tx, vy p - ty)) facet in
  max_of (flat_map (fun p => [fst p; snd p]) pts) = Some max_pts ->
  max_of (map fst pts) = Some max1 ->
  max_of (map snd pts) = Some max2 ->
  max_pts <> 0 ->
  res / 2 < scaled_offset (Rmax max1 max2) offset ->
  analyse lib rotation facet offset t = inr t.
Proof.
  intros Htx Hty pts Hm Hm1 Hm2 Hnz Hr. unfold analyse.
  rewrite Htx, Hty. fold pts. rewrite Hm, Hm1, Hm2.
  destruct (Req_dec_T max_pts 0); [contradiction|].
  destruct (Rle_dec (scaled_offset (Rmax max1 max2) offset) (res / 2)); [lra|].
  reflexivity.
Qed.

Lemma square_bounds :
  min_of (map vx square) = Some 0 /\
  min_of (map vy square) = Some 0 /\
  let pts := map (fun p : vec3 => (vx p - 0, vy p - 0)) square in
  max_of (flat_map (fun p => [fst p; snd p]) pts) = Some (10 - 0) /\
  max_of (map fst pts) = Some (10 - 0) /\
  max_of (map snd pts) = Some (10 - 0).
Proof.
  unfold square, min_of, max_of.
  cbn [map flat_map app fold_left vx vy vz fst snd].
  repeat split; eval_min_max; reflexivity.
Qed.

(** *** What a pass stores *)

Lemma fold_left_Rmax_init l : forall a, a <= fold_left Rmax l a.
Proof.
  induction l as [|x l IH]; intros a; simpl; [lra|].
  eapply Rle_trans; [apply (Rmax_l a x) | apply IH].
Qed.

Lemma fold_left_Rmax_ge l : forall a x, In x l -> x <= fold_left Rmax l a.
Proof.
  induction l as [|y l IH]; intros a x H; simpl in *; [contradiction|].
  destruct H as [E|H].
  - subst y. eapply Rle_trans; [apply (Rmax_r a x) | apply fold_left_Rmax_init].
  - apply IH, H.
Qed.

Lemma fold_left_Rmax_in l : forall a,
  fold_left Rmax l a = a \/ In (fold_left Rmax l a) l.
Proof.
  induction l as [|y l IH]; intros a; simpl; [left; reflexivity|].
  destruct (IH (Rmax a y)) as [E|H].
  - rewrite E. unfold Rmax. destruct (Rle_dec a y); auto.
  - right; right; exact H.
Qed.

Lemma fold_left_Rmin_in l : forall a,
  fold_left Rmin l a = a \/ In (fold_left Rmin l a) l.
Proof.
  induction l as [|y l IH]; intros a; simpl; [left; reflexivity|].
  destruct (IH (Rmin a y)) as [E|H].
  - rewrite E. unfold Rmin. destruct (Rle_dec a y); auto.
  - right; right; exact H.
Qed.

Lemma max_of_ge l m x : max_of l = Some m -> In x l -> x <= m.
Proof.
  destruct l as [|a l]; [discriminate|]. simpl. intros [= <-] [E|H].
  - subst x. apply fold_left_Rmax_init.
  - apply fold_left_Rmax_ge, H.
Qed.

Lemma max_of_in l m : max_of l = Some m -> In m l.
Proof.
  destruct l as [|a l]; [discriminate|]. simpl. intros [= <-].
  destruct (fold_left_Rmax_in l a) as [E|H]; [left; auto | right; exact H].
Qed.

Lemma min_of_in l m : min_of l = Some m -> In m l.
Proof.
  destruct l as [|a l]; [discriminate|]. simpl. intros [= <-].
  destruct (fold_left_Rmin_in l a) as [E|H]; [left; auto | right; exact H].
Qed.

(** The scale factor of a facet that reaches the test on [r] is positive. *)
Lemma max_factor_positive (facet : list vec3) tx ty max_pts max1 max2 :
  min_of (map vx facet) = Some tx ->
  let pts := map (fun p => (vx p - tx, vy p - ty)) facet in
  max_of (flat_map (fun p => [fst p; snd p]) pts) = Some max_pts ->
  max_of (map fst pts) = Some max1 ->
  max_of (map snd pts) = Some max2 ->
  max_pts <> 0 ->
  0 < Rmax max1 max2.
Proof.
  intros Htx pts Hm Hm1 Hm2 Hnz.
  apply min_of_in, in_map_iff in Htx. destruct Htx as (p & Hp & Hin).
  assert (Hzero : In (vx p - tx, vy p - ty) pts)
    by (unfold pts; apply in_map_iff; exists p; auto).
  assert (H0 : 0 <= max_pts).
  { replace 0 with (vx p - tx) by lra.
    apply (max_of_ge _ _ _ Hm). apply in_flat_map.
    exists (vx p - tx, vy p - ty). split; [exact Hzero | left; reflexivity]. }
  apply max_of_in, in_flat_map in Hm. destruct Hm as (q & Hq & Hin').
  assert (Hle : max_pts <= Rmax max1 max2).
  { destruct Hin' as [E|[E|[]]]; rewrite <- E.
    - eapply Rle_trans; [|apply Rmax_l].
      apply (max_of_ge _ _ _ Hm1), in_map, Hq.
    - eapply Rle_trans; [|apply Rmax_r].
      apply (max_of_ge _ _ _ Hm2), in_map, Hq. }
  lra.
Qed.

Lemma measure_result lib rotation translation f z_plane int_pts eroded props t t' :
  0 < f ->
  measure lib rotation translation f z_plane int_pts eroded props t = inr t' ->
  pass_result t t'.
Proof.
  intros Hf. unfold measure.
  destruct (rp_centroid props) as [x0 y0].
  destruct (argmax (distance_transform_edt lib eroded)) as [inx0 iny0].
  destruct (nearest_coords (rp_coords props) int_pts []) as [offset_verts|];
    [|discriminate].
  destruct (3 <=? length offset_verts)%nat; intros [= <-]; cbn [area perimeter equiv_diameter inradius centroid incentre eroded_verts].
  - apply Measured. exact Hf.
  - apply Too_few_vertices.
Qed.

Lemma extract_result lib rotation translation pts z order f r t t' :
  0 < f ->
  extract lib rotation translation pts z order f r t = inr t' ->
  pass_result t t'.
Proof.
  intros Hf. unfold extract.
  repeat match goal with
         | |- context [match ?x with _ => _ end] => destruct x; try discriminate
         end;
    try (intros [= <-]; apply Untouched).
  apply measure_result, Hf.
Qed.

Lemma analyse_result lib rotation facet offset t t' :
  analyse lib rotation facet offset t = inr t' -> pass_result t t'.
Proof.
  unfold analyse.
  destruct (min_of (map vx facet)) as [tx|] eqn:Htx; [|discriminate].
  destruct (min_of (map vy facet)) as [ty|] eqn:Hty; [|discriminate].
  destruct (max_of _) as [max_pts|] eqn:Hm; [|discriminate].
  destruct (max_of (map fst _)) as [max1|] eqn:Hm1; [|discriminate].
  destruct (max_of (map snd _)) as [max2|] eqn:Hm2; [|discriminate].
  destruct (Req_dec_T max_pts 0) as [|Hnz]; [discriminate|].
  destruct (Rle_dec _ _); [|intros [= <-]; apply Untouched].
  apply extract_result.
  apply Rdiv_lt_0_compat; [unfold res; lra|].
  exact (max_factor_positive facet tx ty max_pts max1 max2 Htx Hm Hm1 Hm2 Hnz).
Qed.

Lemma throat_props_of_result lib vertices normal offset t t' :
  throat_props_of lib vertices normal offset t = inr t' -> pass_result t t'.
Proof.
  unfold throat_props_of. destruct (aligned lib normal); apply analyse_result.
Qed.

(** A throat without offset vertices has area, perimeter and diameter 0;
    a throat with offset vertices holds the measurements of its region
    divided by a positive factor. *)
Lemma occluded_throat_scalars lib vertices normal offset Nt net_Nt t' :
  throat_props_of lib vertices normal offset (initial Nt net_Nt) = inr t' ->
  eroded_verts t' = None ->
  area t' = 0 /\ perimeter t' = 0 /\ equiv_diameter t' = 0.
Proof.
  intros H Hocc. apply throat_props_of_result in H.
  destruct H; cbn in *; auto. discriminate.
Qed.

Lemma measured_throat_scalars lib vertices normal offset Nt net_Nt t' :
  throat_props_of lib vertices normal offset (initial Nt net_Nt) = inr t' ->
  eroded_verts t' <> None ->
  exists props f,
    0 < f /\
    area t' = rp_area props / (f * f) /\
    perimeter t' = rp_perimeter props / f /\
    equiv_diameter t' = rp_equivalent_diameter props / f.
Proof.
  intros H Hocc. apply throat_props_of_result in H.
  destruct H; cbn in *; try congruence.
  exists props, f. auto.
Qed.

(** *** Main results *)

(** C8.  A facet whose normal makes the angle 0 or pi with the z axis is
    analysed as it stands, without a rotation matrix, and every entry the
    pass stores (area, perimeter, diameter, inradius, centroid, incentre,
    offset vertices) is the one that rotating the vertices by the identity
    matrix, and rotating the results back by its inverse, would store. *)
Theorem aligned_facet_matches_identity_rotation lib vertices normal offset t :
  angle_between_vectors lib normal z_axis = 0 \/
  angle_between_vectors lib normal z_axis = PI ->
  inverse_matrix lib identity = identity ->
  throat_props_of lib vertices normal offset t = analyse lib None vertices offset t /\
  throat_props_of lib vertices normal offset t
  = throat_props_rotated_by lib identity vertices offset t.
Proof.
  intros Ha Hinv. apply aligned_iff in Ha.
  unfold throat_props_of, throat_props_rotated_by. rewrite Ha.
  split; [reflexivity|].
  rewrite (map_ext _ (fun v => v)) by (intros v; apply dot_T_identity).
  rewrite map_id. symmetry. apply analyse_identity, Hinv.
Qed.

Lemma aligned_facet_matches_identity_rotation_witness :
  throat_props_of flat_library square square_normal 6 (initial 1 1)
  = throat_props_rotated_by flat_library identity square 6 (initial 1 1).
Proof.
  apply (aligned_facet_matches_identity_rotation
           flat_library square square_normal 6 (initial 1 1)).
  - left. reflexivity.
  - reflexivity.
Defined.

End ThroatProps.

(** ** [inhull]: what the grid covers and what the image receives *)

Module InHullFacts.
Import Ndarray Float InHull.
Local Open Scope R_scope.

(** The number of planes a grid position satisfies. *)
Definition passed (tol : R) (planes : list plane) (idx : voxel) : nat :=
  length (filter (fun p => satisfies tol p idx) planes).

Lemma passed_le tol planes idx : (passed tol planes idx <= length planes)%nat.
Proof. unfold passed. apply filter_length_le. Qed.

Lemma passed_all tol planes idx :
  passed tol planes idx = length planes <->
  forallb (fun p => satisfies tol p idx) planes = true.
Proof.
  unfold passed. induction planes as [|p rest IH]; simpl.
  - tauto.
  - pose proof (filter_length_le (fun p => satisfies tol p idx) rest) as Hle.
    destruct (satisfies tol p idx); simpl.
    + rewrite <- IH. lia.
    + split; [lia | discriminate].
Qed.

Lemma counter_from_small tol idx planes : forall c,
  (0 <= c)%Z -> (c + Z.of_nat (length planes) <= 255)%Z ->
  fold_left (fun c p => if satisfies tol p idx then uint8_succ c else c) planes c
  = (c + Z.of_nat (passed tol planes idx))%Z.
Proof.
  unfold passed. induction planes as [|p rest IH]; intros c Hc Hlen; simpl.
  - lia.
  - simpl length in Hlen.
    pose proof (filter_length_le (fun p => satisfies tol p idx) rest) as Hle.
    destruct (satisfies tol p idx); simpl.
    + rewrite IH.
      * unfold uint8_succ. rewrite Z.mod_small by lia. lia.
      * unfold uint8_succ. rewrite Z.mod_small by lia. lia.
      * unfold uint8_succ. rewrite Z.mod_small by lia. lia.
    + apply IH; lia.
Qed.

(** X1.  With at least one and at most 255 facets the counter of a grid
    position is the number of facet planes it satisfies, and [dom] is 1
    exactly at the positions that satisfy every plane and 0 elsewhere. *)
Theorem dom_marks_positions_passing_every_facet tol planes idx :
  (0 < length planes <= 255)%nat ->
  counter tol planes idx = Z.of_nat (passed tol planes idx) /\
  dom tol planes idx
  = if forallb (fun p => satisfies tol p idx) planes then 1%Z else 0%Z.
Proof.
  intros Hn.
  assert (Hc : counter tol planes idx = Z.of_nat (passed tol planes idx)).
  { unfold counter. rewrite counter_from_small; lia. }
  split; [exact Hc|].
  unfold dom. rewrite Hc.
  pose proof (passed_le tol planes idx) as Hle.
  pose proof (passed_all tol planes idx) as Hall.
  destruct (forallb (fun p => satisfies tol p idx) planes).
  - rewrite (proj2 Hall eq_refl).
    rewrite Z.ltb_irrefl, Z.eqb_refl. reflexivity.
  - assert (passed tol planes idx <> length planes)
      by (intros E; apply Hall in E; discriminate).
    destruct (Z.of_nat (passed tol planes idx) <? Z.of_nat (length planes))%Z eqn:E;
      [|apply Z.ltb_ge in E; lia].
    destruct (0 =? Z.of_nat (length planes))%Z eqn:E0; [|reflexivity].
    apply Z.eqb_eq in E0. lia.
Qed.

Lemma dom_marks_positions_passing_every_facet_witness :
  dom tol tetrahedron_planes (1, 1, 1)%nat
  = if forallb (fun p => satisfies tol p (1, 1, 1)%nat) tetrahedron_planes
    then 1%Z else 0%Z.
Proof.
  apply (dom_marks_positions_passing_every_facet tol tetrahedron_planes (1, 1, 1)%nat).
  simpl. lia.
Defined.

Lemma clip_inside len i : (0 <= i <= Z.of_nat len)%Z -> clip len i = Z.to_nat i.
Proof.
  intros H. unfold clip.
  destruct (i <? 0)%Z eqn:E; [apply Z.ltb_lt in E; lia|].
  rewrite Z.min_l by lia. reflexivity.
Qed.

Lemma source_pos_inside len start d pos :
  (0 <= start)%Z -> (start + Z.of_nat d <= Z.of_nat len)%Z ->
  axis_fits len start d = true /\
  source_pos len start d pos
  = if (Z.to_nat start <=? pos)%nat && (pos <? Z.to_nat start + d)%nat
    then Some (pos - Z.to_nat start)%nat else None.
Proof.
  intros H0 H1.
  assert (Hs : slice_start len start = Z.to_nat start)
    by (apply clip_inside; lia).
  assert (Hl : slice_len len start d = d).
  { unfold slice_len. rewrite !clip_inside by lia. lia. }
  split.
  - unfold axis_fits. rewrite Hl, Nat.eqb_refl. reflexivity.
  - unfold source_pos. rewrite Hs, Hl.
    destruct ((Z.to_nat start <=? pos)%nat && (pos <? Z.to_nat start + d)%nat) eqn:E;
      [|reflexivity].
    destruct (d =? 1)%nat eqn:E1; [|reflexivity].
    apply Nat.eqb_eq in E1. apply andb_true_iff in E. destruct E as [Ea Eb].
    apply Nat.leb_le in Ea. apply Nat.ltb_lt in Eb. f_equal. lia.
Qed.

(** Whether a position lies in [start <= pos < start + d] *)
Definition within (start : Z) (d pos : nat) : bool :=
  (Z.to_nat start <=? pos)%nat && (pos <? Z.to_nat start + d)%nat.

(** X2.  When the bounding box of the vertices lies inside the hull image,
    [inhull] raises nothing and the image afterwards holds [pore] at the
    voxels of the box marked by [dom] (read at the position relative to
    the start index) and its former label everywhere else. *)
Theorem inhull_labels_box_inside_image
        ConvexHull_simplices xyz pore tol hull_image g
        sx sy sz dx dy dz lx ly lz :
  prepare ConvexHull_simplices xyz = inr g ->
  si g = (sx, sy, sz) -> ds g = (dx, dy, dz) ->
  shape hull_image = (lx, ly, lz) ->
  (0 <= sx /\ sx + Z.of_nat dx <= Z.of_nat lx)%Z ->
  (0 <= sy /\ sy + Z.of_nat dy <= Z.of_nat ly)%Z ->
  (0 <= sz /\ sz + Z.of_nat dz <= Z.of_nat lz)%Z ->
  let after := inhull ConvexHull_simplices xyz pore tol hull_image in
  snd after = None /\
  forall x y z,
    label (fst after) (x, y, z)
    = if within sx dx x && within sy dy y && within sz dz z
         && negb (dom tol (planes g)
                      (x - Z.to_nat sx, y - Z.to_nat sy, z - Z.to_nat sz)%nat =? 0)%Z
      then pore else label hull_image (x, y, z).
Proof.
  intros Hg Hsi Hds Hshape [Hx0 Hx1] [Hy0 Hy1] [Hz0 Hz1] after. subst after.
  destruct (source_pos_inside lx sx dx 0 Hx0 Hx1) as [Fx _].
  destruct (source_pos_inside ly sy dy 0 Hy0 Hy1) as [Fy _].
  destruct (source_pos_inside lz sz dz 0 Hz0 Hz1) as [Fz _].
  unfold inhull. rewrite Hg.
  assert (Hfits : fits g (shape hull_image) = true).
  { unfold fits. rewrite Hshape, Hsi, Hds, Fx, Fy, Fz. reflexivity. }
  rewrite Hfits. split; [reflexivity|].
  intros x y z. cbn [fst label]. unfold temp_arr.
  rewrite Hshape, Hsi, Hds.
  rewrite (proj2 (source_pos_inside lx sx dx x Hx0 Hx1)).
  rewrite (proj2 (source_pos_inside ly sy dy y Hy0 Hy1)).
  rewrite (proj2 (source_pos_inside lz sz dz z Hz0 Hz1)).
  unfold within.
  destruct ((Z.to_nat sx <=? x)%nat && (x <? Z.to_nat sx + dx)%nat);
    destruct ((Z.to_nat sy <=? y)%nat && (y <? Z.to_nat sy + dy)%nat);
    destruct ((Z.to_nat sz <=? z)%nat && (z <? Z.to_nat sz + dz)%nat);
    reflexivity.
Qed.

Lemma inhull_labels_box_inside_image_witness :
  snd (inhull tetrahedron_hull tetrahedron 7 tol unlabelled) = None.
Proof.
  apply (inhull_labels_box_inside_image
           tetrahedron_hull tetrahedron 7 tol unlabelled _
           0%Z 0%Z 0%Z 6%nat 6%nat 6%nat 6%nat 6%nat 6%nat prepare_tetrahedron);
    try reflexivity; simpl; lia.
Defined.

(** An axis along which the box [start, start + d) does not lie inside
    [0, len): it reaches beyond the upper end or straddles index 0. *)
Definition sticks_out (len : nat) (start : Z) (d : nat) : Prop :=
  (2 <= d)%nat /\
  ((0 <= start /\ Z.of_nat len < start + Z.of_nat d)%Z \/
   (start < 0 /\ 0 <= start + Z.of_nat d)%Z).

Lemma sticks_out_does_not_fit len start d :
  sticks_out len start d -> axis_fits len start d = false.
Proof.
  intros [Hd H]. unfold axis_fits, slice_len, clip.
  assert (E1 : (d =? 1)%nat = false) by (apply Nat.eqb_neq; lia).
  rewrite E1, orb_false_r. apply Nat.eqb_neq.
  destruct H as [[H0 H1]|[H0 H1]].
  - destruct (start <? 0)%Z eqn:E; [apply Z.ltb_lt in E; lia|].
    destruct (start + Z.of_nat d <? 0)%Z eqn:E'; [apply Z.ltb_lt in E'; lia|].
    lia.
  - destruct (start <? 0)%Z eqn:E; [|apply Z.ltb_ge in E; lia].
    destruct (start + Z.of_nat d <? 0)%Z eqn:E'; [apply Z.ltb_lt in E'; lia|].
    lia.
Qed.

(** X3.  When the bounding box, at least two voxels wide along some axis,
    reaches beyond the upper end of the image along that axis, or starts
    at a negative index and ends at a non-negative one, the slice
    assignment raises [ValueError] and the hull image is not written. *)
Theorem inhull_rejects_box_beyond_image
        ConvexHull_simplices xyz pore tol hull_image g
        sx sy sz dx dy dz lx ly lz :
  prepare ConvexHull_simplices xyz = inr g ->
  si g = (sx, sy, sz) -> ds g = (dx, dy, dz) ->
  shape hull_image = (lx, ly, lz) ->
  sticks_out lx sx dx \/ sticks_out ly sy dy \/ sticks_out lz sz dz ->
  inhull ConvexHull_simplices xyz pore tol hull_image
  = (hull_image, Some ValueError).
Proof.
  intros Hg Hsi Hds Hshape H. unfold inhull. rewrite Hg.
  assert (Hfits : fits g (shape hull_image) = false).
  { unfold fits. rewrite Hshape, Hsi, Hds.
    destruct H as [H|[H|H]]; apply sticks_out_does_not_fit in H; rewrite H.
    - reflexivity.
    - apply andb_false_iff. left. apply andb_false_iff. right. reflexivity.
    - apply andb_false_r. }
  rewrite Hfits. reflexivity.
Qed.

Lemma inhull_rejects_box_beyond_image_witness :
  inhull tetrahedron_hull tetrahedron 7 tol (mkImage (5, 6, 6)%nat (fun _ => (-1)%Z))
  = (mkImage (5, 6, 6)%nat (fun _ => (-1)%Z), Some ValueError).
Proof.
  apply (inhull_rejects_box_beyond_image
           tetrahedron_hull tetrahedron 7 tol _ _
           0%Z 0%Z 0%Z 6%nat 6%nat 6%nat 5%nat 6%nat 6%nat prepare_tetrahedron);
    try reflexivity.
  left. unfold sticks_out. simpl. lia.
Defined.

Lemma fold_left_Rmin_init l : forall a, fold_left Rmin l a <= a.
Proof.
  induction l as [|x l IH]; intros a; simpl; [lra|].
  eapply Rle_trans; [apply IH | apply Rmin_l].
Qed.

Lemma fold_left_Rmin_le l : forall a x, In x l -> fold_left Rmin l a <= x.
Proof.
  induction l as [|y l IH]; intros a x H; simpl in *; [contradiction|].
  destruct H as [E|H].
  - subst y. eapply Rle_trans; [apply fold_left_Rmin_init | apply Rmin_r].
  - apply IH, H.
Qed.

Lemma min_of_le l m x : min_of l = Some m -> In x l -> m <= x.
Proof.
  destruct l as [|a l]; [discriminate|]. simpl. intros [= <-] [E|H].
  - subst x. apply fold_left_Rmin_init.
  - apply fold_left_Rmin_le, H.
Qed.

Lemma floor_le x : IZR (floor x) <= x.
Proof. unfold floor. apply base_Int_part. Qed.

Lemma le_ceil x : x <= IZR (ceil x).
Proof.
  unfold ceil. rewrite opp_IZR.
  pose proof (proj1 (base_Int_part (- x))). lra.
Qed.

Lemma floor_le_ceil x y : x <= y -> (floor x <= ceil y)%Z.
Proof.
  intros H. apply le_IZR.
  eapply Rle_trans; [apply floor_le|]. eapply Rle_trans; [exact H | apply le_ceil].
Qed.

(** Along one axis: the start index and the extent computed from the
    least and the largest coordinate enclose every coordinate. *)
Lemma axis_encloses (coords : list R) (lo hi c : R) :
  min_of coords = Some lo -> max_of coords = Some hi -> In c coords ->
  IZR (floor lo) <= c <= IZR (floor lo) + INR (Z.to_nat (ceil hi - floor lo + 1)) - 1.
Proof.
  intros Hlo Hhi Hc.
  pose proof (min_of_le _ _ _ Hlo Hc) as H1.
  pose proof (ThroatProps.max_of_ge _ _ _ Hhi Hc) as H2.
  assert (H3 : (floor lo <= ceil hi)%Z) by (apply floor_le_ceil; lra).
  rewrite INR_IZR_INZ, Z2Nat.id by lia.
  rewrite plus_IZR, minus_IZR.
  pose proof (floor_le lo). pose proof (le_ceil hi). simpl. lra.
Qed.

(** X4.  The grid covers the vertices: along every axis each rounded
    vertex coordinate lies between the start index and the last index of
    the grid. *)
Theorem grid_encloses_the_vertices ConvexHull_simplices xyz g p sx sy sz dx dy dz :
  prepare ConvexHull_simplices xyz = inr g ->
  si g = (sx, sy, sz) -> ds g = (dx, dy, dz) ->
  In p (map (vmap (around 10)) xyz) ->
  IZR sx <= vx p <= IZR sx + INR dx - 1 /\
  IZR sy <= vy p <= IZR sy + INR dy - 1 /\
  IZR sz <= vz p <= IZR sz + INR dz - 1.
Proof.
  unfold prepare. intros Hg Hsi Hds Hp.
  destruct (min_of (map vx _)) as [xmin|] eqn:Exmin; [|discriminate].
  destruct (max_of (map vx _)) as [xmax|] eqn:Exmax; [|discriminate].
  destruct (min_of (map vy _)) as [ymin|] eqn:Eymin; [|discriminate].
  destruct (max_of (map vy _)) as [ymax|] eqn:Eymax; [|discriminate].
  destruct (min_of (map vz _)) as [zmin|] eqn:Ezmin; [|discriminate].
  destruct (max_of (map vz _)) as [zmax|] eqn:Ezmax; [|discriminate].
  cbv zeta in Hg.
  destruct (ConvexHull_simplices _); [|discriminate].
  destruct (planes_of _ _ _); [|discriminate].
  injection Hg as <-. cbn [si ds] in Hsi, Hds.
  injection Hsi as <- <- <-. injection Hds as <- <- <-.
  repeat split;
    first [ apply (axis_encloses _ _ _ _ Exmin Exmax (in_map vx _ _ Hp))
          | apply (axis_encloses _ _ _ _ Eymin Eymax (in_map vy _ _ Hp))
          | apply (axis_encloses _ _ _ _ Ezmin Ezmax (in_map vz _ _ Hp)) ].
Qed.

Lemma grid_encloses_the_vertices_witness :
  IZR 0 <= vx (3/4, 3/4, 3/4) <= IZR 0 + INR 6 - 1 /\
  IZR 0 <= vy (3/4, 3/4, 3/4) <= IZR 0 + INR 6 - 1 /\
  IZR 0 <= vz (3/4, 3/4, 3/4) <= IZR 0 + INR 6 - 1.
Proof.
  apply (grid_encloses_the_vertices
           tetrahedron_hull tetrahedron _ (3/4, 3/4, 3/4)
           0%Z 0%Z 0%Z 6%nat 6%nat 6%nat prepare_tetrahedron);
    try reflexivity.
  rewrite rounded. left. reflexivity.
Defined.

End InHullFacts.

(** ** [_process_pore_voxels] and [_indiameter_from_fibres]: the values
    recorded for a pore *)

From Stdlib Require Import Sorted.

Module HullVolumeFacts.
Import Ndarray HullVolume.
Local Open Scope Q_scope.

(** The count recorded for a key in a frequency table. *)
Fixpoint tally (k : Z) (freq : list (Z * nat)) : nat :=
  match freq with
  | [] => 0
  | (w, n) :: rest => (if Z.eq_dec w k then n else 0) + tally k rest
  end.

(** The voxels of a pore whose fibre-image value is not [flag] *)
Definition voxels_besides (hull fibre : array3 Z) (flag pore : Z) : nat :=
  length (filter (fun lf => (fst lf =? pore)%Z && negb (snd lf =? flag)%Z)
                 (combine (cells hull) (cells fibre))).

Lemma tally_count_in k v freq :
  tally k (count_in v freq) = ((if Z.eq_dec v k then 1 else 0) + tally k freq)%nat.
Proof.
  induction freq as [|[w n] rest IH]; simpl.
  - lia.
  - destruct (v <? w)%Z; [simpl; lia|].
    destruct (v =? w)%Z eqn:E.
    + apply Z.eqb_eq in E. subst w. simpl. destruct (Z.eq_dec v k); lia.
    + simpl. rewrite IH. lia.
Qed.

Lemma tally_fold values k : forall acc,
  tally k (fold_left (fun freq v => count_in v freq) values acc)
  = (count_occ Z.eq_dec values k + tally k acc)%nat.
Proof.
  induction values as [|v rest IH]; intros acc; simpl.
  - reflexivity.
  - rewrite IH, tally_count_in. destruct (Z.eq_dec v k); lia.
Qed.

Lemma tally_itemfreq values k :
  tally k (itemfreq values) = count_occ Z.eq_dec values k.
Proof. unfold itemfreq. rewrite tally_fold. simpl. lia. Qed.

Lemma tally_not_in k freq : ~ In k (map fst freq) -> tally k freq = 0%nat.
Proof.
  induction freq as [|[w n] rest IH]; simpl; intros H; [reflexivity|].
  destruct (Z.eq_dec w k); [tauto|]. apply IH. tauto.
Qed.

Lemma count_in_sorted v freq :
  StronglySorted Z.lt (map fst freq) ->
  StronglySorted Z.lt (map fst (count_in v freq)).
Proof.
  induction freq as [|[w n] rest IH]; simpl; intros H.
  - repeat constructor.
  - inversion H as [|w' keys Hs Hall]; subst.
    destruct (v <? w)%Z eqn:E.
    + apply Z.ltb_lt in E. simpl. constructor; [exact H|].
      constructor; [exact E|].
      eapply Forall_impl; [|exact Hall]. simpl. intros; lia.
    + destruct (v =? w)%Z eqn:E'; simpl.
      * exact H.
      * apply Z.ltb_ge in E. apply Z.eqb_neq in E'.
        constructor; [apply IH, Hs|].
        apply Forall_forall. intros k Hk. apply count_in_keys in Hk.
        destruct Hk as [->|Hk]; [lia|].
        rewrite Forall_forall in Hall. apply Hall, Hk.
Qed.

Lemma itemfreq_sorted values : StronglySorted Z.lt (map fst (itemfreq values)).
Proof.
  unfold itemfreq.
  assert (H : forall acc, StronglySorted Z.lt (map fst acc) ->
                          StronglySorted Z.lt
                            (map fst (fold_left (fun freq v => count_in v freq)
                                                values acc))).
  { induction values as [|v rest IH]; intros acc Hacc; simpl; [exact Hacc|].
    apply IH, count_in_sorted, Hacc. }
  apply H. constructor.
Qed.

Lemma sorted_NoDup keys : StronglySorted Z.lt keys -> NoDup keys.
Proof.
  induction 1 as [|k keys Hs IH Hall]; constructor; [|exact IH].
  intros Hin. rewrite Forall_forall in Hall. specialize (Hall k Hin). lia.
Qed.

Lemma assigned_keys freq k :
  In k (map fst (assigned freq)) <-> In k (map fst freq) /\ (-1 < k)%Z.
Proof.
  unfold assigned. rewrite !in_map_iff. split.
  - intros ([w n] & E & H). apply filter_In in H. destruct H as [H Hpos].
    simpl in *. subst w. apply Z.ltb_lt in Hpos. split; [|exact Hpos].
    exists (k, n). auto.
  - intros (([w n] & E & H) & Hpos). simpl in E. subst w.
    exists (k, n). split; [reflexivity|]. apply filter_In. split; [exact H|].
    simpl. apply Z.ltb_lt. exact Hpos.
Qed.

Lemma assigned_NoDup freq :
  NoDup (map fst freq) -> NoDup (map fst (assigned freq)).
Proof.
  induction freq as [|[w n] rest IH]; simpl; intros H; [constructor|].
  inversion H as [|w' keys Hnot Hrest]; subst.
  destruct (-1 <? w)%Z; simpl; [|apply IH, Hrest].
  constructor; [|apply IH, Hrest].
  intros Hin. apply assigned_keys in Hin. tauto.
Qed.

Lemma tally_assigned k freq :
  (-1 < k)%Z -> tally k (assigned freq) = tally k freq.
Proof.
  intros Hk. induction freq as [|[w n] rest IH]; simpl; [reflexivity|].
  destruct (-1 <? w)%Z eqn:E; simpl.
  - rewrite IH. reflexivity.
  - apply Z.ltb_ge in E. destruct (Z.eq_dec w k); [lia|]. rewrite IH. reflexivity.
Qed.

(** [a[keys] = counts] with distinct keys inside the array: every entry
    named by a key holds the count of the key, the others are as before. *)
Lemma assign_at_tally (entries : list (Z * nat)) : forall a,
  NoDup (map fst entries) ->
  Forall (fun e => (0 <= fst e < Z.of_nat (length a))%Z) entries ->
  exists a',
    assign_at a entries = Ok a' /\ length a' = length a /\
    forall p, (p < length a)%nat ->
      nth_error a' p
      = if in_dec Z.eq_dec (Z.of_nat p) (map fst entries)
        then Some (tally (Z.of_nat p) entries) else nth_error a p.
Proof.
  induction entries as [|[i v] rest IH]; intros a Hnd Hall; simpl.
  - exists a. repeat split; reflexivity.
  - inversion Hnd as [|i' keys Hnot Hrest]; subst.
    inversion Hall as [|e rest' Hi Hall']; subst. simpl in Hi.
    rewrite (normalize_index_nonnegative _ _ Hi).
    destruct (IH (update_nth a (Z.to_nat i) v) Hrest) as (a' & Hrun & Hlen & Hnth).
    { rewrite length_update_nth. exact Hall'. }
    rewrite length_update_nth in Hlen, Hnth.
    exists a'. split; [exact Hrun|]. split; [exact Hlen|].
    intros p Hp. rewrite (Hnth p Hp).
    destruct (Z.eq_dec i (Z.of_nat p)) as [E|E].
    + subst i. rewrite Nat2Z.id.
      destruct (in_dec Z.eq_dec (Z.of_nat p) (map fst rest)); [contradiction|].
      rewrite (tally_not_in _ _ Hnot), Nat.add_0_r.
      apply nth_error_update_nth_same. exact Hp.
    + destruct (in_dec Z.eq_dec (Z.of_nat p) (map fst rest)); [reflexivity|].
      apply nth_error_update_nth_other. lia.
Qed.

Lemma count_occ_mask_out hull fibre flag pore :
  (-1 < pore)%Z ->
  count_occ Z.eq_dec (mask_out hull fibre flag) pore
  = voxels_besides hull fibre flag pore.
Proof.
  intros Hp. unfold mask_out, voxels_besides.
  induction (combine (cells hull) (cells fibre)) as [|[h f] rest IH];
    [reflexivity|].
  cbn [map filter fst snd]. destruct (f =? flag)%Z; cbn [negb].
  - rewrite andb_false_r. rewrite count_occ_cons_neq by lia. exact IH.
  - rewrite andb_true_r. destruct (Z.eq_dec h pore) as [E|E].
    + subst h. rewrite Z.eqb_refl, count_occ_cons_eq by reflexivity.
      cbn [length]. f_equal. exact IH.
    + rewrite count_occ_cons_neq by exact E.
      apply Z.eqb_neq in E. rewrite E. exact IH.
Qed.

Lemma counts_of_space num_pores hull fibre flag :
  Forall (fun l => (-1 <= l < Z.of_nat num_pores)%Z) (cells hull) ->
  exists vox,
    assign_at (repeat 0%nat num_pores)
              (assigned (itemfreq (mask_out hull fibre flag))) = Ok vox /\
    length vox = num_pores /\
    forall p, (p < num_pores)%nat ->
      nth_error vox p = Some (voxels_besides hull fibre flag (Z.of_nat p)).
Proof.
  intros Hlabels.
  destruct (assign_at_tally (assigned (itemfreq (mask_out hull fibre flag)))
                            (repeat 0%nat num_pores))
    as (vox & Hrun & Hlen & Hnth).
  - apply assigned_NoDup, sorted_NoDup, itemfreq_sorted.
  - apply Forall_forall. intros [l n] He. simpl.
    assert (Hk : In l (map fst (assigned (itemfreq (mask_out hull fibre flag)))))
      by (apply in_map_iff; exists (l, n); auto).
    apply assigned_keys in Hk. destruct Hk as [Hk Hpos].
    apply (proj1 (unique_In _ _)) in Hk. apply mask_out_In in Hk.
    rewrite repeat_length. destruct Hk as [Hk|Hk]; [lia|].
    rewrite Forall_forall in Hlabels. specialize (Hlabels l Hk). lia.
  - rewrite repeat_length in Hlen, Hnth.
    exists vox. split; [exact Hrun|]. split; [exact Hlen|].
    intros p Hp. rewrite (Hnth p Hp).
    rewrite <- count_occ_mask_out by lia. rewrite <- tally_itemfreq.
    rewrite <- (tally_assigned (Z.of_nat p) (itemfreq _)) by lia.
    destruct (in_dec Z.eq_dec (Z.of_nat p)
                     (map fst (assigned (itemfreq (mask_out hull fibre flag)))))
      as [Hin|Hout]; [reflexivity|].
    rewrite (tally_not_in _ _ Hout). apply nth_error_repeat. exact Hp.
Qed.

(** X5.  When every label of the hull image is -1 or a pore index,
    [_process_pore_voxels] raises nothing, both arrays have one entry per
    pore, ['pore.pore_voxels'] of a pore is the number of its voxels whose
    fibre-image value is not 0 and ['pore.fibre_voxels'] the number of its
    voxels whose fibre-image value is not 1. *)
Theorem pore_voxels_are_counted num_pores hull fibre p :
  Forall (fun l => (-1 <= l < Z.of_nat num_pores)%Z) (cells hull) ->
  (p < num_pores)%nat ->
  exists fibre_vox pore_vox,
    _process_pore_voxels num_pores hull fibre = Ok (fibre_vox, pore_vox) /\
    length fibre_vox = num_pores /\ length pore_vox = num_pores /\
    nth_error pore_vox p = Some (voxels_besides hull fibre 0 (Z.of_nat p)) /\
    nth_error fibre_vox p = Some (voxels_besides hull fibre 1 (Z.of_nat p)).
Proof.
  intros Hlabels Hp. unfold _process_pore_voxels.
  destruct (counts_of_space num_pores hull fibre 0 Hlabels) as (pv & -> & Hlp & Hp0).
  destruct (counts_of_space num_pores hull fibre 1 Hlabels) as (fv & -> & Hlf & Hp1).
  exists fv, pv. repeat split; auto.
Qed.

Lemma pore_voxels_are_counted_witness :
  exists fibre_vox pore_vox,
    _process_pore_voxels 2 (mkArray 4 1 1 [0; 1; 1; -1]%Z)
                           (mkArray 4 1 1 [1; 0; 1; 1]%Z) = Ok (fibre_vox, pore_vox) /\
    length fibre_vox = 2%nat /\ length pore_vox = 2%nat /\
    nth_error pore_vox 1
    = Some (voxels_besides (mkArray 4 1 1 [0; 1; 1; -1]%Z)
                           (mkArray 4 1 1 [1; 0; 1; 1]%Z) 0 (Z.of_nat 1)) /\
    nth_error fibre_vox 1
    = Some (voxels_besides (mkArray 4 1 1 [0; 1; 1; -1]%Z)
                           (mkArray 4 1 1 [1; 0; 1; 1]%Z) 1 (Z.of_nat 1)).
Proof.
  apply (pore_voxels_are_counted 2 (mkArray 4 1 1 [0; 1; 1; -1]%Z)
                                 (mkArray 4 1 1 [1; 0; 1; 1]%Z) 1).
  - simpl. repeat (apply Forall_cons; [lia|]). apply Forall_nil.
  - lia.
Defined.

(** With a fibre image of zeros and ones of the shape of the hull image,
    the two counts of a pore add up to the voxels of its hull. *)
Lemma voxels_besides_sum (hulls fibres : list Z) pore :
  length fibres = length hulls ->
  Forall (fun f => f = 0 \/ f = 1)%Z fibres ->
  (length (filter (fun lf => (fst lf =? pore)%Z && negb (snd lf =? 0)%Z)
                  (combine hulls fibres))
   + length (filter (fun lf => (fst lf =? pore)%Z && negb (snd lf =? 1)%Z)
                    (combine hulls fibres)))%nat
  = count_occ Z.eq_dec hulls pore.
Proof.
  revert fibres. induction hulls as [|h hulls IH]; intros [|f fibres] Hlen Hbin;
    try discriminate; [reflexivity|].
  inversion Hbin as [|f' fs Hf Hrest]; subst.
  injection Hlen as Hlen. specialize (IH fibres Hlen Hrest).
  cbn [combine filter fst snd].
  destruct (Z.eq_dec h pore) as [E|E].
  - subst h. rewrite Z.eqb_refl, count_occ_cons_eq by reflexivity.
    destruct Hf as [->| ->]; simpl; simpl in IH; lia.
  - rewrite count_occ_cons_neq by exact E.
    apply Z.eqb_neq in E. rewrite E. cbn [andb]. exact IH.
Qed.

(** X6.  With a fibre image of zeros and ones of the size of the hull
    image, the fibre voxels and the pore voxels of a pore add up to the
    voxels of the hull image labelled with the pore. *)
Theorem pore_and_fibre_voxels_add_up num_pores hull fibre p :
  Forall (fun l => (-1 <= l < Z.of_nat num_pores)%Z) (cells hull) ->
  length (cells fibre) = length (cells hull) ->
  Forall (fun f => f = 0 \/ f = 1)%Z (cells fibre) ->
  (p < num_pores)%nat ->
  exists fibre_vox pore_vox n_fibre n_pore,
    _process_pore_voxels num_pores hull fibre = Ok (fibre_vox, pore_vox) /\
    nth_error fibre_vox p = Some n_fibre /\
    nth_error pore_vox p = Some n_pore /\
    (n_fibre + n_pore)%nat = voxels_of_pore hull (Z.of_nat p).
Proof.
  intros Hlabels Hlen Hbin Hp.
  unfold _process_pore_voxels.
  destruct (counts_of_space num_pores hull fibre 0 Hlabels) as (pv & -> & _ & Hpv).
  destruct (counts_of_space num_pores hull fibre 1 Hlabels) as (fv & -> & _ & Hfv).
  exists fv, pv. do 2 eexists. repeat split; eauto.
  unfold voxels_besides, voxels_of_pore.
  rewrite Nat.add_comm. apply voxels_besides_sum; assumption.
Qed.

Lemma pore_and_fibre_voxels_add_up_witness :
  exists fibre_vox pore_vox n_fibre n_pore,
    _process_pore_voxels 2 (mkArray 4 1 1 [0; 1; 1; -1]%Z)
                           (mkArray 4 1 1 [1; 0; 1; 1]%Z) = Ok (fibre_vox, pore_vox) /\
    nth_error fibre_vox 1 = Some n_fibre /\
    nth_error pore_vox 1 = Some n_pore /\
    (n_fibre + n_pore)%nat
    = voxels_of_pore (mkArray 4 1 1 [0; 1; 1; -1]%Z) (Z.of_nat 1).
Proof.
  apply (pore_and_fibre_voxels_add_up 2 (mkArray 4 1 1 [0; 1; 1; -1]%Z)
                                      (mkArray 4 1 1 [1; 0; 1; 1]%Z) 1).
  - simpl. repeat (apply Forall_cons; [lia|]). apply Forall_nil.
  - reflexivity.
  - simpl. repeat (apply Forall_cons; [lia|]). apply Forall_nil.
  - lia.
Defined.

(** *** Labels beyond the arrays *)

Lemma normalize_index_beyond n i : (Z.of_nat n <= i)%Z -> normalize_index n i = None.
Proof.
  intros H. unfold normalize_index.
  destruct (i <? Z.of_nat n)%Z eqn:E; [apply Z.ltb_lt in E; lia|].
  rewrite andb_false_r.
  destruct (i <? 0)%Z eqn:E'; [apply Z.ltb_lt in E'; lia|].
  rewrite andb_false_r. reflexivity.
Qed.

Lemma assign_at_out_of_range {A} (entries : list (Z * A)) : forall a e,
  In e entries -> normalize_index (length a) (fst e) = None ->
  assign_at a entries = IndexError.
Proof.
  induction entries as [|[i v] rest IH]; intros a e Hin Hnone; [contradiction|].
  simpl. destruct Hin as [<-|Hin].
  - simpl in Hnone. rewrite Hnone. reflexivity.
  - destruct (normalize_index (length a) i); [|reflexivity].
    apply (IH _ e Hin). rewrite length_update_nth. exact Hnone.
Qed.

Lemma each_hull_pore_out_of_range hull dt l : forall labels indiam incen,
  In l labels -> normalize_index (length indiam) l = None ->
  each_hull_pore hull dt labels indiam incen = IndexError.
Proof.
  induction labels as [|l' rest IH]; intros indiam incen Hin Hnone; [contradiction|].
  simpl. destruct (max_and_argmax (dt_pore hull dt l')) as [m max_ind].
  destruct Hin as [->|Hin].
  - rewrite Hnone. reflexivity.
  - destruct (normalize_index (length indiam) l'); [|reflexivity].
    destruct (normalize_index (length incen) l'); [|reflexivity].
    apply IH; [exact Hin|]. rewrite length_update_nth. exact Hnone.
Qed.

Lemma in_combine_exists (ls fs : list Z) l :
  length fs = length ls -> In l ls -> exists f, In (l, f) (combine ls fs).
Proof.
  revert fs. induction ls as [|h ls IH]; intros [|f fs] Hlen Hin;
    simpl in *; try discriminate; try contradiction.
  destruct Hin as [->|Hin].
  - exists f. left. reflexivity.
  - injection Hlen as Hlen. destruct (IH fs Hlen Hin) as [f' Hf']. exists f'. right. exact Hf'.
Qed.

Lemma assigned_entry_of_label hull fibre flag l f :
  In (l, f) (combine (cells hull) (cells fibre)) -> f <> flag -> (-1 < l)%Z ->
  exists n, In (l, n) (assigned (itemfreq (mask_out hull fibre flag))).
Proof.
  intros Hin Hf Hl.
  assert (Hk : In l (map fst (assigned (itemfreq (mask_out hull fibre flag))))).
  { apply assigned_keys. split; [|exact Hl].
    apply (proj2 (unique_In _ _)). unfold mask_out. apply in_map_iff.
    exists (l, f). split; [|exact Hin]. simpl.
    apply Z.eqb_neq in Hf. rewrite Hf. reflexivity. }
  apply in_map_iff in Hk. destruct Hk as ([l' n] & E & Hk). simpl in E. subst l'.
  exists n. exact Hk.
Qed.

(** X7.  A label in the hull image that is not below the number of pores
    makes both [_process_pore_voxels] and [_indiameter_from_fibres] raise
    [IndexError]. *)
Theorem label_beyond_the_pores_raises num_pores hull fibre dt vox_len l :
  In l (cells hull) -> (Z.of_nat num_pores <= l)%Z ->
  length (cells fibre) = length (cells hull) ->
  _process_pore_voxels num_pores hull fibre = IndexError /\
  _indiameter_from_fibres num_pores hull dt vox_len = IndexError.
Proof.
  intros Hin Hl Hlen. split.
  - destruct (in_combine_exists _ _ _ Hlen Hin) as [f Hf].
    assert (Hnone : normalize_index (length (repeat 0%nat num_pores)) l = None)
      by (rewrite repeat_length; apply normalize_index_beyond, Hl).
    unfold _process_pore_voxels.
    destruct (Z.eq_dec f 0) as [E|E].
    + destruct (assigned_entry_of_label hull fibre 1 l f Hf) as [n Hn]; [lia|lia|].
      destruct (assign_at (repeat 0%nat num_pores)
                          (assigned (itemfreq (mask_out hull fibre 0))));
        [|reflexivity].
      rewrite (assign_at_out_of_range _ _ (l, n) Hn Hnone). reflexivity.
    + destruct (assigned_entry_of_label hull fibre 0 l f Hf) as [n Hn]; [exact E|lia|].
      rewrite (assign_at_out_of_range _ _ (l, n) Hn Hnone). reflexivity.
  - unfold _indiameter_from_fibres.
    rewrite (each_hull_pore_out_of_range hull dt l); [reflexivity| |].
    + apply unique_In, Hin.
    + rewrite repeat_length. apply normalize_index_beyond, Hl.
Qed.

Lemma label_beyond_the_pores_raises_witness :
  _process_pore_voxels 2 (mkArray 3 1 1 [0; 2; 1]%Z) (mkArray 3 1 1 [1; 1; 0]%Z)
  = IndexError /\
  _indiameter_from_fibres 2 (mkArray 3 1 1 [0; 2; 1]%Z) (mkArray 3 1 1 [1; 3; 0]) 1
  = IndexError.
Proof.
  apply (label_beyond_the_pores_raises 2 (mkArray 3 1 1 [0; 2; 1]%Z)
                                       (mkArray 3 1 1 [1; 1; 0]%Z)
                                       (mkArray 3 1 1 [1; 3; 0]) 1 2%Z).
  - simpl. auto.
  - simpl. lia.
  - reflexivity.
Defined.

(** *** The in-diameter of a pore with voxels *)

Lemma max_from_spec l : forall best pos i m k,
  max_from best pos i l = (m, k) ->
  best <= m /\ (forall x, In x l -> x <= m) /\
  ((m = best /\ k = pos) \/ exists j, nth_error l j = Some m /\ k = (i + j)%nat).
Proof.
  induction l as [|v rest IH]; intros best pos i m k H; simpl in H.
  - injection H as <- <-. split; [apply Qle_refl|]. split; [contradiction|].
    left. split; reflexivity.
  - destruct (Qle_bool v best) eqn:E.
    + apply Qle_bool_iff in E.
      destruct (IH _ _ _ _ _ H) as (Hb & Hall & Hpos).
      split; [exact Hb|]. split.
      * intros x [<-|Hx]; [eapply Qle_trans; eauto | apply Hall, Hx].
      * destruct Hpos as [Hpos|(j & Hj & ->)]; [left; exact Hpos|].
        right. exists (S j). split; [exact Hj | lia].
    + assert (Hlt : best < v).
      { apply Qnot_le_lt. intros Hle. apply Qle_bool_iff in Hle. congruence. }
      destruct (IH _ _ _ _ _ H) as (Hb & Hall & Hpos).
      split; [eapply Qle_trans; [apply Qlt_le_weak, Hlt | exact Hb]|]. split.
      * intros x [<-|Hx]; [exact Hb | apply Hall, Hx].
      * right. destruct Hpos as [[-> ->]|(j & Hj & ->)].
        -- exists 0%nat. split; [reflexivity | lia].
        -- exists (S j). split; [exact Hj | lia].
Qed.

(** [max] is an entry of the array that no entry exceeds, and [argmax] is
    a position holding it. *)
Lemma max_and_argmax_spec l m k :
  l <> [] -> max_and_argmax l = (m, k) ->
  nth_error l k = Some m /\ forall x, In x l -> x <= m.
Proof.
  destruct l as [|v rest]; [congruence|]. intros _ H. simpl in H.
  destruct (max_from_spec _ _ _ _ _ _ H) as (Hb & Hall & Hpos). split.
  - destruct Hpos as [[-> ->]|(j & Hj & ->)]; [reflexivity | exact Hj].
  - intros x [<-|Hx]; [exact Hb | apply Hall, Hx].
Qed.

(** The label whose pass through the loop is the last to write entry [p]
    of an array of length [n] *)
Fixpoint last_writer (n p : nat) (labels : list Z) : option Z :=
  match labels with
  | [] => None
  | l :: rest =>
    match last_writer n p rest with
    | Some l' => Some l'
    | None =>
      match normalize_index n l with
      | Some k => if (k =? p)%nat then Some l else None
      | None => None
      end
    end
  end.

Lemma last_writer_In n p labels l :
  last_writer n p labels = Some l -> In l labels /\ normalize_index n l = Some p.
Proof.
  induction labels as [|l' rest IH]; simpl; [discriminate|].
  destruct (last_writer n p rest) as [l''|].
  - intros [= ->]. destruct (IH eq_refl). auto.
  - destruct (normalize_index n l') as [k|] eqn:E; [|discriminate].
    destruct (k =? p)%nat eqn:Ek; [|discriminate].
    apply Nat.eqb_eq in Ek. subst k. intros [= ->]. auto.
Qed.

Lemma last_writer_sorted n p labels :
  StronglySorted Z.lt labels ->
  Forall (fun l => (-1 <= l < Z.of_nat n)%Z) labels ->
  In (Z.of_nat p) labels ->
  last_writer n p labels = Some (Z.of_nat p).
Proof.
  induction 1 as [|l rest Hs IH Hgt]; intros Hall Hin; [contradiction|].
  inversion Hall as [|l' rest' Hl Hrest]; subst. simpl.
  destruct (last_writer n p rest) as [l'|] eqn:E.
  - destruct Hin as [->|Hin].
    + apply last_writer_In in E. destruct E as [Hin' Hnorm].
      rewrite Forall_forall in Hgt, Hrest.
      specialize (Hgt l' Hin'). specialize (Hrest l' Hin').
      rewrite normalize_index_nonnegative in Hnorm by lia.
      injection Hnorm as Hnorm. lia.
    + exact (IH Hrest Hin).
  - destruct Hin as [->|Hin].
    + rewrite normalize_index_nonnegative by lia.
      rewrite Nat2Z.id, Nat.eqb_refl. reflexivity.
    + discriminate (IH Hrest Hin).
Qed.

Lemma each_hull_pore_last hull dt p : forall labels indiam incen,
  length indiam = length incen ->
  Forall (fun l => normalize_index (length indiam) l <> None) labels ->
  exists indiam' incen',
    each_hull_pore hull dt labels indiam incen = Ok (indiam', incen') /\
    nth_error indiam' p
    = match last_writer (length indiam) p labels with
      | Some l => Some (fst (max_and_argmax (dt_pore hull dt l)) * 2)
      | None => nth_error indiam p
      end /\
    nth_error incen' p
    = match last_writer (length indiam) p labels with
      | Some l => Some (unravel hull (snd (max_and_argmax (dt_pore hull dt l))))
      | None => nth_error incen p
      end.
Proof.
  induction labels as [|l rest IH]; intros indiam incen Hlen Hall.
  - do 2 eexists. repeat split; reflexivity.
  - inversion Hall as [|l' rest' Hl Hrest]; subst.
    destruct (normalize_index (length indiam) l) as [k|] eqn:Hk; [|congruence].
    cbn [each_hull_pore last_writer].
    destruct (max_and_argmax (dt_pore hull dt l)) as [m max_ind] eqn:Em.
    rewrite <- Hlen, Hk.
    destruct (IH (update_nth indiam k (m * 2))
                 (update_nth incen k (unravel hull max_ind)))
      as (indiam' & incen' & Hrun & Hdiam & Hcen).
    + rewrite !length_update_nth. exact Hlen.
    + rewrite length_update_nth. exact Hrest.
    + rewrite length_update_nth in Hdiam, Hcen.
      exists indiam', incen'. split; [exact Hrun|].
      rewrite Hdiam, Hcen.
      destruct (last_writer (length indiam) p rest) as [l'|]; [split; reflexivity|].
      destruct (k =? p)%nat eqn:Ek.
      * apply Nat.eqb_eq in Ek. subst k.
        pose proof (normalize_index_in_range _ _ _ Hk) as Hp.
        rewrite Em. cbn [fst snd].
        rewrite !nth_error_update_nth_same by (rewrite <- ?Hlen; exact Hp).
        split; reflexivity.
      * apply Nat.eqb_neq in Ek.
        rewrite !nth_error_update_nth_other by exact Ek. split; reflexivity.
Qed.

Lemma nth_error_combine {A B} (la : list A) (lb : list B) k a b :
  nth_error (combine la lb) k = Some (a, b) <->
  nth_error la k = Some a /\ nth_error lb k = Some b.
Proof.
  revert lb k. induction la as [|x la IH]; intros [|y lb] [|k]; simpl;
    try (split; [discriminate | intros [? ?]; discriminate]).
  - split; [intros [= -> ->]; auto | intros [[= ->] [= ->]]; reflexivity].
  - apply IH.
Qed.

Lemma nth_error_same_length {A B} (la : list A) (lb : list B) k b :
  length la = length lb -> nth_error lb k = Some b ->
  exists a, nth_error la k = Some a.
Proof.
  intros Hlen Hb.
  assert (Hk : (k < length la)%nat).
  { rewrite Hlen. apply nth_error_Some. congruence. }
  destruct (nth_error la k) as [a|] eqn:E; [eauto|].
  apply nth_error_None in E. lia.
Qed.

(** The in-centre recorded for a pore *)
Definition incentre_of (r : result (list Q * list (Q * Q * Q))) (pore : nat)
  : option (Q * Q * Q) :=
  match r with
  | Ok (_, incen) => nth_error incen pore
  | IndexError => None
  end.

(** The position of a voxel in units of length *)
Definition position_of (hull : array3 Z) (vox_len : Q) (k : nat) : Q * Q * Q :=
  let c := unravel hull k in
  (fst (fst c) * vox_len, snd (fst c) * vox_len, snd c * vox_len).

(** X8.  A pore with a voxel, in an image whose labels are -1 or pore
    indices and whose distances on the voxels of the pore are not
    negative: its in-diameter is twice the largest distance found on its
    voxels, times the voxel length (whatever was written for the label -1
    before); and when that distance is positive the in-centre is the
    position of a voxel of the pore holding it. *)
Theorem indiameter_is_twice_the_largest_distance num_pores hull dt vox_len p :
  Forall (fun l => (-1 <= l < Z.of_nat num_pores)%Z) (cells hull) ->
  (p < num_pores)%nat ->
  length (cells dt) = length (cells hull) ->
  In (Z.of_nat p) (cells hull) ->
  (forall k d, nth_error (cells hull) k = Some (Z.of_nat p) ->
               nth_error (cells dt) k = Some d -> 0 <= d) ->
  let r := _indiameter_from_fibres num_pores hull dt vox_len in
  exists k d dmax,
    nth_error (cells hull) k = Some (Z.of_nat p) /\
    nth_error (cells dt) k = Some d /\
    (forall k' d', nth_error (cells hull) k' = Some (Z.of_nat p) ->
                   nth_error (cells dt) k' = Some d' -> d' <= d) /\
    indiameter_of r p = Some dmax /\ dmax == 2 * d * vox_len /\
    (0 < d -> incentre_of r p = Some (position_of hull vox_len k)).
Proof.
  intros Hlabels Hp Hlen Hin Hpos r. subst r.
  (* the loop ends with the values written for label [p] *)
  assert (Hnorm : Forall (fun l => normalize_index (length (repeat 0 num_pores)) l <> None)
                         (unique (cells hull))).
  { apply Forall_forall. intros l Hl. apply (proj1 (unique_In _ _)) in Hl.
    rewrite Forall_forall in Hlabels. specialize (Hlabels l Hl).
    rewrite repeat_length. destruct (Z.eq_dec l (-1)) as [->|Hneg].
    - rewrite normalize_index_negative by lia. discriminate.
    - rewrite normalize_index_nonnegative by lia. discriminate. }
  destruct (each_hull_pore_last hull dt p (unique (cells hull))
              (repeat 0 num_pores) (repeat (0, 0, 0) num_pores))
    as (indiam & incen & Hrun & Hdiam & Hcen);
    [rewrite !repeat_length; reflexivity | exact Hnorm |].
  rewrite repeat_length in Hdiam, Hcen.
  assert (Hlast : last_writer num_pores p (unique (cells hull)) = Some (Z.of_nat p)).
  { apply last_writer_sorted.
    - apply itemfreq_sorted.
    - apply Forall_forall. intros l Hl. apply (proj1 (unique_In _ _)) in Hl.
      rewrite Forall_forall in Hlabels. apply Hlabels, Hl.
    - apply unique_In, Hin. }
  rewrite Hlast in Hdiam, Hcen.
  unfold _indiameter_from_fibres. rewrite Hrun. cbn [indiameter_of incentre_of].
  rewrite !nth_error_map, Hdiam, Hcen. cbn [option_map fst snd].
  (* the largest entry of [dt_pore] *)
  destruct (In_nth_error _ _ Hin) as [kp Hkp].
  destruct (nth_error_same_length (cells dt) _ _ _ Hlen Hkp) as [dp Hdp].
  set (g := fun dl : Q * Z => if (snd dl =? Z.of_nat p)%Z then fst dl * 1 else fst dl * 0).
  assert (Hentry : forall k' d', nth_error (cells hull) k' = Some (Z.of_nat p) ->
                                 nth_error (cells dt) k' = Some d' ->
                                 In (d' * 1) (dt_pore hull dt (Z.of_nat p))).
  { intros k' d' Hh Hd. unfold dt_pore. apply in_map_iff. exists (d', Z.of_nat p).
    cbn [fst snd]. rewrite Z.eqb_refl. split; [reflexivity|].
    eapply nth_error_In. apply nth_error_combine. split; eassumption. }
  destruct (max_and_argmax (dt_pore hull dt (Z.of_nat p))) as [m k] eqn:Em.
  destruct (max_and_argmax_spec _ _ _ (fun E => in_nil (eq_ind _ (fun l => In _ l)
                                                   (Hentry kp dp Hkp Hdp) _ E)) Em)
    as [Hk Hmax].
  unfold dt_pore in Hk. rewrite nth_error_map in Hk.
  destruct (nth_error (combine (cells dt) (cells hull)) k) as [[d0 l0]|] eqn:Ek;
    [|discriminate].
  cbn [option_map fst snd] in Hk. injection Hk as Hm.
  apply nth_error_combine in Ek. destruct Ek as [Hd0 Hl0].
  cbn [fst snd].
  destruct (l0 =? Z.of_nat p)%Z eqn:El.
  - apply Z.eqb_eq in El. subst l0.
    exists k, d0. eexists. repeat split; try eassumption; try reflexivity.
    + intros k' d' Hh Hd. specialize (Hmax _ (Hentry k' d' Hh Hd)).
      rewrite <- Hm in Hmax. rewrite !Qmult_1_r in Hmax. exact Hmax.
    + rewrite <- Hm. ring.
  - assert (Hzero : forall k' d', nth_error (cells hull) k' = Some (Z.of_nat p) ->
                                  nth_error (cells dt) k' = Some d' -> d' == 0).
    { intros k' d' Hh Hd. apply Qle_antisym; [|apply (Hpos k' d' Hh Hd)].
      specialize (Hmax _ (Hentry k' d' Hh Hd)).
      rewrite <- Hm in Hmax. rewrite Qmult_1_r, Qmult_0_r in Hmax. exact Hmax. }
    exists kp, dp. eexists. repeat split; try eassumption; try reflexivity.
    + intros k' d' Hh Hd.
      rewrite (Hzero k' d' Hh Hd), (Hzero kp dp Hkp Hdp). apply Qle_refl.
    + rewrite <- Hm, (Hzero kp dp Hkp Hdp). ring.
    + intros Hlt. rewrite (Hzero kp dp Hkp Hdp) in Hlt.
      exfalso. exact (Qlt_irrefl 0 Hlt).
Qed.

Lemma indiameter_is_twice_the_largest_distance_witness :
  let hull := mkArray 4 1 1 [0; 1; 1; -1]%Z in
  let dt := mkArray 4 1 1 [1; 2; 3; 5] in
  let r := _indiameter_from_fibres 2 hull dt 1 in
  exists k d dmax,
    nth_error (cells hull) k = Some (Z.of_nat 1) /\
    nth_error (cells dt) k = Some d /\
    (forall k' d', nth_error (cells hull) k' = Some (Z.of_nat 1) ->
                   nth_error (cells dt) k' = Some d' -> d' <= d) /\
    indiameter_of r 1 = Some dmax /\ dmax == 2 * d * 1 /\
    (0 < d -> incentre_of r 1 = Some (position_of hull 1 k)).
Proof.
  intros hull dt.
  apply (indiameter_is_twice_the_largest_distance 2 hull dt 1 1).
  - simpl. repeat (apply Forall_cons; [lia|]). apply Forall_nil.
  - lia.
  - reflexivity.
  - simpl. auto.
  - intros k d Hh Hd.
    do 4 (destruct k as [|k];
          [simpl in Hh, Hd; try discriminate; injection Hd as <-; discriminate|]).
    destruct k; discriminate.
Defined.

Lemma indiameter_of_pore_without_voxels_witness :
  exists d,
    indiameter_of (_indiameter_from_fibres 3 (mkArray 3 1 1 [0; 2; -1]%Z)
                                           (mkArray 3 1 1 [1; 2; 3]) 1) 1 = Some d /\
    d == 0.
Proof.
  apply (indiameter_of_pore_without_voxels 3 (mkArray 3 1 1 [0; 2; -1]%Z)
                                           (mkArray 3 1 1 [1; 2; 3]) 1 1).
  - simpl. repeat (apply Forall_cons; [lia|]). apply Forall_nil.
  - lia.
  - reflexivity.
  - left. lia.
Defined.

End HullVolumeFacts.

(** ** [_get_fibre_image]: the rasterisation and the single pass *)

Module FibreImageFacts.
Import Ndarray FibreImage.

Definition voxel_eqb (p q : voxel) : bool :=
  let '(a, b, c) := p in
  let '(d, e, f) := q in
  (a =? d)%nat && (b =? e)%nat && (c =? f)%nat.

(** The cell that [pore_space[x][y][z]] selects in a grid of shape
    [(lx, ly, lz)], if numpy accepts the three indices. *)
Definition selects (lx ly lz : nat) (p : Z * Z * Z) : option voxel :=
  let '(x, y, z) := p in
  match normalize_index lx x, normalize_index ly y, normalize_index lz z with
  | Some x', Some y', Some z' => Some (x', y', z')
  | _, _, _ => None
  end.

(** The cells selected by the line points, and the number of points that
    select none. *)
Fixpoint seeds (lx ly lz : nat) (line_ints : list (Z * Z * Z)) : list voxel :=
  match line_ints with
  | [] => []
  | p :: rest =>
    match selects lx ly lz p with
    | Some v => v :: seeds lx ly lz rest
    | None => seeds lx ly lz rest
    end
  end.

Fixpoint rejected (lx ly lz : nat) (line_ints : list (Z * Z * Z)) : nat :=
  match line_ints with
  | [] => 0
  | p :: rest =>
    match selects lx ly lz p with
    | Some _ => rejected lx ly lz rest
    | None => S (rejected lx ly lz rest)
    end
  end.

(** The voxels of the distance image, when the call returned one. *)
Definition distance_voxel (r : list event * result (array3 Z * array3 distance))
           (v : voxel) : option distance :=
  match snd r with
  | Ok (_, d) => lookup d v
  | Raise _ => None
  end.

Lemma voxel_eqb_eq p q : voxel_eqb p q = true <-> p = q.
Proof.
  destruct p as [[a b] c], q as [[d e] f]. unfold voxel_eqb.
  rewrite !andb_true_iff, !Nat.eqb_eq. split.
  - intros [[-> ->] ->]. reflexivity.
  - intros [= -> -> ->]. auto.
Qed.

Lemma voxel_eqb_refl p : voxel_eqb p p = true.
Proof. apply voxel_eqb_eq. reflexivity. Qed.

Lemma existsb_voxel_eqb v vs : existsb (voxel_eqb v) vs = true <-> In v vs.
Proof.
  rewrite existsb_exists. split.
  - intros (q & Hq & E). apply voxel_eqb_eq in E. subst q. exact Hq.
  - intros H. exists v. split; [exact H | apply voxel_eqb_refl].
Qed.

(** *** Cells of an array *)

Lemma offset_inj {A} (a : array3 A) p q :
  in_range a p = true -> in_range a q = true ->
  offset a p = offset a q -> p = q.
Proof.
  destruct p as [[x y] z], q as [[x' y'] z']. unfold in_range, offset.
  rewrite !andb_true_iff, !Nat.ltb_lt. intros [[Hx Hy] Hz] [[Hx' Hy'] Hz'] E.
  destruct (Nat.div_mod_unique (dim_z a) (x * dim_y a + y) (x' * dim_y a + y') z z'
                               Hz Hz') as [E1 E2]; [lia|].
  destruct (Nat.div_mod_unique (dim_y a) x x' y y' Hy Hy') as [E3 E4]; [lia|].
  subst. reflexivity.
Qed.

Lemma in_range_store {A} (a : array3 A) p v q :
  in_range (store a p v) q = in_range a q.
Proof. unfold store. destruct (in_range a p); reflexivity. Qed.

Lemma store_well_formed {A} (a : array3 A) p v :
  well_formed a -> well_formed (store a p v).
Proof.
  unfold store, well_formed. destruct (in_range a p); [|auto].
  simpl. rewrite length_update_nth. auto.
Qed.

Lemma store_dims {A} (a : array3 A) p v :
  dim_x (store a p v) = dim_x a /\ dim_y (store a p v) = dim_y a /\
  dim_z (store a p v) = dim_z a.
Proof. unfold store. destruct (in_range a p); auto. Qed.

Lemma lookup_store_other {A} (a : array3 A) p v q :
  p <> q -> lookup (store a p v) q = lookup a q.
Proof.
  intros Hne. unfold lookup. rewrite in_range_store.
  destruct (in_range a q) eqn:Hq; [|reflexivity].
  unfold store. destruct (in_range a p) eqn:Hp; [|reflexivity].
  destruct p as [[x y] z], q as [[x' y'] z']. simpl.
  apply nth_error_update_nth_other. intros E.
  apply Hne. apply (offset_inj a _ _ Hp Hq). exact E.
Qed.

Lemma lookup_store_at {A} (a : array3 A) p v q :
  well_formed a -> in_range a p = true ->
  lookup (store a p v) q = if voxel_eqb q p then Some v else lookup a q.
Proof.
  intros Hwf Hp. destruct (voxel_eqb q p) eqn:E.
  - apply voxel_eqb_eq in E. subst q. apply lookup_store; assumption.
  - apply lookup_store_other. intros ->. rewrite voxel_eqb_refl in E. discriminate.
Qed.

Lemma lookup_full {A} lx ly lz (c : A) v :
  lookup (full lx ly lz c) v
  = if in_range (full lx ly lz c) v then Some c else None.
Proof.
  unfold lookup. destruct (in_range (full lx ly lz c) v) eqn:E; [|reflexivity].
  pose proof (offset_in_cells _ _ (full_well_formed lx ly lz c) E) as Hlt.
  unfold full in *. simpl in *. rewrite repeat_length in Hlt.
  apply nth_error_repeat. exact Hlt.
Qed.

Lemma In_span lo hi i : In i (span lo hi) <-> (lo <= i < hi)%nat.
Proof. unfold span. rewrite in_seq. lia. Qed.

Lemma In_voxels b x y z :
  In (x, y, z) (voxels b) <->
  (x_lo b <= x < x_hi b)%nat /\ (y_lo b <= y < y_hi b)%nat /\
  (z_lo b <= z < z_hi b)%nat.
Proof.
  unfold voxels. rewrite in_flat_map. split.
  - intros (x' & Hx & H). apply in_flat_map in H. destruct H as (y' & Hy & H).
    apply in_map_iff in H. destruct H as (z' & [= -> -> ->] & Hz).
    apply In_span in Hx, Hy, Hz. auto.
  - intros (Hx & Hy & Hz). exists x. split; [apply In_span, Hx|].
    apply in_flat_map. exists y. split; [apply In_span, Hy|].
    apply in_map_iff. exists z. split; [reflexivity | apply In_span, Hz].
Qed.

(** [a[b][mask] = value] writes the masked voxels of the box and nothing
    else. *)
Lemma assign_over {A} (mask : voxel -> bool) (value : voxel -> A) vs : forall a v,
  well_formed a -> Forall (fun q => in_range a q = true) vs ->
  let a' := fold_left (fun a q => if mask q then store a q (value q) else a) vs a in
  well_formed a' /\
  (forall q, in_range a' q = in_range a q) /\
  lookup a' v = if existsb (voxel_eqb v) vs && mask v then Some (value v)
                else lookup a v.
Proof.
  induction vs as [|q rest IH]; intros a v Hwf Hall; cbn [fold_left existsb].
  - cbn [andb]. auto.
  - inversion Hall as [|q' rest' Hq Hrest]; subst.
    set (a1 := if mask q then store a q (value q) else a).
    assert (Hwf1 : well_formed a1)
      by (subst a1; destruct (mask q); [apply store_well_formed|]; exact Hwf).
    assert (Hr1 : forall p, in_range a1 p = in_range a p)
      by (intros p; subst a1; destruct (mask q); [apply in_range_store | reflexivity]).
    destruct (IH a1 v Hwf1) as (Hwf' & Hr' & Hl').
    { eapply Forall_impl; [|exact Hrest]. simpl. intros p Hp. rewrite Hr1. exact Hp. }
    split; [exact Hwf'|]. split; [intros p; rewrite Hr'; apply Hr1|].
    rewrite Hl'.
    destruct (existsb (voxel_eqb v) rest && mask v) eqn:E.
    + apply andb_true_iff in E. destruct E as [E1 E2].
      rewrite E1, E2, orb_true_r. reflexivity.
    + subst a1. destruct (voxel_eqb v q) eqn:Ev.
      * apply voxel_eqb_eq in Ev. subst q. cbn [orb].
        destruct (mask v); [|reflexivity].
        rewrite lookup_store by assumption. reflexivity.
      * cbn [orb]. rewrite E. destruct (mask q); [|reflexivity].
        apply lookup_store_other. intros ->. rewrite voxel_eqb_refl in Ev. discriminate.
Qed.

(** *** The rasterisation *)

Lemma rasterize_point_selects ps p log :
  rasterize_point ps p log
  = match selects (dim_x ps) (dim_y ps) (dim_z ps) p with
    | Some v => (log, Ok (store ps v 0%Z))
    | None => (log ++ [Warning_out_of_bounds], Ok ps)
    end.
Proof.
  destruct p as [[x y] z]. unfold rasterize_point, selects.
  destruct (normalize_index (dim_x ps) x); [|reflexivity].
  destruct (normalize_index (dim_y ps) y); [|reflexivity].
  destruct (normalize_index (dim_z ps) z); reflexivity.
Qed.

Lemma selects_in_range {A} (a : array3 A) p v :
  selects (dim_x a) (dim_y a) (dim_z a) p = Some v -> in_range a v = true.
Proof.
  destruct p as [[x y] z]. unfold selects.
  destruct (normalize_index (dim_x a) x) as [x'|] eqn:Hx; [|discriminate].
  destruct (normalize_index (dim_y a) y) as [y'|] eqn:Hy; [|discriminate].
  destruct (normalize_index (dim_z a) z) as [z'|] eqn:Hz; [|discriminate].
  intros [= <-]. apply normalize_index_in_range in Hx, Hy, Hz.
  unfold in_range. rewrite !andb_true_iff, !Nat.ltb_lt. auto.
Qed.

Lemma seeds_in_range {A} (a : array3 A) pts :
  Forall (fun q => in_range a q = true) (seeds (dim_x a) (dim_y a) (dim_z a) pts).
Proof.
  induction pts as [|p rest IH]; simpl; [constructor|].
  destruct (selects (dim_x a) (dim_y a) (dim_z a) p) as [v|] eqn:E; [|exact IH].
  constructor; [eapply selects_in_range; exact E | exact IH].
Qed.

Lemma rasterize_spec line_ints : forall ps log,
  well_formed ps ->
  exists ps',
    rasterize (Some ps) line_ints log
    = (log ++ repeat Warning_out_of_bounds
                     (rejected (dim_x ps) (dim_y ps) (dim_z ps) line_ints),
       Ok (Some ps')) /\
    well_formed ps' /\
    (dim_x ps', dim_y ps', dim_z ps') = (dim_x ps, dim_y ps, dim_z ps) /\
    forall v,
      lookup ps' v
      = if existsb (voxel_eqb v) (seeds (dim_x ps) (dim_y ps) (dim_z ps) line_ints)
        then Some 0%Z else lookup ps v.
Proof.
  induction line_ints as [|p rest IH]; intros ps log Hwf.
  - exists ps. simpl. rewrite app_nil_r. auto.
  - cbn [rasterize seeds rejected]. unfold bind at 1, read, ret. unfold bind at 1.
    rewrite rasterize_point_selects.
    destruct (selects (dim_x ps) (dim_y ps) (dim_z ps) p) as [q|] eqn:E.
    + pose proof (selects_in_range ps p q E) as Hq.
      destruct (store_dims ps q 0%Z) as (Dx & Dy & Dz).
      destruct (IH (store ps q 0%Z) log (store_well_formed _ _ _ Hwf))
        as (ps' & Hrun & Hwf' & Hdims & Hl).
      rewrite Dx, Dy, Dz in Hrun, Hdims, Hl.
      exists ps'. split; [exact Hrun|]. split; [exact Hwf'|]. split; [exact Hdims|].
      intros v. rewrite Hl. cbn [existsb].
      destruct (existsb (voxel_eqb v) (seeds (dim_x ps) (dim_y ps) (dim_z ps) rest));
        [rewrite orb_true_r; reflexivity|].
      rewrite orb_false_r. apply lookup_store_at; assumption.
    + destruct (IH ps (log ++ [Warning_out_of_bounds]) Hwf)
        as (ps' & Hrun & Hwf' & Hdims & Hl).
      exists ps'. split; [|auto].
      rewrite Hrun, <- app_assoc. reflexivity.
Qed.

(** X10.  The loop over the line points, on a grid that is bound: it
    never raises; every point whose three indices numpy accepts (negative
    ones counted from the far end) sets its cell to 0, every other point
    adds one warning to the log, and the cells that no point selects are
    as they were. *)
Theorem rasterize_clears_the_selected_cells line_ints : forall ps log,
  well_formed ps ->
  exists ps',
    rasterize (Some ps) line_ints log
    = (log ++ repeat Warning_out_of_bounds
                     (rejected (dim_x ps) (dim_y ps) (dim_z ps) line_ints),
       Ok (Some ps')) /\
    well_formed ps' /\
    (dim_x ps', dim_y ps', dim_z ps') = (dim_x ps, dim_y ps, dim_z ps) /\
    forall v,
      lookup ps' v
      = if existsb (voxel_eqb v) (seeds (dim_x ps) (dim_y ps) (dim_z ps) line_ints)
        then Some 0%Z else lookup ps v.
Proof. exact (rasterize_spec line_ints). Qed.

Lemma rasterize_clears_the_selected_cells_witness :
  exists ps',
    rasterize (Some (full 3 1 1 1%Z)) [(0, 0, 0); (5, 0, 0); (-1, 0, 0)]%Z []
    = ([] ++ repeat Warning_out_of_bounds
                    (rejected (dim_x (full 3 1 1 1%Z)) (dim_y (full 3 1 1 1%Z))
                              (dim_z (full 3 1 1 1%Z))
                              [(0, 0, 0); (5, 0, 0); (-1, 0, 0)]%Z),
       Ok (Some ps')) /\
    well_formed ps' /\
    (dim_x ps', dim_y ps', dim_z ps')
    = (dim_x (full 3 1 1 1%Z), dim_y (full 3 1 1 1%Z), dim_z (full 3 1 1 1%Z)) /\
    forall v,
      lookup ps' v
      = if existsb (voxel_eqb v)
                   (seeds (dim_x (full 3 1 1 1%Z)) (dim_y (full 3 1 1 1%Z))
                          (dim_z (full 3 1 1 1%Z))
                          [(0, 0, 0); (5, 0, 0); (-1, 0, 0)]%Z)
        then Some 0%Z else lookup (full 3 1 1 1%Z) v.
Proof.
  apply (rasterize_clears_the_selected_cells
           [(0, 0, 0); (5, 0, 0); (-1, 0, 0)]%Z (full 3 1 1 1%Z) []).
  reflexivity.
Defined.

(** *** The single pass *)

Lemma single_chunk_box lx ly lz r :
  chunk_box lx ly lz r (Nat.max lx (Nat.max ly lz)) (0, 0, 0)%nat
  = mkBox 0 lx 0 ly 0 lz.
Proof. unfold chunk_box. f_equal; lia. Qed.

Lemma single_pass_result edt lx ly lz pts r log log' ps' :
  rasterize (Some (full lx ly lz 1%Z)) pts log = (log', Ok (Some ps')) ->
  _get_fibre_image all_succeed edt lx ly lz pts r log
  = let b := mkBox 0 lx 0 ly 0 lz in
    let dtc := distance_transform_edt_sq edt ps' b in
    (log' ++ [Info_processing_chunk 1 1],
     Ok (assign_where
           (assign_where (full lx ly lz 0%Z) b
                         (fun v => (dtc v <=? radius_sq r)%Z) (fun _ => 0%Z))
           b (fun v => (radius_sq r <? dtc v)%Z) (fun _ => 1%Z),
         map_cells clamp
                   (assign_where (full lx ly lz Zero) b (fun _ => true)
                                 (fun v => Sqrt_minus (dtc v) r)))).
Proof.
  intros H. rewrite get_fibre_image_single_pass.
  unfold fill_image, single_pass_locals.
  cbn [pore_space fibre_space dt cx cy cz chunk_len].
  unfold bind at 1. rewrite H.
  change (chunk_indices _) with [(0, 0, 0)%nat].
  cbn [process_chunks]. unfold process_chunk.
  cbn [pore_space fibre_space dt cx cy cz chunk_len].
  rewrite single_chunk_box.
  reflexivity.
Qed.

Lemma fold_min_spec (f : voxel -> Z) qs : forall m0,
  let m := fold_left (fun m q' => Z.min m (f q')) qs m0 in
  (m <= m0)%Z /\ (forall q, In q qs -> (m <= f q)%Z) /\
  (m = m0 \/ exists q, In q qs /\ m = f q).
Proof.
  induction qs as [|q rest IH]; intros m0; simpl.
  - split; [lia|]. split; [contradiction | left; reflexivity].
  - destruct (IH (Z.min m0 (f q))) as (H1 & H2 & H3). split; [lia|]. split.
    + intros q' [<-|Hq']; [lia | apply H2, Hq'].
    + destruct H3 as [H3|(q' & Hq' & H3)].
      * destruct (Z.min_spec m0 (f q)) as [[_ E]|[_ E]].
        -- left. rewrite H3. exact E.
        -- right. exists q. split; [left; reflexivity | rewrite H3; exact E].
      * right. exists q'. auto.
Qed.

(** With a zero in the slice, the distance transform gives at each voxel
    the squared distance to a nearest zero voxel of the slice. *)
Lemma edt_nearest edt ps b v :
  filter (is_background ps) (voxels b) <> [] ->
  exists q,
    In q (filter (is_background ps) (voxels b)) /\
    distance_transform_edt_sq edt ps b v = sq_dist v q /\
    forall q', In q' (filter (is_background ps) (voxels b)) ->
               (sq_dist v q <= sq_dist v q')%Z.
Proof.
  unfold distance_transform_edt_sq.
  destruct (filter (is_background ps) (voxels b)) as [|q0 qs]; [congruence|].
  intros _. destruct (fold_min_spec (sq_dist v) qs (sq_dist v q0)) as (H1 & H2 & H3).
  destruct H3 as [H3|(q & Hq & H3)].
  - exists q0. split; [left; reflexivity|]. split; [exact H3|].
    intros q' [<-|Hq']; [lia|]. rewrite <- H3. apply H2, Hq'.
  - exists q. split; [right; exact Hq|]. split; [exact H3|].
    intros q' [<-|Hq']; rewrite <- H3; [exact H1 | apply H2, Hq'].
Qed.

Lemma lookup_map_cells {A B} (f : A -> B) (a : array3 A) v :
  lookup (map_cells f a) v = option_map f (lookup a v).
Proof.
  unfold lookup, map_cells. destruct v as [[x y] z]. simpl.
  destruct ((x <? dim_x a)%nat && (y <? dim_y a)%nat && (z <? dim_z a)%nat);
    [|reflexivity].
  apply nth_error_map.
Qed.

Lemma in_range_whole_box {A} lx ly lz (c : A) v :
  in_range (full lx ly lz c) v = true <-> In v (voxels (mkBox 0 lx 0 ly 0 lz)).
Proof.
  destruct v as [[x y] z]. rewrite In_voxels. unfold in_range. simpl.
  rewrite !andb_true_iff, !Nat.ltb_lt. lia.
Qed.

(** The background of the rasterised grid is the set of selected cells. *)
Lemma background_is_seeds lx ly lz pts ps' q :
  (forall v, lookup ps' v
             = if existsb (voxel_eqb v) (seeds lx ly lz pts)
               then Some 0%Z else lookup (full lx ly lz 1%Z) v) ->
  In q (filter (is_background ps') (voxels (mkBox 0 lx 0 ly 0 lz))) <->
  In q (seeds lx ly lz pts).
Proof.
  intros Hl. rewrite filter_In. unfold is_background. rewrite Hl.
  rewrite <- (in_range_whole_box lx ly lz 1%Z).
  destruct (existsb (voxel_eqb q) (seeds lx ly lz pts)) eqn:E.
  - apply existsb_voxel_eqb in E. split; [intros _; exact E|]. intros _.
    split; [|reflexivity].
    pose proof (seeds_in_range (full lx ly lz 1%Z) pts) as Hall.
    rewrite Forall_forall in Hall. apply Hall. exact E.
  - rewrite lookup_full. split.
    + intros [Hr H]. rewrite Hr in H. discriminate.
    + intros H. apply existsb_voxel_eqb in H. congruence.
Qed.

(** X11.  When the three arrays are allocated and at least one line point
    selects a cell: the call returns, the log holds one warning per
    rejected point and then the message of the only chunk, a voxel of the
    fibre image is 0 exactly when a selected cell lies within the fibre
    radius of it and 1 otherwise, and the distance image holds the
    distance to a nearest selected cell less the radius, 0 where that is
    negative. *)
Theorem single_pass_marks_voxels_near_a_seed edt lx ly lz line_ints r log x y z :
  seeds lx ly lz line_ints <> [] ->
  (x < lx)%nat -> (y < ly)%nat -> (z < lz)%nat ->
  let v := (x, y, z) in
  let res := _get_fibre_image all_succeed edt lx ly lz line_ints r log in
  fst res = log ++ repeat Warning_out_of_bounds (rejected lx ly lz line_ints)
                ++ [Info_processing_chunk 1 1] /\
  fibre_voxel res v
  = Some (if existsb (fun q => (sq_dist v q <=? radius_sq r)%Z)
                     (seeds lx ly lz line_ints)
          then 0%Z else 1%Z) /\
  exists q,
    In q (seeds lx ly lz line_ints) /\
    (forall q', In q' (seeds lx ly lz line_ints) -> (sq_dist v q <= sq_dist v q')%Z) /\
    distance_voxel res v = Some (clamp (Sqrt_minus (sq_dist v q) r)).
Proof.
  intros Hseeds Hx Hy Hz v res.
  destruct (rasterize_spec line_ints (full lx ly lz 1%Z) log
              (full_well_formed lx ly lz 1%Z))
    as (ps' & Hrun & Hwf' & Hdims & Hl).
  cbn [full dim_x dim_y dim_z] in Hrun, Hl. fold (full lx ly lz 1%Z) in Hrun, Hl.
  subst res. rewrite (single_pass_result edt lx ly lz line_ints r log _ ps' Hrun).
  cbv zeta. unfold fibre_voxel, distance_voxel. cbn [fst snd].
  set (b := mkBox 0 lx 0 ly 0 lz).
  assert (Hbg : forall q, In q (filter (is_background ps') (voxels b)) <->
                          In q (seeds lx ly lz line_ints))
    by (intros q; apply background_is_seeds, Hl).
  assert (Hv0 : forall {A} (c : A), in_range (full lx ly lz c) v = true).
  { intros A c. unfold in_range, v. simpl.
    rewrite !andb_true_iff, !Nat.ltb_lt. auto. }
  assert (Hvb : existsb (voxel_eqb v) (voxels b) = true)
    by (apply (proj2 (existsb_voxel_eqb v (voxels b)));
        apply (proj1 (in_range_whole_box lx ly lz 0%Z v)); apply Hv0).
  assert (Hall : forall {A} (c : A),
             Forall (fun q => in_range (full lx ly lz c) q = true) (voxels b)).
  { intros A c. apply Forall_forall. intros q Hq. apply in_range_whole_box. exact Hq. }
  destruct (edt_nearest edt ps' b v) as (q & Hq & Hdtc & Hmin).
  { destruct (seeds lx ly lz line_ints) as [|q0 qs] eqn:E; [congruence|].
    intros Hnil. assert (Hin : In q0 (filter (is_background ps') (voxels b)))
      by (apply Hbg; left; reflexivity).
    rewrite Hnil in Hin. contradiction. }
  split; [rewrite <- app_assoc; reflexivity|]. split.
  - unfold assign_where.
    destruct (assign_over (fun v => (distance_transform_edt_sq edt ps' b v
                                     <=? radius_sq r)%Z)
                          (fun _ => 0%Z) (voxels b) (full lx ly lz 0%Z) v
                          (full_well_formed lx ly lz 0%Z) (Hall _ 0%Z))
      as (Hwf1 & Hr1 & Hl1).
    destruct (assign_over (fun v => (radius_sq r
                                     <? distance_transform_edt_sq edt ps' b v)%Z)
                          (fun _ => 1%Z) (voxels b) _ v Hwf1) as (_ & _ & Hl2).
    { eapply Forall_impl; [|exact (Hall _ 0%Z)]. simpl. intros p Hp.
      rewrite Hr1. exact Hp. }
    rewrite Hl2, Hl1, Hvb. cbn [andb]. rewrite Hdtc.
    assert (Hnear : existsb (fun q => (sq_dist v q <=? radius_sq r)%Z)
                            (seeds lx ly lz line_ints)
                    = (sq_dist v q <=? radius_sq r)%Z).
    { destruct (sq_dist v q <=? radius_sq r)%Z eqn:E.
      - apply existsb_exists. exists q. split; [apply Hbg, Hq | exact E].
      - apply Z.leb_gt in E.
        destruct (existsb (fun q => (sq_dist v q <=? radius_sq r)%Z)
                          (seeds lx ly lz line_ints)) eqn:E'; [|reflexivity].
        apply existsb_exists in E'. destruct E' as (q' & Hq' & Hle).
        apply Z.leb_le in Hle. apply Hbg in Hq'. specialize (Hmin q' Hq'). lia. }
    rewrite Hnear.
    destruct (sq_dist v q <=? radius_sq r)%Z eqn:E.
    + apply Z.leb_le in E.
      destruct (radius_sq r <? sq_dist v q)%Z eqn:E'; [apply Z.ltb_lt in E'; lia|].
      reflexivity.
    + apply Z.leb_gt in E.
      destruct (radius_sq r <? sq_dist v q)%Z eqn:E'; [reflexivity|].
      apply Z.ltb_ge in E'. lia.
  - exists q. split; [apply Hbg, Hq|]. split.
    + intros q' Hq'. apply Hmin, Hbg, Hq'.
    + rewrite lookup_map_cells. unfold assign_where.
      destruct (assign_over (fun _ => true)
                            (fun v => Sqrt_minus (distance_transform_edt_sq edt ps' b v) r)
                            (voxels b) (full lx ly lz Zero) v
                            (full_well_formed lx ly lz Zero) (Hall _ Zero))
        as (_ & _ & Hl3).
      rewrite Hl3, Hvb. cbn [andb option_map]. rewrite Hdtc. reflexivity.
Qed.

Lemma single_pass_marks_voxels_near_a_seed_witness :
  let edt := fun (_ : box) (_ : voxel) => 0%Z in
  let v := (2, 0, 0)%nat in
  let res := _get_fibre_image all_succeed edt 3 1 1 [(0, 0, 0)]%Z 1 [] in
  fst res = [] ++ repeat Warning_out_of_bounds (rejected 3 1 1 [(0, 0, 0)]%Z)
               ++ [Info_processing_chunk 1 1] /\
  fibre_voxel res v
  = Some (if existsb (fun q => (sq_dist v q <=? radius_sq 1)%Z)
                     (seeds 3 1 1 [(0, 0, 0)]%Z)
          then 0%Z else 1%Z) /\
  exists q,
    In q (seeds 3 1 1 [(0, 0, 0)]%Z) /\
    (forall q', In q' (seeds 3 1 1 [(0, 0, 0)]%Z) -> (sq_dist v q <= sq_dist v q')%Z) /\
    distance_voxel res v = Some (clamp (Sqrt_minus (sq_dist v q) 1)).
Proof.
  intros edt.
  apply (single_pass_marks_voxels_near_a_seed edt 3 1 1 [(0, 0, 0)]%Z 1 [] 2 0 0).
  - simpl. discriminate.
  - lia.
  - lia.
  - lia.
Defined.

End FibreImageFacts.

(** ** [_throat_props]: what a pass stores and when the call is aborted *)

Module ThroatPropsFacts.
Import Ndarray Float InHull ThroatProps.
Local Open Scope R_scope.

(** What a pass leaves of the entries [t]: the entries as they were; the
    three scalars zeroed; or offset vertices, at least 3 and at most [n],
    together with a centroid and an incentre. *)
Definition stores (n : nat) (t t' : throat) : Prop :=
  t' = t \/
  t' = mkThroat 0 0 0 (inradius t) (centroid t) (incentre t) (eroded_verts t) \/
  exists vs c i,
    eroded_verts t' = Some vs /\ centroid t' = Some c /\ incentre t' = Some i /\
    (3 <= length vs <= n)%nat.

Lemma nearest_coords_length coords : forall int_pts acc l,
  nearest_coords coords int_pts acc = Some l ->
  (length l <= length acc + length int_pts)%nat.
Proof.
  induction int_pts as [|pt rest IH]; intros acc l H; simpl in H.
  - injection H as <-. simpl. lia.
  - destruct (argmin pt coords) as [vert|]; [|discriminate].
    destruct (existsb (Nat.eqb vert) acc).
    + apply IH in H. simpl. lia.
    + apply IH in H. rewrite length_app in H. simpl in *. lia.
Qed.

Lemma measure_stores lib rotation translation f z_plane int_pts eroded props t t' :
  measure lib rotation translation f z_plane int_pts eroded props t = inr t' ->
  stores (length int_pts) t t'.
Proof.
  unfold measure.
  destruct (rp_centroid props) as [x0 y0].
  destruct (argmax (distance_transform_edt lib eroded)) as [inx0 iny0].
  destruct (nearest_coords (rp_coords props) int_pts []) as [offset_verts|] eqn:E;
    [|discriminate].
  apply nearest_coords_length in E. simpl in E.
  destruct (3 <=? length offset_verts)%nat eqn:E3; intros [= <-];
    cbn [area perimeter equiv_diameter inradius centroid incentre eroded_verts].
  - right. right. do 3 eexists. cbn [eroded_verts centroid incentre].
    repeat split; try reflexivity.
    + rewrite !length_map. apply Nat.leb_le. exact E3.
    + rewrite !length_map. exact E.
  - right. left. reflexivity.
Qed.

Lemma extract_stores lib rotation translation pts z order f r t t' :
  extract lib rotation translation pts z order f r t = inr t' ->
  stores (length pts) t t'.
Proof.
  unfold extract.
  repeat match goal with
         | |- context [match ?x with _ => _ end] => destruct x; try discriminate
         end;
    try (intros [= <-]; left; reflexivity).
  intros H. apply measure_stores in H. rewrite !length_map in H. exact H.
Qed.

Lemma analyse_stores lib rotation facet offset t t' :
  analyse lib rotation facet offset t = inr t' -> stores (length facet) t t'.
Proof.
  unfold analyse.
  destruct (min_of (map vx facet)) as [tx|]; [|discriminate].
  destruct (min_of (map vy facet)) as [ty|]; [|discriminate].
  destruct (max_of _) as [max_pts|]; [|discriminate].
  destruct (max_of (map fst _)) as [max1|]; [|discriminate].
  destruct (max_of (map snd _)) as [max2|]; [|discriminate].
  destruct (Req_dec_T max_pts 0); [discriminate|].
  destruct (Rle_dec _ _); [|intros [= <-]; left; reflexivity].
  intros H. apply extract_stores in H. rewrite length_map in H. exact H.
Qed.

Lemma skipped_square :
  throat_props_of flat_library square square_normal 6 (initial 1 1)
  = inr (initial 1 1).
Proof.
  unfold throat_props_of.
  assert (Ha : aligned flat_library square_normal = true)
    by (apply aligned_iff; left; reflexivity).
  rewrite Ha. destruct square_bounds as (Hx & Hy & Hm & Hm1 & Hm2).
  apply (analyse_skips flat_library None square 6 _ 0 0 (10 - 0) (10 - 0) (10 - 0));
    auto; try lra.
  rewrite Rmax_left by lra. unfold scaled_offset, res. lra.
Qed.

(** X12.  What a pass of the loop leaves for a throat.  Either no offset
    vertices are stored, and then every entry of the throat is as it was
    initialised (area, perimeter, diameter and inradius 0); or offset
    vertices are stored, at least 3 and at most as many as the facet has
    vertices, and then a centroid and an incentre are stored with them. *)
Theorem pass_stores_all_or_nothing lib vertices normal offset Nt net_Nt t' :
  throat_props_of lib vertices normal offset (initial Nt net_Nt) = inr t' ->
  (eroded_verts t' = None /\ t' = initial Nt net_Nt) \/
  exists vs c i,
    eroded_verts t' = Some vs /\ centroid t' = Some c /\ incentre t' = Some i /\
    (3 <= length vs <= length vertices)%nat.
Proof.
  intros H.
  assert (Hs : stores (length vertices) (initial Nt net_Nt) t').
  { unfold throat_props_of in H. destruct (aligned lib normal).
    - apply analyse_stores in H. exact H.
    - apply analyse_stores in H. rewrite length_map in H. exact H. }
  destruct Hs as [->|[->|Hs]].
  - left. split; reflexivity.
  - left. split; reflexivity.
  - right. exact Hs.
Qed.

Lemma pass_stores_all_or_nothing_witness :
  (eroded_verts (initial 1 1) = None /\ initial 1 1 = initial 1 1) \/
  exists vs c i,
    eroded_verts (initial 1 1) = Some vs /\ centroid (initial 1 1) = Some c /\
    incentre (initial 1 1) = Some i /\
    (3 <= length vs <= length square)%nat.
Proof.
  apply (pass_stores_all_or_nothing flat_library square square_normal 6 1 1
                                    (initial 1 1) skipped_square).
Defined.

(** *** Facets that are a single point *)

Lemma fold_left_Rmin_const l a : (forall x, In x l -> x = a) -> fold_left Rmin l a = a.
Proof.
  induction l as [|x l IH]; intros H; simpl; [reflexivity|].
  rewrite (H x (or_introl eq_refl)). rewrite Rmin_left by lra.
  apply IH. intros y Hy. apply H. right. exact Hy.
Qed.

Lemma min_of_const l a : l <> [] -> (forall x, In x l -> x = a) -> min_of l = Some a.
Proof.
  destruct l as [|x l]; [congruence|]. intros _ H. unfold min_of.
  rewrite (H x (or_introl eq_refl)). f_equal.
  apply fold_left_Rmin_const. intros y Hy. apply H. right. exact Hy.
Qed.

Lemma max_of_defined l : l <> [] -> exists m, max_of l = Some m.
Proof. destruct l; [congruence|]. intros _. eexists. reflexivity. Qed.

(** A facet whose vertices all have the same x and the same y: the
    largest translated coordinate is 0, its logarithm is infinite and
    [math.ceil] raises. *)
Lemma analyse_one_point lib rotation facet offset t a b :
  facet <> [] -> (forall u, In u facet -> vx u = a /\ vy u = b) ->
  analyse lib rotation facet offset t = inl OverflowError.
Proof.
  intros Hne Hall. unfold analyse.
  rewrite (min_of_const (map vx facet) a);
    [ | destruct facet; [congruence | discriminate]
      | intros x Hx; apply in_map_iff in Hx; destruct Hx as (u & <- & Hu);
        apply (Hall u Hu) ].
  rewrite (min_of_const (map vy facet) b);
    [ | destruct facet; [congruence | discriminate]
      | intros x Hx; apply in_map_iff in Hx; destruct Hx as (u & <- & Hu);
        apply (Hall u Hu) ].
  set (pts := map (fun p => (vx p - a, vy p - b)) facet).
  assert (Hpts : pts <> []) by (subst pts; destruct facet; [congruence | discriminate]).
  destruct (max_of_defined (flat_map (fun p => [fst p; snd p]) pts)) as [m Hm].
  { destruct pts; [congruence | discriminate]. }
  destruct (max_of_defined (map fst pts)) as [m1 Hm1];
    [destruct pts; [congruence | discriminate]|].
  destruct (max_of_defined (map snd pts)) as [m2 Hm2];
    [destruct pts; [congruence | discriminate]|].
  rewrite Hm, Hm1, Hm2.
  assert (Hzero : m = 0).
  { apply max_of_in, in_flat_map in Hm. destruct Hm as (q & Hq & Hin).
    subst pts. apply in_map_iff in Hq. destruct Hq as (u & <- & Hu).
    destruct (Hall u Hu) as [Ex Ey]. cbn [fst snd] in Hin.
    destruct Hin as [<-|[<-|[]]]; lra. }
  destruct (Req_dec_T m 0); [reflexivity | contradiction].
Qed.

Lemma each_throat_aborts lib t0 offset vertices normal e : forall throats,
  In (vertices, normal) throats ->
  throat_props_of lib vertices normal offset t0 = inl e ->
  exists e', each_throat lib t0 offset throats = inl e'.
Proof.
  induction throats as [|[vs n] rest IH]; intros Hin He; [contradiction|].
  simpl. destruct Hin as [[= -> ->]|Hin].
  - rewrite He. eexists. reflexivity.
  - destruct (throat_props_of lib vs n offset t0); [eexists; reflexivity|].
    destruct (IH Hin He) as [e' ->]. eexists. reflexivity.
Qed.

(** X13.  One throat whose vertices all coincide aborts the call: the
    pass for it raises [OverflowError] (rotated or not, the facet is one
    point), the loop ends there or at an earlier exception, and no array
    is stored. *)
Theorem facet_of_one_point_aborts_the_call
        lib Nt net_Nt throats offset vertices normal v :
  In (vertices, normal) throats ->
  vertices <> [] -> (forall u, In u vertices -> u = v) ->
  throat_props_of lib vertices normal offset (initial Nt net_Nt)
  = inl OverflowError /\
  exists e, _throat_props lib Nt net_Nt throats offset = inl e.
Proof.
  intros Hin Hne Hall.
  assert (H : throat_props_of lib vertices normal offset (initial Nt net_Nt)
              = inl OverflowError).
  { unfold throat_props_of. destruct (aligned lib normal).
    - apply (analyse_one_point lib None vertices offset _ (vx v) (vy v) Hne).
      intros u Hu. rewrite (Hall u Hu). auto.
    - set (M := rotation_matrix lib _ _).
      apply (analyse_one_point lib (Some M) _ offset _
                               (vx (dot_T v M)) (vy (dot_T v M))).
      + destruct vertices; [congruence | discriminate].
      + intros u Hu. apply in_map_iff in Hu. destruct Hu as (w & <- & Hw).
        rewrite (Hall w Hw). auto. }
  split; [exact H|].
  unfold _throat_props. eapply each_throat_aborts; eassumption.
Qed.

Lemma facet_of_one_point_aborts_the_call_witness :
  throat_props_of flat_library [(1, 2, 3)] (0, 0, 1) 1 (initial 2 2)
  = inl OverflowError /\
  exists e, _throat_props flat_library 2 2
                          [(square, square_normal); ([(1, 2, 3)], (0, 0, 1))] 1
            = inl e.
Proof.
  apply (facet_of_one_point_aborts_the_call
           flat_library 2 2 [(square, square_normal); ([(1, 2, 3)], (0, 0, 1))] 1
           [(1, 2, 3)] (0, 0, 1) (1, 2, 3)).
  - right. left. reflexivity.
  - discriminate.
  - intros u [<-|[]]. reflexivity.
Defined.

End ThroatPropsFacts.

(** ** [GenericReaction.run]: what the iteration leaves behind *)

Module ReactionFacts.
Import Reaction.
Local Open Scope Q_scope.

(** The tolerance in force at the [k]-th call of the recursion: the
    argument of the caller at the first, the default afterwards. *)
Definition tol_at (tol : Q) (k : nat) : Q :=
  match k with
  | O => tol
  | S _ => default_tol
  end.

(** A reaction whose solve moves every pore by 1 at each call. *)
Definition drifting_rate (x : vec) : list (Q * Q * Q) :=
  map (fun v => (0, 0, - (v + 1))) x.

Section Run.
Variable Np : nat.
Variable self_A_diag : vec.
Variable self_b : vec.
Variable pore_rate : vec -> list (Q * Q * Q).
Variable alg_solve : vec -> vec -> vec.

Local Abbreviation run := (run Np self_A_diag self_b pore_rate alg_solve).
Local Abbreviation iterate := (iterate self_A_diag self_b pore_rate alg_solve).
Local Abbreviation residual := (residual self_A_diag self_b pore_rate alg_solve).
Local Abbreviation new_diag := (new_diag self_A_diag pore_rate).
Local Abbreviation new_b := (new_b self_b pore_rate).
Local Abbreviation x_new := (x_new self_A_diag self_b pore_rate alg_solve).

(** The lines printed by the calls that did not meet their tolerance *)
Definition not_met (n : nat) (x : vec) : list message :=
  map (fun k => Tolerance_not_met (residual (iterate k x))) (seq 0 n).

Lemma not_met_S n x :
  not_met (S n) x = Tolerance_not_met (residual x) :: not_met n (x_new x).
Proof.
  unfold not_met. cbn [seq map Reaction.iterate]. f_equal.
  rewrite <- seq_shift, map_map. reflexivity.
Qed.

(** X14.  When the [n]-th iterate is the first whose residual is below
    the tolerance in force (the caller's at the first call, the default
    0.001 at every later one) and the stack allows [n + 1] frames: the
    call ends with that iterate stored as the quantity, with the diagonal
    of [alg.A] and [alg.b] computed from the copies made by [setup] and
    the rates at that iterate (nothing accumulates over the calls), with
    one line printed per call, and returns the vector only if [n = 0]. *)
Theorem run_leaves_the_converged_iterate n : forall depth st x tol,
  (n < depth)%nat ->
  (forall k, (k < n)%nat -> ~ residual (iterate k x) < tol_at tol k) ->
  residual (iterate n x) < tol_at tol n ->
  run depth st (Some x) tol
  = (mkState (Some (iterate n x)) (new_diag (iterate n x)) (new_b (iterate n x))
             (stdout st ++ not_met n x
                     ++ [Tolerance_met (residual (iterate n x))]),
     Returns (match n with O => Some x | S _ => None end)).
Proof.
  induction n as [|n IH]; intros depth st x tol Hd Hnot Hmet.
  - destruct depth as [|d]; [lia|]. cbn [Reaction.run Reaction.iterate tol_at] in *.
    apply Qltb_lt in Hmet. rewrite Hmet. reflexivity.
  - destruct depth as [|d]; [lia|]. cbn [Reaction.run].
    assert (H0 : Qltb (residual x) tol = false).
    { destruct (Qltb (residual x) tol) eqn:E; [|reflexivity].
      apply Qltb_lt in E. exfalso. apply (Hnot 0%nat); [lia | exact E]. }
    rewrite H0. cbn [quantity alg_A_diag alg_b stdout].
    rewrite (IH d _ (x_new x) default_tol).
    + cbn [Reaction.iterate stdout]. rewrite not_met_S.
      rewrite <- app_assoc. reflexivity.
    + lia.
    + intros k Hk. specialize (Hnot (S k) ltac:(lia)).
      cbn [Reaction.iterate tol_at] in Hnot. destruct k; exact Hnot.
    + cbn [Reaction.iterate tol_at] in Hmet. destruct n; exact Hmet.
Qed.

(** X15.  When no call within the available stack meets the tolerance in
    force, the call does not return: it ends in [RecursionError], after
    one line printed for each of the frames. *)
Theorem run_without_convergence_exhausts_the_stack depth : forall st x tol,
  (forall k, (k < depth)%nat -> ~ residual (iterate k x) < tol_at tol k) ->
  snd (run depth st (Some x) tol) = RecursionError /\
  stdout (fst (run depth st (Some x) tol)) = stdout st ++ not_met depth x.
Proof.
  induction depth as [|d IH]; intros st x tol Hnot.
  - cbn. rewrite app_nil_r. split; reflexivity.
  - cbn [Reaction.run].
    assert (H0 : Qltb (residual x) tol = false).
    { destruct (Qltb (residual x) tol) eqn:E; [|reflexivity].
      apply Qltb_lt in E. exfalso. apply (Hnot 0%nat); [lia | exact E]. }
    rewrite H0. cbn [quantity alg_A_diag alg_b stdout].
    match goal with
    | |- context [Reaction.run _ _ _ _ _ d ?s (Some (x_new x)) default_tol] =>
        destruct (IH s (x_new x) default_tol) as [Ho Hs];
        [ intros k Hk; specialize (Hnot (S k) ltac:(lia));
          cbn [Reaction.iterate tol_at] in Hnot; destruct k; exact Hnot
        | destruct (Reaction.run Np self_A_diag self_b pore_rate alg_solve
                                 d s (Some (x_new x)) default_tol) as [s' o] ]
    end.
    cbn [fst snd] in Ho, Hs. subst o. cbn [fst snd]. split; [reflexivity|].
    rewrite Hs, not_met_S. cbn [stdout]. rewrite <- app_assoc. reflexivity.
Qed.

End Run.

Lemma run_leaves_the_converged_iterate_witness :
  run 1 [1] [0] demo_rate demo_solve 3 demo_state (Some [0]) default_tol
  = (mkState (Some (iterate [1] [0] demo_rate demo_solve 1 [0]))
             (new_diag [1] demo_rate (iterate [1] [0] demo_rate demo_solve 1 [0]))
             (new_b [0] demo_rate (iterate [1] [0] demo_rate demo_solve 1 [0]))
             (stdout demo_state
                ++ not_met [1] [0] demo_rate demo_solve 1 [0]
                ++ [Tolerance_met
                      (residual [1] [0] demo_rate demo_solve
                                (iterate [1] [0] demo_rate demo_solve 1 [0]))]),
     Returns None).
Proof.
  apply (run_leaves_the_converged_iterate
           1 [1] [0] demo_rate demo_solve 1 3 demo_state [0] default_tol).
  - lia.
  - intros k Hk. destruct k as [|k]; [|lia].
    vm_compute. intros H. discriminate H.
  - vm_compute. reflexivity.
Defined.

Lemma run_without_convergence_exhausts_the_stack_witness :
  snd (run 1 [1] [0] drifting_rate demo_solve 2 demo_state (Some [0]) default_tol)
  = RecursionError /\
  stdout (fst (run 1 [1] [0] drifting_rate demo_solve 2 demo_state (Some [0])
                   default_tol))
  = stdout demo_state ++ not_met [1] [0] drifting_rate demo_solve 2 [0].
Proof.
  apply (run_without_convergence_exhausts_the_stack
           1 [1] [0] drifting_rate demo_solve 2 demo_state [0] default_tol).
  intros k Hk. destruct k as [|[|k]]; [| |lia];
    vm_compute; intros H; discriminate H.
Defined.

End ReactionFacts.

(** ** [in_hull_volume]: the fibre radius in voxels and the loop over the
    pores *)

Module InHullVolume.
Import Ndarray Float InHull.
Local Open Scope R_scope.

(** [np.around((fibre_rad-(vox_len/2))/vox_len, 0).astype(int)] *)
Definition fibre_rad_voxels (fibre_rad vox_len : R) : Z :=
  rint ((fibre_rad - vox_len / 2) / vox_len).

(** [np.ones_like(self._fibre_image, ...)*-1] *)
Definition unassigned (img_shape : nat * nat * nat) : image :=
  mkImage img_shape (fun _ => (-1)%Z).

Section Loop.
Variable ConvexHull_simplices : list vec3 -> option (list (nat * nat * nat)).
(** [unique_list] of [openpnm.utils.misc] *)
Variable unique_list : list vec3 -> list vec3.
Variable vox_len : R.

(** [verts = np.asarray(unique_list(np.around(verts, 6)));
     verts /= vox_len] *)
Definition scaled (verts : list vec3) : list vec3 :=
  map (vmap (fun c => c / vox_len)) (unique_list (map (vmap (around 6)) verts)).

(** [for pore in Ps: ... self.inhull(verts, pore)]: the hull image after
    the loop and the exception that ended it, if any. *)
Fixpoint each_pore (pores : list (Z * list vec3)) (hull_image : image)
  : image * option exn :=
  match pores with
  | [] => (hull_image, None)
  | (pore, verts) :: rest =>
    match inhull ConvexHull_simplices (scaled verts) pore tol hull_image with
    | (img, None) => each_pore rest img
    | (img, Some e) => (img, Some e)
    end
  end.

(** Whether the hull of the vertices claims a voxel of an image of the
    given shape. *)
Definition claims (img_shape : nat * nat * nat) (verts : list vec3) (v : voxel)
  : bool :=
  match prepare ConvexHull_simplices (scaled verts) with
  | inl _ => false
  | inr g => temp_arr tol g img_shape v
  end.

(** The last pore of the list whose hull claims the voxel *)
Fixpoint last_claim (img_shape : nat * nat * nat) (pores : list (Z * list vec3))
         (v : voxel) : option Z :=
  match pores with
  | [] => None
  | (pore, verts) :: rest =>
    match last_claim img_shape rest v with
    | Some p => Some p
    | None => if claims img_shape verts v then Some pore else None
    end
  end.

End Loop.

(** *** The fibre radius *)

Lemma rint_near x : IZR (rint x) - 1 / 2 <= x <= IZR (rint x) + 1 / 2.
Proof.
  unfold rint, floor. destruct (base_Int_part x) as [H1 H2].
  destruct (Rlt_dec (x - IZR (Int_part x)) (1 / 2)); [lra|].
  destruct (Rlt_dec (1 / 2) (x - IZR (Int_part x))).
  - rewrite plus_IZR. lra.
  - destruct (Z.even (Int_part x)); [lra | rewrite plus_IZR; lra].
Qed.

Lemma rint_minus_half : rint (- (1 / 2)) = 0%Z.
Proof.
  unfold rint. rewrite (floor_unique (- (1 / 2)) (-1)) by lra.
  destruct (Rlt_dec (- (1 / 2) - IZR (-1)) (1 / 2)); [lra|].
  destruct (Rlt_dec (1 / 2) (- (1 / 2) - IZR (-1))); [lra|].
  reflexivity.
Qed.

(** X16.  For a fibre radius that is not negative and a positive voxel
    length, the fibre radius in voxels is not negative, is at most the
    radius measured in voxel lengths and falls short of it by at most
    one. *)
Theorem fibre_rad_voxels_bounds fibre_rad vox_len :
  0 <= fibre_rad -> 0 < vox_len ->
  (0 <= fibre_rad_voxels fibre_rad vox_len)%Z /\
  fibre_rad / vox_len - 1 <= IZR (fibre_rad_voxels fibre_rad vox_len)
  <= fibre_rad / vox_len.
Proof.
  intros Hr Hv. unfold fibre_rad_voxels.
  assert (E : (fibre_rad - vox_len / 2) / vox_len = fibre_rad / vox_len - 1 / 2)
    by (field; lra).
  rewrite E.
  assert (Hq : 0 <= fibre_rad / vox_len)
    by (apply Rmult_le_pos; [exact Hr | left; apply Rinv_0_lt_compat, Hv]).
  pose proof (rint_near (fibre_rad / vox_len - 1 / 2)) as Hn.
  split; [|lra].
  destruct (Req_dec_T (fibre_rad / vox_len) 0) as [E0|E0].
  - rewrite E0. replace (0 - 1 / 2) with (- (1 / 2)) by lra.
    rewrite rint_minus_half. lia.
  - apply le_IZR. 
    assert (Hgt : -1 < IZR (rint (fibre_rad / vox_len - 1 / 2))) by lra.
    apply lt_IZR in Hgt. apply IZR_le. lia.
Qed.

Lemma fibre_rad_voxels_bounds_witness :
  (0 <= fibre_rad_voxels 3 1)%Z /\
  3 / 1 - 1 <= IZR (fibre_rad_voxels 3 1) <= 3 / 1.
Proof.
  apply (fibre_rad_voxels_bounds 3 1); lra.
Defined.

(** *** The loop *)

Lemma inhull_shape CH xyz pore tol img :
  shape (fst (inhull CH xyz pore tol img)) = shape img.
Proof.
  unfold inhull. destruct (prepare CH xyz); [reflexivity|].
  destruct (fits _ _); reflexivity.
Qed.

Lemma inhull_label CH xyz pore tol img img' v :
  inhull CH xyz pore tol img = (img', None) ->
  label img' v
  = if match prepare CH xyz with
       | inl _ => false
       | inr g => temp_arr tol g (shape img) v
       end
    then pore else label img v.
Proof.
  unfold inhull. destruct (prepare CH xyz) as [e|g]; [discriminate|].
  destruct (fits g (shape img)); [|discriminate].
  intros [= <-]. reflexivity.
Qed.

(** X17.  When the loop over the pores ends without an exception, the
    hull image has the shape it had, and every voxel holds the index of
    the last pore of the list whose hull claims it, or its former label
    (-1 on the fresh image) if none does: where hulls overlap, the pore
    processed later takes the voxel. *)
Theorem later_pore_takes_the_voxel CH unique_list vox_len pores : forall img img',
  each_pore CH unique_list vox_len pores img = (img', None) ->
  shape img' = shape img /\
  forall v,
    label img' v
    = match last_claim CH unique_list vox_len (shape img) pores v with
      | Some p => p
      | None => label img v
      end.
Proof.
  induction pores as [|[pore verts] rest IH]; intros img img' H.
  - simpl in H. injection H as <-. split; reflexivity.
  - cbn [each_pore last_claim] in *.
    destruct (inhull CH (scaled unique_list vox_len verts) pore tol img)
      as [img1 [e|]] eqn:E; [discriminate|].
    pose proof (inhull_shape CH (scaled unique_list vox_len verts) pore tol img) as Hs.
    rewrite E in Hs. cbn [fst] in Hs.
    destruct (IH img1 img' H) as [Hshape Hlabel]. rewrite Hs in Hshape, Hlabel.
    split; [exact Hshape|].
    intros v. rewrite Hlabel.
    destruct (last_claim CH unique_list vox_len (shape img) rest v); [reflexivity|].
    rewrite (inhull_label _ _ _ _ _ _ v E). unfold claims.
    destruct (prepare CH (scaled unique_list vox_len verts)) as [e|g];
      [reflexivity|].
    destruct (temp_arr tol g (shape img) v); reflexivity.
Qed.

Lemma scaled_tetrahedron : scaled (fun _ => tetrahedron) 1 [] = tetrahedron.
Proof.
  unfold scaled, tetrahedron, vmap, vx, vy, vz. cbn [map fst snd].
  repeat (f_equal; try lra).
Qed.

Lemma loop_over_tetrahedron :
  snd (each_pore tetrahedron_hull (fun _ => tetrahedron) 1 [(7%Z, [])]
                 (unassigned (6, 6, 6)%nat)) = None.
Proof.
  cbn [each_pore]. rewrite scaled_tetrahedron. unfold inhull.
  rewrite prepare_tetrahedron. reflexivity.
Qed.

Lemma later_pore_takes_the_voxel_witness :
  let r := each_pore tetrahedron_hull (fun _ => tetrahedron) 1 [(7%Z, [])]
                     (unassigned (6, 6, 6)%nat) in
  shape (fst r) = shape (unassigned (6, 6, 6)%nat) /\
  forall v,
    label (fst r) v
    = match last_claim tetrahedron_hull (fun _ => tetrahedron) 1
                       (shape (unassigned (6, 6, 6)%nat)) [(7%Z, [])] v with
      | Some p => p
      | None => label (unassigned (6, 6, 6)%nat) v
      end.
Proof.
  intros r.
  apply (later_pore_takes_the_voxel tetrahedron_hull (fun _ => tetrahedron) 1
                                    [(7%Z, [])] (unassigned (6, 6, 6)%nat) (fst r)).
  transitivity (fst r, snd r); [apply surjective_pairing|].
  f_equal. apply loop_over_tetrahedron.
Defined.

End InHullVolume.

(** ** [_get_fibre_slice] *)

From Stdlib Require Import Qround.
From Stdlib Require Lqa.

Module FibreSlice.
Import Ndarray.
Local Open Scope Q_scope.

(** The warning logged before [None] is returned *)
Inductive warning :=
| Needs_fibre_image
| Needs_plane_or_index
| Plane_needs_two_zeros
| Index_needs_two_zeros.

Inductive outcome :=
| Slice (slice_image : list (list Z))
| Nothing (w : warning)
| IndexError.

(** [sp.around(q).astype(int)]: the nearest integer, a tie going to the
    even one *)
Definition rint (q : Q) : Z :=
  let n := Qfloor q in
  match Qcompare (q - inject_Z n) (1 # 2) with
  | Lt => n
  | Gt => (n + 1)%Z
  | Eq => if Z.even n then n else (n + 1)%Z
  end.

(** [sp.sum(a == 0)] *)
Definition zeros (a : Q * Q * Q) : nat :=
  let '(x, y, z) := a in
  ((if Qeq_bool x 0 then 1 else 0) + (if Qeq_bool y 0 then 1 else 0)
   + (if Qeq_bool z 0 then 1 else 0))%nat.

Definition entry (img : array3 Z) (v : voxel) : Z :=
  nth (offset img v) (cells img) 0%Z.

(** [img[x, :, :]], [img[:, y, :]] and [img[:, :, z]] *)
Definition x_slice (img : array3 Z) (x : nat) : list (list Z) :=
  map (fun y => map (fun z => entry img (x, y, z)) (span 0 (dim_z img)))
      (span 0 (dim_y img)).

Definition y_slice (img : array3 Z) (y : nat) : list (list Z) :=
  map (fun x => map (fun z => entry img (x, y, z)) (span 0 (dim_z img)))
      (span 0 (dim_x img)).

Definition z_slice (img : array3 Z) (z : nat) : list (list Z) :=
  map (fun x => map (fun y => entry img (x, y, z)) (span 0 (dim_y img)))
      (span 0 (dim_x img)).

(** The three branches on [s] *)
Definition take (img : array3 Z) (s : Z * Z * Z) : outcome :=
  let '(s0, s1, s2) := s in
  if negb (s0 =? 0)%Z then
    match normalize_index (dim_x img) s0 with
    | Some x => Slice (x_slice img x)
    | None => IndexError
    end
  else if negb (s1 =? 0)%Z then
    match normalize_index (dim_y img) s1 with
    | Some y => Slice (y_slice img y)
    | None => IndexError
    end
  else
    match normalize_index (dim_z img) s2 with
    | Some z => Slice (z_slice img z)
    | None => IndexError
    end.

(** [fibre_image] is [None] when the object has no attribute
    [_fibre_image]; an [index] of integers is its own rounding. *)
Definition _get_fibre_slice (fibre_image : option (array3 Z))
           (plane index : option (Q * Q * Q)) : outcome :=
  match fibre_image with
  | None => Nothing Needs_fibre_image
  | Some img =>
    match plane, index with
    | None, None => Nothing Needs_plane_or_index
    | Some plane, _ =>
      if negb (zeros plane =? 2)%nat then Nothing Plane_needs_two_zeros
      else
        let '(px, py, pz) := plane in
        take img (rint (px * inject_Z (Z.of_nat (dim_x img))),
                  rint (py * inject_Z (Z.of_nat (dim_y img))),
                  rint (pz * inject_Z (Z.of_nat (dim_z img))))
    | None, Some index =>
      if negb (zeros index =? 2)%nat then Nothing Index_needs_two_zeros
      else
        let '(ix, iy, iz) := index in
        take img (rint ix, rint iy, rint iz)
    end
  end.

(** *** Rounding *)

Lemma Qfloor_unique q n : inject_Z n <= q -> q < inject_Z (n + 1) -> Qfloor q = n.
Proof.
  intros H1 H2.
  pose proof (Qfloor_le q) as F1. pose proof (Qlt_floor q) as F2.
  assert (A : (Qfloor q < n + 1)%Z).
  { rewrite Zlt_Qlt. eapply Qle_lt_trans; [exact F1 | exact H2]. }
  assert (B : (n < Qfloor q + 1)%Z).
  { rewrite Zlt_Qlt. eapply Qle_lt_trans; [exact H1 | exact F2]. }
  lia.
Qed.

Lemma rint_inject_Z q n : q == inject_Z n -> rint q = n.
Proof.
  intros E. unfold rint.
  assert (F : Qfloor q = n).
  { apply Qfloor_unique; rewrite E; [apply Qle_refl|].
    rewrite <- Zlt_Qlt. lia. }
  rewrite F.
  destruct (Qcompare_spec (q - inject_Z n) (1 # 2)) as [H|H|H].
  - rewrite E in H. exfalso. Lqa.lra.
  - reflexivity.
  - rewrite E in H. exfalso. Lqa.lra.
Qed.

Lemma rint_small q : - (1 # 2) <= q -> q <= 1 # 2 -> rint q = 0%Z.
Proof.
  intros H1 H2. unfold rint.
  destruct (Qlt_le_dec q 0) as [Hneg|Hpos].
  - assert (F : Qfloor q = (-1)%Z).
    { apply Qfloor_unique; [change (inject_Z (-1)) with (- (1))|
                            change (inject_Z (-1 + 1)) with 0]; Lqa.lra. }
    rewrite F. change (inject_Z (-1)) with (- (1)).
    destruct (Qcompare_spec (q - - (1)) (1 # 2)) as [H|H|H];
      [reflexivity | exfalso; Lqa.lra | reflexivity].
  - assert (F : Qfloor q = 0%Z).
    { apply Qfloor_unique; [change (inject_Z 0) with 0|
                            change (inject_Z (0 + 1)) with 1]; Lqa.lra. }
    rewrite F. change (inject_Z 0) with 0.
    destruct (Qcompare_spec (q - 0) (1 # 2)) as [H|H|H];
      [reflexivity | reflexivity | exfalso; Lqa.lra].
Qed.

Lemma Qeq_bool_0 : Qeq_bool 0 0 = true.
Proof. reflexivity. Qed.

Lemma zeros_one_entry p :
  ~ p == 0 ->
  zeros (p, 0, 0) = 2%nat /\ zeros (0, p, 0) = 2%nat /\ zeros (0, 0, p) = 2%nat.
Proof.
  intros Hp. unfold zeros.
  assert (E : Qeq_bool p 0 = false).
  { destruct (Qeq_bool p 0) eqn:E; [|reflexivity].
    apply Qeq_bool_eq in E. contradiction. }
  rewrite E, Qeq_bool_0. repeat split; reflexivity.
Qed.

Lemma normalize_index_length n : normalize_index n (Z.of_nat n) = None.
Proof.
  unfold normalize_index.
  destruct (Z.of_nat n <? Z.of_nat n)%Z eqn:E; [apply Z.ltb_lt in E; lia|].
  rewrite andb_false_r.
  destruct (Z.of_nat n <? 0)%Z eqn:E'; [apply Z.ltb_lt in E'; lia|].
  rewrite andb_false_r. reflexivity.
Qed.

(** X18.  The fraction 1 is out of range: with a fibre image whose axis
    is not empty, a plane of [1, 0, 0], [0, 1, 0] or [0, 0, 1] raises
    [IndexError], the index computed being the length of the axis. *)
Theorem plane_at_fraction_one_raises img index :
  (0 < dim_x img)%nat -> (0 < dim_y img)%nat ->
  _get_fibre_slice (Some img) (Some (1, 0, 0)) index = IndexError /\
  _get_fibre_slice (Some img) (Some (0, 1, 0)) index = IndexError /\
  _get_fibre_slice (Some img) (Some (0, 0, 1)) index = IndexError.
Proof.
  intros Hx Hy. unfold _get_fibre_slice.
  assert (R1 : forall n, rint (1 * inject_Z n) = n)
    by (intros n; apply rint_inject_Z; Lqa.lra).
  assert (R0 : forall n, rint (0 * inject_Z n) = 0%Z)
    by (intros n; apply rint_inject_Z; change (inject_Z 0) with 0; Lqa.lra).
  repeat split; cbn [zeros Qeq_bool]; rewrite ?R1, ?R0; unfold take.
  - destruct (Z.of_nat (dim_x img) =? 0)%Z eqn:E; [apply Z.eqb_eq in E; lia|].
    cbn [negb]. rewrite normalize_index_length. reflexivity.
  - cbn [Z.eqb negb].
    destruct (Z.of_nat (dim_y img) =? 0)%Z eqn:E; [apply Z.eqb_eq in E; lia|].
    cbn [negb]. rewrite normalize_index_length. reflexivity.
  - cbn [Z.eqb negb]. rewrite normalize_index_length. reflexivity.
Qed.

Lemma plane_at_fraction_one_raises_witness :
  _get_fibre_slice (Some (full 2 2 2 1%Z)) (Some (1, 0, 0)) None = IndexError /\
  _get_fibre_slice (Some (full 2 2 2 1%Z)) (Some (0, 1, 0)) None = IndexError /\
  _get_fibre_slice (Some (full 2 2 2 1%Z)) (Some (0, 0, 1)) None = IndexError.
Proof.
  apply (plane_at_fraction_one_raises (full 2 2 2 1%Z) None); simpl; lia.
Defined.

(** X19.  A fraction along x or along y that is not 0 but rounds to the
    index 0 does not give a slice across that axis: the first two tests
    on [s] fail and the slice returned is [img[:, :, 0]]. *)
Theorem small_fraction_gives_the_z_slice img index p :
  ~ p == 0 -> (0 < dim_z img)%nat ->
  (- (1 # 2) <= p * inject_Z (Z.of_nat (dim_x img)) <= 1 # 2 ->
   _get_fibre_slice (Some img) (Some (p, 0, 0)) index = Slice (z_slice img 0)) /\
  (- (1 # 2) <= p * inject_Z (Z.of_nat (dim_y img)) <= 1 # 2 ->
   _get_fibre_slice (Some img) (Some (0, p, 0)) index = Slice (z_slice img 0)).
Proof.
  intros Hp Hz. destruct (zeros_one_entry p Hp) as (Z1 & Z2 & _).
  assert (R0 : forall n, rint (0 * inject_Z n) = 0%Z)
    by (intros n; apply rint_inject_Z; change (inject_Z 0) with 0; Lqa.lra).
  assert (N0 : normalize_index (dim_z img) 0 = Some 0%nat)
    by (apply (normalize_index_nonnegative (dim_z img) 0); lia).
  unfold _get_fibre_slice. split; intros [H1 H2].
  - rewrite Z1. cbn [Nat.eqb negb]. rewrite (rint_small _ H1 H2), !R0.
    unfold take. cbn [Z.eqb negb]. rewrite N0. reflexivity.
  - rewrite Z2. cbn [Nat.eqb negb]. rewrite (rint_small _ H1 H2), !R0.
    unfold take. cbn [Z.eqb negb]. rewrite N0. reflexivity.
Qed.

Lemma small_fraction_gives_the_z_slice_witness :
  (- (1 # 2) <= (1 # 10) * inject_Z (Z.of_nat (dim_x (full 2 2 2 1%Z))) <= 1 # 2 ->
   _get_fibre_slice (Some (full 2 2 2 1%Z)) (Some (1 # 10, 0, 0)) None
   = Slice (z_slice (full 2 2 2 1%Z) 0)) /\
  (- (1 # 2) <= (1 # 10) * inject_Z (Z.of_nat (dim_y (full 2 2 2 1%Z))) <= 1 # 2 ->
   _get_fibre_slice (Some (full 2 2 2 1%Z)) (Some (0, 1 # 10, 0)) None
   = Slice (z_slice (full 2 2 2 1%Z) 0)).
Proof.
  apply (small_fraction_gives_the_z_slice (full 2 2 2 1%Z) None (1 # 10)).
  - intros H. discriminate H.
  - simpl. lia.
Defined.

End FibreSlice.

(** ** [_centroids], [_t_normals] and [_throat_c2c] *)

Module Vertices.
Import Ndarray Float InHull.
Local Open Scope R_scope.

(** A row of floats; [None] when it holds a [nan]. *)
Definition row : Type := option vec3.

(** [_centroids]: [np.mean(i_verts, axis=0)] for every entry; the mean of
    no vertex is [nan]. *)
Definition _centroids (verts : list (list vec3)) : list row :=
  map (fun i_verts => match i_verts with
                      | [] => None
                      | _ => Some (mean i_verts)
                      end) verts.

(** [vec + vec], [np.linalg.norm] *)
Definition vadd (a b : vec3) : vec3 := (vx a + vx b, vy a + vy b, vz a + vz b).
Definition norm (a : vec3) : R := sqrt (dot a a).

Inductive exn :=
| IndexError
| QhullError.

(** [a[idx]] for an array of integers [idx] *)
Fixpoint take {A} (a : list A) (idx : list Z) : option (list A) :=
  match idx with
  | [] => Some []
  | i :: rest =>
    match normalize_index (length a) i, take a rest with
    | Some n, Some l =>
      match nth_error a n with
      | Some v => Some (v :: l)
      | None => None
      end
    | _, _ => None
    end
  end.

(** [value[i]] of [_throat_c2c] for the rows [t_cen[i]], [p_cen[p1[i]]]
    and [p_cen[p2[i]]] *)
Definition c2c_of (t c1 c2 : row) : option R :=
  match t, c1, c2 with
  | Some t, Some c1, Some c2 => Some (norm (vsub t c1) + norm (vsub t c2))
  | _, _, _ => None
  end.

(** [_throat_c2c]: the network holds one centroid and one pair of pore
    indices per throat; [own] is [net.throats(self.name)]. *)
Definition _throat_c2c (p_cen : list row) (throats : list (row * (Z * Z)))
           (own : list Z) : exn + list (option R) :=
  match take p_cen (map (fun t => fst (snd t)) throats),
        take p_cen (map (fun t => snd (snd t)) throats) with
  | Some c1, Some c2 =>
    let value := map (fun r => c2c_of (fst (fst r)) (fst (snd r)) (snd (snd r)))
                     (combine throats (combine c1 c2)) in
    match take value own with
    | Some v => inr v
    | None => inl IndexError
    end
  | _, _ => inl IndexError
  end.

Section Normals.
(** [sptl.ConvexHull(verts_2d, qhull_options='QJ Pp').vertices]; [None]
    when Qhull fails *)
Variable hull_vertices : list (R * R) -> option (list Z).

(** [len(sp.unique(column)) == 1] *)
Definition constant (column : list R) : bool :=
  (length (ThroatProps.distinct column) =? 1)%nat.

Definition verts_2d (verts : list vec3) : list (R * R) :=
  if constant (map vx verts) then map (fun p => (vy p, vz p)) verts
  else if constant (map vy verts) then map (fun p => (vx p, vz p)) verts
  else map (fun p => (vx p, vy p)) verts.

(** [value[i]] of [_t_normals] *)
Definition normal_of (verts : list vec3) : exn + vec3 :=
  match hull_vertices (verts_2d verts) with
  | None => inl QhullError
  | Some hv =>
    match take verts hv with
    | None => inl IndexError
    | Some sorted_verts =>
      match nth_error sorted_verts 1, nth_error sorted_verts 0 with
      | Some s1, Some s0 =>
        let s_last := last sorted_verts s0 in
        inr (cross (vsub s1 s0) (vsub s_last s0))
      | _, _ => inl IndexError
      end
    end
  end.

(** [_t_normals] *)
Fixpoint _t_normals (verts : list (list vec3)) : exn + list vec3 :=
  match verts with
  | [] => inr []
  | v :: rest =>
    match normal_of v with
    | inl e => inl e
    | inr n =>
      match _t_normals rest with
      | inl e => inl e
      | inr ns => inr (n :: ns)
      end
    end
  end.

End Normals.

(** *** Centroids *)

Lemma fold_left_Rplus_acc l : forall a, fold_left Rplus l a = a + fold_left Rplus l 0.
Proof.
  induction l as [|x l IH]; intros a; simpl; [lra|].
  rewrite (IH (a + x)), (IH (0 + x)). lra.
Qed.

Lemma sum_dot n (vs : list vec3) :
  vx n * fold_left Rplus (map vx vs) 0 + vy n * fold_left Rplus (map vy vs) 0
  + vz n * fold_left Rplus (map vz vs) 0
  = fold_left Rplus (map (dot n) vs) 0.
Proof.
  induction vs as [|p vs IH]; simpl; [lra|].
  rewrite (fold_left_Rplus_acc _ (0 + vx p)), (fold_left_Rplus_acc _ (0 + vy p)),
          (fold_left_Rplus_acc _ (0 + vz p)), (fold_left_Rplus_acc _ (0 + dot n p)).
  rewrite <- IH. unfold dot. lra.
Qed.

Lemma sum_le (f : vec3 -> R) d (vs : list vec3) :
  (forall p, In p vs -> f p <= d) ->
  fold_left Rplus (map f vs) 0 <= INR (length vs) * d.
Proof.
  induction vs as [|p vs IH]; intros H.
  - simpl. lra.
  - cbn [map fold_left]. rewrite fold_left_Rplus_acc.
    change (length (p :: vs)) with (S (length vs)). rewrite S_INR.
    specialize (H p (or_introl eq_refl)) as Hp.
    assert (Hrest : fold_left Rplus (map f vs) 0 <= INR (length vs) * d)
      by (apply IH; intros q Hq; apply H; right; exact Hq).
    lra.
Qed.

Lemma dot_mean n (vs : list vec3) :
  vs <> [] -> dot n (mean vs) * INR (length vs) = fold_left Rplus (map (dot n) vs) 0.
Proof.
  intros Hne. rewrite <- sum_dot. unfold mean, dot, vx, vy, vz. cbn [fst snd].
  assert (Hn : INR (length vs) <> 0).
  { destruct vs; [congruence|]. apply not_0_INR. discriminate. }
  field. exact Hn.
Qed.

(** X20.  Every entry of [_centroids] for a throat or pore with vertices
    lies in every half-space that holds all its vertices, so inside their
    convex hull; the result has one entry per input. *)
Theorem centroid_lies_in_the_hull verts i vs n d :
  nth_error verts i = Some vs -> vs <> [] ->
  (forall p, In p vs -> dot n p <= d) ->
  length (_centroids verts) = length verts /\
  exists c, nth_error (_centroids verts) i = Some (Some c) /\ dot n c <= d.
Proof.
  intros Hi Hne Hall. unfold _centroids. split; [apply length_map|].
  rewrite nth_error_map, Hi. cbn [option_map].
  exists (mean vs). split; [destruct vs; [congruence | reflexivity]|].
  assert (Hpos : 0 < INR (length vs)).
  { destruct vs; [congruence|]. apply lt_0_INR. simpl. lia. }
  pose proof (dot_mean n vs Hne) as E.
  pose proof (sum_le (dot n) d vs Hall) as Hle.
  rewrite <- E in Hle. nra.
Qed.

Lemma centroid_lies_in_the_hull_witness :
  length (_centroids [ThroatProps.square]) = length [ThroatProps.square] /\
  exists c, nth_error (_centroids [ThroatProps.square]) 0 = Some (Some c) /\
            dot (1, 0, 0) c <= 10.
Proof.
  apply (centroid_lies_in_the_hull [ThroatProps.square] 0 ThroatProps.square
                                   (1, 0, 0) 10).
  - reflexivity.
  - discriminate.
  - intros p Hp. unfold ThroatProps.square in Hp. simpl in Hp.
    destruct Hp as [<-|[<-|[<-|[<-|[]]]]]; unfold dot, vx, vy, vz; simpl; lra.
Defined.

(** *** Normals *)

Lemma take_In {A} (a : list A) idx : forall l x,
  take a idx = Some l -> In x l -> In x a.
Proof.
  induction idx as [|i rest IH]; intros l x H Hx; simpl in H.
  - injection H as <-. contradiction.
  - destruct (normalize_index (length a) i) as [n|]; [|discriminate].
    destruct (take a rest) as [l'|]; [|discriminate].
    destruct (nth_error a n) as [v|] eqn:E; [|discriminate].
    injection H as <-. destruct Hx as [<-|Hx].
    + eapply nth_error_In. exact E.
    + eapply IH; [reflexivity | exact Hx].
Qed.

Lemma last_In {A} (l : list A) d : l <> [] -> In (last l d) l.
Proof.
  induction l as [|x l IH]; [congruence|]. intros _.
  destruct l as [|y l]; [left; reflexivity|].
  right. apply IH. discriminate.
Qed.

(** Three vectors orthogonal to a vector that is not zero span no
    volume. *)
Lemma coplanar_triple m u w e :
  m <> (0, 0, 0) -> dot m u = 0 -> dot m w = 0 -> dot m e = 0 ->
  dot (cross u w) e = 0.
Proof.
  destruct m as [[mx my] mz], u as [[ux uy] uz], w as [[wx wy] wz], e as [[ex ey] ez].
  unfold dot, cross, vx, vy, vz. cbn [fst snd]. intros Hm Hu Hw He.
  set (D := (uy * wz - uz * wy) * ex + (uz * wx - ux * wz) * ey
            + (ux * wy - uy * wx) * ez).
  assert (Hx : mx * D = 0).
  { replace (mx * D)
      with ((mx * ux + my * uy + mz * uz) * (wy * ez - wz * ey)
            + (mx * wx + my * wy + mz * wz) * (ey * uz - ez * uy)
            + (mx * ex + my * ey + mz * ez) * (uy * wz - uz * wy))
      by (unfold D; ring).
    rewrite Hu, Hw, He. ring. }
  assert (Hy : my * D = 0).
  { replace (my * D)
      with ((mx * ux + my * uy + mz * uz) * (wz * ex - wx * ez)
            + (mx * wx + my * wy + mz * wz) * (ez * ux - ex * uz)
            + (mx * ex + my * ey + mz * ez) * (uz * wx - ux * wz))
      by (unfold D; ring).
    rewrite Hu, Hw, He. ring. }
  assert (Hz : mz * D = 0).
  { replace (mz * D)
      with ((mx * ux + my * uy + mz * uz) * (wx * ey - wy * ex)
            + (mx * wx + my * wy + mz * wz) * (ex * uy - ey * ux)
            + (mx * ex + my * ey + mz * ez) * (ux * wy - uy * wx))
      by (unfold D; ring).
    rewrite Hu, Hw, He. ring. }
  destruct (Req_dec_T D 0) as [E|E]; [exact E|].
  exfalso. apply Hm.
  apply Rmult_integral in Hx, Hy, Hz.
  destruct Hx as [->|]; [|contradiction].
  destruct Hy as [->|]; [|contradiction].
  destruct Hz as [->|]; [|contradiction].
  reflexivity.
Qed.

Lemma dot_vsub m p q : dot m (vsub p q) = dot m p - dot m q.
Proof. unfold dot, vsub, vx, vy, vz. cbn [fst snd]. ring. Qed.

Lemma t_normals_nth hull_vertices verts : forall ns i vs,
  _t_normals hull_vertices verts = inr ns -> nth_error verts i = Some vs ->
  exists n, nth_error ns i = Some n /\ normal_of hull_vertices vs = inr n.
Proof.
  induction verts as [|v rest IH]; intros ns i vs H Hi; [destruct i; discriminate|].
  simpl in H. destruct (normal_of hull_vertices v) as [e|n] eqn:En; [discriminate|].
  destruct (_t_normals hull_vertices rest) as [e|ns'] eqn:Er; [discriminate|].
  injection H as <-. destruct i as [|i]; simpl in Hi.
  - injection Hi as <-. exists n. auto.
  - apply (IH ns' i vs eq_refl Hi).
Qed.

(** X21.  When the vertices of a throat lie in one plane, the normal
    computed for it is perpendicular to that plane: its product with the
    difference of any two vertices is 0, whatever hull vertices Qhull
    returned and whichever projection was taken. *)
Theorem normal_is_perpendicular_to_the_facet hull_vertices verts ns i vs m c :
  _t_normals hull_vertices verts = inr ns -> nth_error verts i = Some vs ->
  m <> (0, 0, 0) -> (forall p, In p vs -> dot m p = c) ->
  exists n,
    nth_error ns i = Some n /\
    forall p q, In p vs -> In q vs -> dot n (vsub p q) = 0.
Proof.
  intros Hrun Hi Hm Hplane.
  destruct (t_normals_nth _ _ _ _ _ Hrun Hi) as (n & Hn & H).
  exists n. split; [exact Hn|]. intros p q Hp Hq.
  unfold normal_of in H.
  destruct (hull_vertices (verts_2d vs)) as [hv|]; [|discriminate].
  destruct (take vs hv) as [sorted|] eqn:Et; [|discriminate].
  destruct (nth_error sorted 1) as [s1|] eqn:E1; [|discriminate].
  destruct (nth_error sorted 0) as [s0|] eqn:E0; [|discriminate].
  injection H as <-.
  assert (H0 : In s0 vs)
    by (eapply take_In; [exact Et | eapply nth_error_In; exact E0]).
  assert (H1 : In s1 vs)
    by (eapply take_In; [exact Et | eapply nth_error_In; exact E1]).
  assert (Hl : In (last sorted s0) vs).
  { eapply take_In; [exact Et|]. apply last_In.
    destruct sorted; [discriminate E0 | discriminate]. }
  apply (coplanar_triple m); [exact Hm | | | ]; rewrite dot_vsub;
    rewrite ?(Hplane _ H0), ?(Hplane _ H1), ?(Hplane _ Hl),
            ?(Hplane _ Hp), ?(Hplane _ Hq); lra.
Qed.

Lemma normal_is_perpendicular_to_the_facet_witness :
  exists n,
    nth_error [cross (vsub (10, 0, 0) (0, 0, 0)) (vsub (0, 10, 0) (0, 0, 0))] 0
    = Some n /\
    forall p q, In p ThroatProps.square -> In q ThroatProps.square ->
                dot n (vsub p q) = 0.
Proof.
  apply (normal_is_perpendicular_to_the_facet
           (fun _ => Some [0; 1; 2; 3]%Z) [ThroatProps.square] _ 0
           ThroatProps.square (0, 0, 1) 0).
  - reflexivity.
  - reflexivity.
  - intros H. injection H as H. lra.
  - intros p Hp. unfold ThroatProps.square in Hp. simpl in Hp.
    destruct Hp as [<-|[<-|[<-|[<-|[]]]]]; unfold dot, vx, vy, vz; simpl; lra.
Defined.

(** *** Centre-to-centre lengths *)

Lemma dot_self_nonneg a : 0 <= dot a a.
Proof.
  unfold dot. pose proof (Rle_0_sqr (vx a)). pose proof (Rle_0_sqr (vy a)).
  pose proof (Rle_0_sqr (vz a)). unfold Rsqr in *. lra.
Qed.

Lemma cauchy_schwarz a b : dot a b * dot a b <= dot a a * dot b b.
Proof.
  assert (E : dot a a * dot b b - dot a b * dot a b = dot (cross a b) (cross a b)).
  { destruct a as [[a1 a2] a3], b as [[b1 b2] b3].
    unfold dot, cross, vx, vy, vz. cbn [fst snd]. ring. }
  pose proof (dot_self_nonneg (cross a b)). lra.
Qed.

Lemma norm_nonneg a : 0 <= norm a.
Proof. apply sqrt_pos. Qed.

Lemma norm_sqr a : norm a * norm a = dot a a.
Proof. apply sqrt_sqrt, dot_self_nonneg. Qed.

Lemma dot_le_norms a b : - dot a b <= norm a * norm b.
Proof.
  pose proof (norm_nonneg a) as Ha. pose proof (norm_nonneg b) as Hb.
  pose proof (cauchy_schwarz a b) as Hcs.
  rewrite <- (norm_sqr a), <- (norm_sqr b) in Hcs.
  assert (Hp : 0 <= norm a * norm b) by (apply Rmult_le_pos; assumption).
  destruct (Rle_dec (- dot a b) (norm a * norm b)) as [H|H]; [exact H|].
  exfalso. apply Rnot_le_lt in H. nra.
Qed.

Lemma triangle a b : norm (vsub a b) <= norm a + norm b.
Proof.
  pose proof (norm_nonneg a) as Ha. pose proof (norm_nonneg b) as Hb.
  pose proof (norm_nonneg (vsub a b)) as Hc.
  assert (E : dot (vsub a b) (vsub a b) = dot a a + dot b b - 2 * dot a b).
  { destruct a as [[a1 a2] a3], b as [[b1 b2] b3].
    unfold dot, vsub, vx, vy, vz. cbn [fst snd]. ring. }
  pose proof (norm_sqr (vsub a b)) as Es. rewrite E in Es.
  pose proof (norm_sqr a) as Ea. pose proof (norm_sqr b) as Eb.
  pose proof (dot_le_norms a b) as Hd.
  destruct (Rle_dec (norm (vsub a b)) (norm a + norm b)) as [H|H]; [exact H|].
  exfalso. apply Rnot_le_lt in H. nra.
Qed.

Lemma vsub_vsub t a b : vsub (vsub t b) (vsub t a) = vsub a b.
Proof.
  unfold vsub, vx, vy, vz. cbn [fst snd]. repeat (f_equal; try lra).
Qed.

Lemma c2c_of_at_least t c1 c2 d :
  c2c_of t c1 c2 = Some d ->
  exists a b, c1 = Some a /\ c2 = Some b /\ norm (vsub a b) <= d.
Proof.
  unfold c2c_of. destruct t as [t|]; [|discriminate].
  destruct c1 as [a|]; [|discriminate]. destruct c2 as [b|]; [|discriminate].
  intros [= <-]. exists a, b. repeat split.
  rewrite <- (vsub_vsub t a b).
  eapply Rle_trans; [apply triangle|]. lra.
Qed.

Lemma take_nth {A} (a : list A) idx : forall l k x,
  take a idx = Some l -> nth_error l k = Some x ->
  exists i n, nth_error idx k = Some i /\ normalize_index (length a) i = Some n /\
              nth_error a n = Some x.
Proof.
  induction idx as [|i rest IH]; intros l k x H Hx; simpl in H.
  - injection H as <-. destruct k; discriminate.
  - destruct (normalize_index (length a) i) as [n|] eqn:En; [|discriminate].
    destruct (take a rest) as [l'|]; [|discriminate].
    destruct (nth_error a n) as [v|] eqn:E; [|discriminate].
    injection H as <-. destruct k as [|k]; simpl in Hx.
    + injection Hx as <-. exists i, n. auto.
    + destruct (IH l' k x eq_refl Hx) as (i' & n' & H1 & H2 & H3).
      exists i', n'. auto.
Qed.

(** X22.  Every length that [_throat_c2c] returns is at least the
    distance between the centroids of the two pores the throat joins;
    it is [nan] as soon as one of the three centroids holds a [nan]. *)
Theorem c2c_is_at_least_the_pore_distance p_cen throats own v k :
  _throat_c2c p_cen throats own = inr v ->
  (k < length v)%nat ->
  exists t i j ni nj,
    In (t, (i, j)) throats /\
    normalize_index (length p_cen) i = Some ni /\
    normalize_index (length p_cen) j = Some nj /\
    nth_error v k
    = Some (c2c_of t (nth ni p_cen None) (nth nj p_cen None)) /\
    forall d, nth_error v k = Some (Some d) ->
      exists a b, nth_error p_cen ni = Some (Some a) /\
                  nth_error p_cen nj = Some (Some b) /\
                  norm (vsub a b) <= d.
Proof.
  unfold _throat_c2c. intros H Hk.
  destruct (take p_cen (map (fun t => fst (snd t)) throats)) as [c1|] eqn:E1;
    [|discriminate].
  destruct (take p_cen (map (fun t => snd (snd t)) throats)) as [c2|] eqn:E2;
    [|discriminate].
  destruct (take _ own) as [v'|] eqn:Ev; [|discriminate].
  injection H as <-.
  destruct (nth_error v' k) as [x|] eqn:Ex; [|apply nth_error_None in Ex; lia].
  destruct (take_nth _ _ _ _ _ Ev Ex) as (o & no & _ & _ & Hval).
  rewrite nth_error_map in Hval.
  destruct (nth_error (combine throats (combine c1 c2)) no)
    as [[[t [i j]] [r1 r2]]|] eqn:Ec; [|discriminate].
  cbn [option_map fst snd] in Hval. injection Hval as Hval.
  assert (Hin : In (t, (i, j), (r1, r2)) (combine throats (combine c1 c2)))
    by (eapply nth_error_In; exact Ec).
  (* the rows read for the throat *)
  assert (Hrows : nth_error throats no = Some (t, (i, j)) /\
                  nth_error c1 no = Some r1 /\ nth_error c2 no = Some r2).
  { clear - Ec. revert throats c1 c2 Ec.
    induction no as [|no IH]; intros [|th ths] [|a c1] [|b c2] Ec; simpl in *;
      try discriminate.
    - inversion Ec; subst. auto.
    - apply IH. exact Ec. }
  destruct Hrows as (Ht & Hr1 & Hr2).
  destruct (take_nth _ _ _ _ _ E1 Hr1) as (i' & ni & Hi & Hni & Hpi).
  destruct (take_nth _ _ _ _ _ E2 Hr2) as (j' & nj & Hj & Hnj & Hpj).
  rewrite nth_error_map, Ht in Hi, Hj. cbn [option_map fst snd] in Hi, Hj.
  injection Hi as <-. injection Hj as <-.
  exists t, i, j, ni, nj.
  split; [eapply nth_error_In; exact Ht|].
  split; [exact Hni|]. split; [exact Hnj|].
  assert (Gi : nth ni p_cen None = r1) by (apply nth_error_nth; exact Hpi).
  assert (Gj : nth nj p_cen None = r2) by (apply nth_error_nth; exact Hpj).
  rewrite Gi, Gj.
  split; [rewrite Hval; reflexivity|].
  intros d Hd. injection Hd as ->.
  destruct (c2c_of_at_least _ _ _ _ Hval) as (a & b & -> & -> & Hle).
  exists a, b. auto.
Qed.

Lemma c2c_is_at_least_the_pore_distance_witness :
  let p_cen := [Some (0, 0, 0); Some (2, 0, 0)] in
  let throats := [(Some (1, 1, 0), (0, 1)%Z)] in
  let v := [c2c_of (Some (1, 1, 0)) (Some (0, 0, 0)) (Some (2, 0, 0))] in
  exists t i j ni nj,
    In (t, (i, j)) throats /\
    normalize_index (length p_cen) i = Some ni /\
    normalize_index (length p_cen) j = Some nj /\
    nth_error v 0
    = Some (c2c_of t (nth ni p_cen None) (nth nj p_cen None)) /\
    forall d, nth_error v 0 = Some (Some d) ->
      exists a b, nth_error p_cen ni = Some (Some a) /\
                  nth_error p_cen nj = Some (Some b) /\
                  norm (vsub a b) <= d.
Proof.
  intros p_cen throats v.
  apply (c2c_is_at_least_the_pore_distance p_cen throats [0%Z] v 0).
  - reflexivity.
  - simpl. lia.
Defined.

End Vertices.

(** ** [_bresenham] *)

Module Bresenham.
Import Ndarray Float InHull.
Local Open Scope R_scope.

Inductive exn :=
| QhullError
| IndexError
(** [np.linspace] given a negative or infinite number of points, or
    [nan] *)
| NotACount.

(** [np.std] *)
Definition std (l : list R) : R :=
  let n := INR (length l) in
  let m := fold_left Rplus l 0 / n in
  sqrt (fold_left Rplus (map (fun x => (x - m) * (x - m)) l) 0 / n).

(** [np.linspace(0, 1, n)] *)
Definition linspace (n : nat) : list R :=
  match n with
  | O => []
  | S O => [0]
  | _ => map (fun k => INR k * (1 / INR (n - 1))) (seq 0 n)
  end.

(** The loop [for x in np.linspace(0, 1, increments)] of one edge, from
    [a = face[i-1]] along [vec]: a point is appended unless the entries
    of its difference to the point appended before add up to 0. *)
Fixpoint along (a vec : vec3) (xs : list R) (check_p_old : vec3)
         (line_points : list vec3) : list vec3 :=
  match xs with
  | [] => line_points
  | x :: rest =>
    let check_p_new := Vertices.vadd a (vscale vec x) in
    let d := vsub check_p_new check_p_old in
    if Req_dec_T (vx d + vy d + vz d) 0
    then along a vec rest check_p_old line_points
    else along a vec rest check_p_new (line_points ++ [check_p_new])
  end.

(** The pairs [(face[i-1], face[i])] for [i] in [range(len(face))] *)
Definition edges (face : list vec3) : list (vec3 * vec3) :=
  match face with
  | [] => []
  | v :: _ => combine (last face v :: removelast face) face
  end.

Section Lines.
(** [sptl.ConvexHull(f2d, qhull_options='QJ Pp').vertices]; [None] when
    Qhull fails *)
Variable hull_vertices : list (R * R) -> option (list Z).
Variable dx : R.

(** "Find the axis with the smallest spread and remove it to make 2D" *)
Definition f2d (face : list vec3) : list (R * R) :=
  let fx := map vx face in
  let fy := map vy face in
  let fz := map vz face in
  if Rlt_dec (std fx) (std fy) then
    if Rlt_dec (std fx) (std fz) then combine fy fz
    else if Rlt_dec (std fy) (std fx) then
           if Rlt_dec (std fy) (std fz) then combine fx fz else combine fx fy
         else combine fx fy
  else if Rlt_dec (std fy) (std fx) then
         if Rlt_dec (std fy) (std fz) then combine fx fz else combine fx fy
       else combine fx fy.

(** The loop over the edges of one face in hull order *)
Fixpoint each_edge (es : list (vec3 * vec3)) (line_points : list vec3)
  : exn + list vec3 :=
  match es with
  | [] => inr line_points
  | (a, b) :: rest =>
    let vec := vsub b a in
    if Req_dec_T dx 0 then inl NotACount
    else
      let increments := ceil (Vertices.norm vec / dx) in
      if (increments <? 0)%Z then inl NotACount
      else each_edge rest (along a vec (linspace (Z.to_nat increments))
                                 (-1, -1, -1) line_points)
  end.

Fixpoint each_face (faces : list (list vec3)) (line_points : list vec3)
  : exn + list vec3 :=
  match faces with
  | [] => inr line_points
  | face :: rest =>
    match hull_vertices (f2d face) with
    | None => inl QhullError
    | Some hv =>
      match Vertices.take face hv with
      | None => inl IndexError
      | Some in_order =>
        match each_edge (edges (map (vmap (around 6)) in_order)) line_points with
        | inl e => inl e
        | inr line_points => each_face rest line_points
        end
      end
    end
  end.

Definition _bresenham (faces : list (list vec3)) : exn + list vec3 :=
  each_face faces [].

End Lines.

(** A point of the segment from [a] to [b] *)
Definition on_segment (a b p : vec3) : Prop :=
  exists x, 0 <= x <= 1 /\ p = Vertices.vadd a (vscale (vsub b a) x).

Lemma linspace_range n x : In x (linspace n) -> 0 <= x <= 1.
Proof.
  destruct n as [|[|n]].
  - contradiction.
  - intros [<-|[]]. lra.
  - change (linspace (S (S n)))
      with (map (fun k => INR k * (1 / INR (S (S n) - 1))) (seq 0 (S (S n)))).
    intros H. apply in_map_iff in H. destruct H as (k & <- & Hk).
    apply in_seq in Hk.
    replace (S (S n) - 1)%nat with (S n) by lia.
    assert (Hn : 0 < INR (S n)) by (apply lt_0_INR; lia).
    assert (Hk0 : 0 <= INR k) by apply pos_INR.
    assert (Hk1 : INR k <= INR (S n)) by (apply le_INR; lia).
    unfold Rdiv. rewrite Rmult_1_l. split.
    + apply Rmult_le_pos; [exact Hk0 | left; apply Rinv_0_lt_compat, Hn].
    + apply (Rmult_le_reg_r (INR (S n))); [exact Hn|].
      rewrite Rmult_assoc, Rinv_l by lra. lra.
Qed.

Lemma along_points a vec (P : vec3 -> Prop) xs : forall old acc,
  (forall p, In p acc -> P p) ->
  (forall x, In x xs -> P (Vertices.vadd a (vscale vec x))) ->
  forall p, In p (along a vec xs old acc) -> P p.
Proof.
  induction xs as [|x rest IH]; intros old acc Hacc Hxs p Hp; simpl in Hp.
  - apply Hacc, Hp.
  - destruct (Req_dec_T _ 0).
    + apply (IH old acc); auto. intros y Hy. apply Hxs. right. exact Hy.
    + apply (IH _ _) in Hp; auto.
      * intros q Hq. apply in_app_iff in Hq. destruct Hq as [Hq|[<-|[]]].
        -- apply Hacc, Hq.
        -- apply Hxs. left. reflexivity.
      * intros y Hy. apply Hxs. right. exact Hy.
Qed.

Lemma each_edge_points dx (P : vec3 -> Prop) es : forall acc pts,
  each_edge dx es acc = inr pts ->
  (forall p, In p acc -> P p) ->
  (forall a b p, In (a, b) es -> on_segment a b p -> P p) ->
  forall p, In p pts -> P p.
Proof.
  induction es as [|[a b] rest IH]; intros acc pts H Hacc Hes p Hp; simpl in H.
  - injection H as <-. apply Hacc, Hp.
  - destruct (Req_dec_T dx 0); [discriminate|].
    destruct (ceil (Vertices.norm (vsub b a) / dx) <? 0)%Z; [discriminate|].
    apply (IH _ _ H); [ | | exact Hp].
    + apply along_points; [exact Hacc|].
      intros x Hx. apply (Hes a b); [left; reflexivity|].
      exists x. split; [eapply linspace_range; exact Hx | reflexivity].
    + intros a' b' q Hin. apply Hes. right. exact Hin.
Qed.

Lemma removelast_In {A} (l : list A) x : In x (removelast l) -> In x l.
Proof.
  induction l as [|y l IH]; [contradiction|].
  destruct l as [|z l]; [contradiction|].
  intros [<-|H]; [left; reflexivity | right; apply IH, H].
Qed.

Lemma edges_In (face : list vec3) a b :
  In (a, b) (edges face) -> In a face /\ In b face.
Proof.
  unfold edges. destruct face as [|v rest]; [contradiction|].
  intros H. split.
  - apply in_combine_l in H. destruct H as [<-|H].
    + apply Vertices.last_In. discriminate.
    + apply removelast_In, H.
  - apply in_combine_r in H. exact H.
Qed.

Lemma each_face_points hull_vertices dx (P : vec3 -> Prop) faces : forall acc pts,
  each_face hull_vertices dx faces acc = inr pts ->
  (forall p, In p acc -> P p) ->
  (forall face a b p,
     In face faces ->
     In a (map (vmap (around 6)) face) -> In b (map (vmap (around 6)) face) ->
     on_segment a b p -> P p) ->
  forall p, In p pts -> P p.
Proof.
  induction faces as [|face rest IH]; intros acc pts H Hacc Hfaces p Hp; simpl in H.
  - injection H as <-. apply Hacc, Hp.
  - destruct (hull_vertices (f2d face)) as [hv|]; [|discriminate].
    destruct (Vertices.take face hv) as [in_order|] eqn:Et; [|discriminate].
    destruct (each_edge dx (edges (map (vmap (around 6)) in_order)) acc)
      as [e|acc'] eqn:Ee; [discriminate|].
    apply (IH _ _ H); [ | | exact Hp].
    + apply (each_edge_points dx P _ _ _ Ee); [exact Hacc|].
      intros a b q Hin Hq. apply edges_In in Hin. destruct Hin as [Ha Hb].
      assert (Hsub : forall c, In c (map (vmap (around 6)) in_order) ->
                               In c (map (vmap (around 6)) face)).
      { intros c Hc. apply in_map_iff in Hc. destruct Hc as (u & <- & Hu).
        apply in_map. eapply Vertices.take_In; [exact Et | exact Hu]. }
      apply (Hfaces face a b q); [left; reflexivity | apply Hsub, Ha
                                  | apply Hsub, Hb | exact Hq].
    + intros face' a b q Hin. apply Hfaces. right. exact Hin.
Qed.

(** X23.  Every line point lies on an edge of its face: it is a point of
    the segment between two vertices of a face, rounded to 6 decimals. *)
Theorem line_points_lie_on_the_edges hull_vertices dx faces pts :
  _bresenham hull_vertices dx faces = inr pts ->
  Forall (fun p => exists face a b,
              In face faces /\
              In a (map (vmap (around 6)) face) /\
              In b (map (vmap (around 6)) face) /\
              on_segment a b p) pts.
Proof.
  intros H. apply Forall_forall.
  apply (each_face_points hull_vertices dx _ faces [] pts H).
  - contradiction.
  - intros face a b p Hf Ha Hb Hp. exists face, a, b. auto.
Qed.

(** A face of two points, both reported by Qhull, with [dx = 1]: each of
    the two edges gives one point, its starting vertex. *)
Definition two_points : list vec3 := [(0, 0, 0); (1, 0, 0)].

Lemma around_zero : around 6 0 = 0.
Proof. apply (around_exact 6 0 0). simpl. lra. Qed.

Lemma around_one : around 6 1 = 1.
Proof. apply (around_exact 6 1 1000000). simpl. lra. Qed.

Lemma unit_edge a b :
  dot (vsub b a) (vsub b a) = 1 ->
  ceil (Vertices.norm (vsub b a) / 1) = 1%Z.
Proof.
  intros H. unfold Vertices.norm. rewrite H, sqrt_1.
  apply ceil_unique. lra.
Qed.

Lemma line_of_two_points :
  _bresenham (fun _ => Some [0; 1]%Z) 1 [two_points]
  = inr [Vertices.vadd (1, 0, 0) (vscale (vsub (0, 0, 0) (1, 0, 0)) 0);
         Vertices.vadd (0, 0, 0) (vscale (vsub (1, 0, 0) (0, 0, 0)) 0)].
Proof.
  unfold _bresenham, two_points. cbn [each_face].
  change (Vertices.take [(0, 0, 0); (1, 0, 0)] [0; 1]%Z)
    with (Some [(0, 0, 0); (1, 0, 0)]).
  cbn [map]. unfold vmap, vx, vy, vz. cbn [fst snd].
  rewrite around_zero, around_one.
  cbn [edges last removelast combine each_edge].
  destruct (Req_dec_T 1 0) as [E|_]; [lra|].
  rewrite !unit_edge
    by (unfold dot, vsub, vx, vy, vz; cbn [fst snd]; ring).
  change (1 <? 0)%Z with false. change (Z.to_nat 1) with 1%nat.
  cbn [linspace along].
  repeat match goal with
         | |- context [Req_dec_T ?x 0] =>
             destruct (Req_dec_T x 0) as [E|_];
             [exfalso; revert E;
              unfold Vertices.vadd, vscale, vsub, vx, vy, vz; cbn [fst snd]; lra|]
         end.
  reflexivity.
Qed.

Lemma line_points_lie_on_the_edges_witness :
  Forall (fun p => exists face a b,
              In face [two_points] /\
              In a (map (vmap (around 6)) face) /\
              In b (map (vmap (around 6)) face) /\
              on_segment a b p)
         [Vertices.vadd (1, 0, 0) (vscale (vsub (0, 0, 0) (1, 0, 0)) 0);
          Vertices.vadd (0, 0, 0) (vscale (vsub (1, 0, 0) (0, 0, 0)) 0)].
Proof.
  apply (line_points_lie_on_the_edges (fun _ => Some [0; 1]%Z) 1 [two_points]).
  exact line_of_two_points.
Defined.

(** *** The vertices are line points *)

Lemma along_keeps a vec xs : forall old acc p,
  In p acc -> In p (along a vec xs old acc).
Proof.
  induction xs as [|x rest IH]; intros old acc p Hp; simpl; [exact Hp|].
  destruct (Req_dec_T _ 0); apply IH; [exact Hp|].
  apply in_or_app. left. exact Hp.
Qed.

Lemma start_of_edge (a vec : vec3) : Vertices.vadd a (vscale vec 0) = a.
Proof.
  destruct a as [[a1 a2] a3]. unfold Vertices.vadd, vscale, vx, vy, vz.
  cbn [fst snd]. repeat (f_equal; try lra).
Qed.

Lemma linspace_first n : (0 < n)%nat -> exists rest, linspace n = 0 :: rest.
Proof.
  destruct n as [|[|n]]; [lia | eexists; reflexivity |]. intros _.
  change (linspace (S (S n)))
    with (map (fun k => INR k * (1 / INR (S (S n) - 1))) (seq 0 (S (S n)))).
  cbn [seq map]. eexists. f_equal. simpl INR. apply Rmult_0_l.
Qed.

Lemma along_start a vec n acc :
  (0 < n)%nat -> vx a + vy a + vz a <> -3 ->
  In a (along a vec (linspace n) (-1, -1, -1) acc).
Proof.
  intros Hn Hsum. destruct (linspace_first n Hn) as [rest ->].
  cbn [along]. rewrite start_of_edge.
  destruct (Req_dec_T _ 0) as [E|_].
  - exfalso. apply Hsum. revert E. destruct a as [[a1 a2] a3].
    unfold vsub, vx, vy, vz. cbn [fst snd]. lra.
  - apply along_keeps. apply in_or_app. right. left. reflexivity.
Qed.

Lemma norm_positive a b : a <> b -> 0 < Vertices.norm (vsub b a).
Proof.
  intros Hne. unfold Vertices.norm. apply sqrt_lt_R0.
  destruct (Rle_lt_dec (dot (vsub b a) (vsub b a)) 0) as [Hle|Hlt]; [|exact Hlt].
  exfalso. apply Hne.
  destruct a as [[a1 a2] a3], b as [[b1 b2] b3].
  unfold dot, vsub, vx, vy, vz in Hle. cbn [fst snd] in Hle.
  pose proof (Rle_0_sqr (b1 - a1)) as H1. pose proof (Rle_0_sqr (b2 - a2)) as H2.
  pose proof (Rle_0_sqr (b3 - a3)) as H3. unfold Rsqr in *.
  assert (E1 : (b1 - a1) * (b1 - a1) = 0) by lra.
  assert (E2 : (b2 - a2) * (b2 - a2) = 0) by lra.
  assert (E3 : (b3 - a3) * (b3 - a3) = 0) by lra.
  apply Rsqr_0_uniq in E1, E2, E3.
  repeat (f_equal; try lra).
Qed.

Lemma increments_positive a b dx :
  0 < dx -> a <> b -> (0 < ceil (Vertices.norm (vsub b a) / dx))%Z.
Proof.
  intros Hdx Hne. apply lt_IZR.
  eapply Rlt_le_trans; [|apply InHullFacts.le_ceil].
  apply Rdiv_lt_0_compat; [apply norm_positive, Hne | exact Hdx].
Qed.

Lemma each_edge_keeps dx es : forall acc pts p,
  each_edge dx es acc = inr pts -> In p acc -> In p pts.
Proof.
  induction es as [|[a b] rest IH]; intros acc pts p H Hp; simpl in H.
  - injection H as <-. exact Hp.
  - destruct (Req_dec_T dx 0); [discriminate|].
    destruct (ceil (Vertices.norm (vsub b a) / dx) <? 0)%Z; [discriminate|].
    apply (IH _ _ _ H). apply along_keeps, Hp.
Qed.

Lemma each_edge_starts dx es : forall acc pts a b,
  each_edge dx es acc = inr pts -> 0 < dx ->
  In (a, b) es -> a <> b -> vx a + vy a + vz a <> -3 -> In a pts.
Proof.
  induction es as [|[a' b'] rest IH]; intros acc pts a b H Hdx Hin Hne Hsum;
    [contradiction|].
  simpl in H. destruct (Req_dec_T dx 0); [discriminate|].
  destruct (ceil (Vertices.norm (vsub b' a') / dx) <? 0)%Z; [discriminate|].
  destruct Hin as [[= -> ->]|Hin].
  - apply (each_edge_keeps _ _ _ _ _ H). apply along_start; [|exact Hsum].
    pose proof (increments_positive a b dx Hdx Hne). lia.
  - apply (IH _ _ a b H); assumption.
Qed.

Lemma each_face_keeps hull_vertices dx faces : forall acc pts p,
  each_face hull_vertices dx faces acc = inr pts -> In p acc -> In p pts.
Proof.
  induction faces as [|face rest IH]; intros acc pts p H Hp; simpl in H.
  - injection H as <-. exact Hp.
  - destruct (hull_vertices (f2d face)) as [hv|]; [|discriminate].
    destruct (Vertices.take face hv) as [in_order|]; [|discriminate].
    destruct (each_edge dx _ acc) as [e|acc'] eqn:Ee; [discriminate|].
    apply (IH _ _ _ H). apply (each_edge_keeps _ _ _ _ _ Ee), Hp.
Qed.

(** X24.  With a positive [dx], the vertex at which an edge of positive
    length starts is a line point, provided its three coordinates do not
    add up to -3 (they are not negative once the vertices are translated
    to the origin): the lines of a face meet at its hull vertices. *)
Theorem edge_starts_are_line_points
        hull_vertices dx faces pts face hv in_order a b :
  _bresenham hull_vertices dx faces = inr pts -> 0 < dx ->
  In face faces ->
  hull_vertices (f2d face) = Some hv -> Vertices.take face hv = Some in_order ->
  In (a, b) (edges (map (vmap (around 6)) in_order)) ->
  a <> b -> vx a + vy a + vz a <> -3 ->
  In a pts.
Proof.
  unfold _bresenham. generalize (@nil vec3) as acc.
  induction faces as [|face' rest IH]; intros acc H Hdx Hin Hhv Ht He Hne Hsum;
    [contradiction|].
  simpl in H.
  destruct (hull_vertices (f2d face')) as [hv'|] eqn:Ehv; [|discriminate].
  destruct (Vertices.take face' hv') as [in_order'|] eqn:Et; [|discriminate].
  destruct (each_edge dx _ acc) as [e|acc'] eqn:Ee; [discriminate|].
  destruct Hin as [->|Hin].
  - rewrite Hhv in Ehv. injection Ehv as <-. rewrite Ht in Et. injection Et as <-.
    apply (each_face_keeps _ _ _ _ _ _ H).
    apply (each_edge_starts _ _ _ _ a b Ee); assumption.
  - apply (IH acc'); assumption.
Qed.

Lemma edge_starts_are_line_points_witness :
  In (1, 0, 0)
     [Vertices.vadd (1, 0, 0) (vscale (vsub (0, 0, 0) (1, 0, 0)) 0);
      Vertices.vadd (0, 0, 0) (vscale (vsub (1, 0, 0) (0, 0, 0)) 0)].
Proof.
  apply (edge_starts_are_line_points
           (fun _ => Some [0; 1]%Z) 1 [two_points] _ two_points [0; 1]%Z two_points
           (1, 0, 0) (0, 0, 0) line_of_two_points).
  - lra.
  - left. reflexivity.
  - reflexivity.
  - reflexivity.
  - unfold two_points. cbn [map]. unfold vmap, vx, vy, vz. cbn [fst snd].
    rewrite around_zero, around_one. left. reflexivity.
  - intros H. injection H as H. lra.
  - unfold vx, vy, vz. simpl. lra.
Defined.

End Bresenham.

(** ** [plot_porosity_profile]: the curves that are plotted *)

Module PorosityProfile.
Import Ndarray FibreSlice.
Local Open Scope Q_scope.

(** [sp.sum] and [sp.size] of a two-dimensional array *)
Definition total (a : list (list Z)) : Z := fold_left Z.add (concat a) 0%Z.
Definition size (a : list (list Z)) : nat := length (concat a).

(** [px[x] = sp.sum(a); px[x] /= sp.size(a)]; [None] is the [nan] that
    the division of 0 by 0 leaves *)
Definition fraction (a : list (list Z)) : option Q :=
  if (size a =? 0)%nat then None
  else Some (inject_Z (total a) / inject_Z (Z.of_nat (size a))).

(** The arrays [px], [py] and [pz]; nothing when the object has no fibre
    image. *)
Definition plot_porosity_profile (fibre_image : option (array3 Z))
  : option (list (option Q) * list (option Q) * list (option Q)) :=
  match fibre_image with
  | None => None
  | Some img =>
    Some (map (fun x => fraction (x_slice img x)) (span 0 (dim_x img)),
          map (fun y => fraction (y_slice img y)) (span 0 (dim_y img)),
          map (fun z => fraction (z_slice img z)) (span 0 (dim_z img)))
  end.

(** A value between 0 and 1 *)
Definition is_fraction (v : option Q) : Prop :=
  exists q, v = Some q /\ 0 <= q <= 1.

Lemma sum_of_bits (l : list Z) : forall acc,
  Forall (fun b => (0 <= b <= 1)%Z) l ->
  (acc <= fold_left Z.add l acc <= acc + Z.of_nat (length l))%Z.
Proof.
  induction l as [|b l IH]; intros acc H; simpl; [lia|].
  inversion H as [|b' l' Hb Hl]; subst.
  specialize (IH (acc + b)%Z Hl). lia.
Qed.

Lemma entry_bit img v :
  Forall (fun b => b = 0%Z \/ b = 1%Z) (cells img) -> (0 <= entry img v <= 1)%Z.
Proof.
  intros H. unfold entry.
  destruct (nth_in_or_default (offset img v) (cells img) 0%Z) as [Hin|E]; [|rewrite E; lia].
  rewrite Forall_forall in H. destruct (H _ Hin) as [->| ->]; lia.
Qed.

Lemma grid_bits (f : nat -> nat -> Z) rows cols :
  (forall a b, (0 <= f a b <= 1)%Z) ->
  Forall (fun b => (0 <= b <= 1)%Z)
         (concat (map (fun a => map (fun b => f a b) cols) rows)).
Proof.
  intros H. apply Forall_concat. apply Forall_forall. intros l Hl.
  apply in_map_iff in Hl. destruct Hl as (a & <- & _).
  apply Forall_forall. intros x Hx. apply in_map_iff in Hx.
  destruct Hx as (b & <- & _). apply H.
Qed.

Lemma grid_size (f : nat -> nat -> Z) rows cols :
  length (concat (map (fun a => map (fun b => f a b) cols) rows))
  = (length rows * length cols)%nat.
Proof.
  induction rows as [|a rows IH]; [reflexivity|].
  cbn [map concat]. rewrite length_app, length_map, IH. simpl. lia.
Qed.

Lemma fraction_of_bits (a : list (list Z)) :
  Forall (fun b => (0 <= b <= 1)%Z) (concat a) -> (0 < size a)%nat ->
  is_fraction (fraction a).
Proof.
  intros Hbits Hsize. unfold fraction, is_fraction.
  destruct (size a =? 0)%nat eqn:E; [apply Nat.eqb_eq in E; lia|].
  eexists. split; [reflexivity|].
  pose proof (sum_of_bits (concat a) 0%Z Hbits) as Hsum.
  fold (total a) in Hsum. fold (size a) in Hsum.
  assert (Hpos : 0 < inject_Z (Z.of_nat (size a))).
  { change 0 with (inject_Z 0). rewrite <- Zlt_Qlt. lia. }
  split.
  - apply Qle_shift_div_l; [exact Hpos|]. rewrite Qmult_0_l.
    change 0 with (inject_Z 0). rewrite <- Zle_Qle. lia.
  - apply Qle_shift_div_r; [exact Hpos|]. rewrite Qmult_1_l.
    rewrite <- Zle_Qle. lia.
Qed.

(** X25.  For a fibre image of zeros and ones with no empty axis, the
    three curves have one value per slice of their axis and every value
    is a number between 0 and 1, the fraction of ones in the slice. *)
Theorem profile_values_are_fractions img px py pz :
  Forall (fun b => b = 0%Z \/ b = 1%Z) (cells img) ->
  (0 < dim_x img)%nat -> (0 < dim_y img)%nat -> (0 < dim_z img)%nat ->
  plot_porosity_profile (Some img) = Some (px, py, pz) ->
  (length px = dim_x img /\ length py = dim_y img /\ length pz = dim_z img) /\
  Forall is_fraction px /\ Forall is_fraction py /\ Forall is_fraction pz.
Proof.
  intros Hbits Hx Hy Hz H. unfold plot_porosity_profile in H.
  injection H as <- <- <-.
  assert (Hspan : forall n, length (span 0 n) = n)
    by (intros n; unfold span; rewrite length_seq; lia).
  split; [rewrite !length_map, !Hspan; auto|].
  repeat split; apply Forall_forall; intros v Hv; apply in_map_iff in Hv;
    destruct Hv as (k & <- & _); apply fraction_of_bits;
    try (apply grid_bits; intros a b; apply entry_bit, Hbits);
    unfold size, x_slice, y_slice, z_slice; rewrite grid_size, !Hspan; nia.
Qed.

Lemma profile_values_are_fractions_witness :
  (length [fraction (x_slice (mkArray 1 1 2 [0; 1]%Z) 0)] = dim_x (mkArray 1 1 2 [0; 1]%Z) /\
   length [fraction (y_slice (mkArray 1 1 2 [0; 1]%Z) 0)] = dim_y (mkArray 1 1 2 [0; 1]%Z) /\
   length [fraction (z_slice (mkArray 1 1 2 [0; 1]%Z) 0);
           fraction (z_slice (mkArray 1 1 2 [0; 1]%Z) 1)]
   = dim_z (mkArray 1 1 2 [0; 1]%Z)) /\
  Forall is_fraction [fraction (x_slice (mkArray 1 1 2 [0; 1]%Z) 0)] /\
  Forall is_fraction [fraction (y_slice (mkArray 1 1 2 [0; 1]%Z) 0)] /\
  Forall is_fraction [fraction (z_slice (mkArray 1 1 2 [0; 1]%Z) 0);
                      fraction (z_slice (mkArray 1 1 2 [0; 1]%Z) 1)].
Proof.
  apply (profile_values_are_fractions (mkArray 1 1 2 [0; 1]%Z)).
  - simpl. repeat (apply Forall_cons; [auto|]). apply Forall_nil.
  - simpl. lia.
  - simpl. lia.
  - simpl. lia.
  - reflexivity.
Defined.

End PorosityProfile.

(** ** [_throat_props]: the scalars of occluded and of open throats *)

Module ThroatOutputs.
Import Ndarray Float InHull ThroatProps.
Local Open Scope R_scope.

(** *** The facet in the plane *)

(** [rotate_facet] and [M]: no matrix when the facet is already aligned *)
Definition rotation_of (lib : library) (normal : vec3) : option matrix :=
  if aligned lib normal then None
  else Some (rotation_matrix lib (angle_between_vectors lib normal z_axis)
                             (vector_product lib normal z_axis)).

(** [facet]: the vertices as they stand, or rotated into the plane *)
Definition facet_of (lib : library) (vertices : list vec3) (normal : vec3)
  : list vec3 :=
  match rotation_of lib normal with
  | None => vertices
  | Some M => map (fun v => dot_T v M) vertices
  end.

(** *** What is taken from scikit-image and scipy *)

(** [regionprops]: the area of a region is positive (it counts the pixels
    of a label that occurs) and its [equivalent_diameter] is the diameter
    of the circle of the same area, [sqrt(4 * area / pi)].  That the
    perimeter of a region is positive is assumed of the regions met. *)
Definition region_facts (props : region) : Prop :=
  0 < rp_area props /\
  0 < rp_perimeter props /\
  rp_equivalent_diameter props = sqrt (4 * rp_area props / PI).

Definition regionprops_facts (lib : library) : Prop :=
  forall img props, In props (regionprops lib img) -> region_facts props.

(** A transform returns an image of the shape of its argument. *)
Definition keeps_shape (transform : image2 -> image2) : Prop :=
  forall img, rows (transform img) = rows img /\ cols (transform img) = cols img.

(** [convex_hull_image]: the hull of the points of a padded image does not
    reach the ring of padding. *)
Definition hull_clear_of_padding (lib : library) : Prop :=
  forall img a b,
    (a = 0 \/ a = rows img + 1 \/ b = 0 \/ b = cols img + 1)%nat ->
    pixel (convex_hull_image lib (pad img)) a b = 0.

(** The distance between the pixels [(a, b)] and [(c, d)] *)
Definition sq_distance (a b c d : nat) : R :=
  (INR a - INR c) * (INR a - INR c) + (INR b - INR d) * (INR b - INR d).

Definition distance (a b c d : nat) : R := sqrt (sq_distance a b c d).

(** [distance_transform_edt]: the value at a pixel is at most the distance
    from it to any pixel of the image that is zero. *)
Definition edt_within_distance (lib : library) : Prop :=
  forall img a b c d,
    (c < rows img)%nat -> (d < cols img)%nat -> pixel img c d = 0 ->
    pixel (distance_transform_edt lib img) a b <= distance a b c d.

(** *** Libraries to run the pass with *)

(** The filled rectangle inside the outermost ring of an image: what
    [convex_hull_image] returns for a padded image that holds the four
    corners of the rectangle. *)
Definition box_hull (img : image2) : image2 :=
  mkImage2 (rows img) (cols img)
           (fun a b =>
              if ((1 <=? a) && (a + 2 <=? rows img) &&
                  (1 <=? b) && (b + 2 <=? cols img))%nat
              then 1 else 0).

(** The pixels of an image that are zero *)
Definition zero_pixels (img : image2) : list (nat * nat) :=
  filter (fun p => if Req_dec_T (pixel img (fst p) (snd p)) 0 then true else false)
         (positions img).

(** The exact Euclidean distance transform: 0 on a pixel that is zero,
    elsewhere the distance to the nearest pixel that is zero. *)
Definition exact_edt (img : image2) : image2 :=
  mkImage2 (rows img) (cols img)
           (fun a b =>
              if Req_dec_T (pixel img a b) 0 then 0
              else
                match min_of (map (fun p => sq_distance a b (fst p) (snd p))
                                  (zero_pixels img)) with
                | Some m => sqrt m
                | None => 0
                end).

(** A library for facets in the plane that are rectangles: the hull is the
    filled rectangle, the distance transform is exact, no region is
    reported. *)
Definition raster_library : library :=
  mkLibrary (fun _ _ => 0) cross (fun _ _ => identity) (fun M => M)
            box_hull exact_edt (fun _ => []).

(** A region of four pixels, the corners of an image of 201 x 201 *)
Definition corner_region : region :=
  mkRegion (100, 100) (sqrt (4 * 4 / PI)) 4 8
           [(0, 0); (200, 0); (200, 200); (0, 200)]%Z.

(** A library that finds that region in every image, after a distance
    transform that is 1000 on each of three pixels. *)
Definition corner_library : library :=
  mkLibrary (fun _ _ => 0) cross (fun _ _ => identity) (fun M => M)
            (fun img => img) (fun _ => mkImage2 1 3 (fun _ _ => 1000))
            (fun _ => [corner_region]).

(** The entries a pass leaves, read off its result *)
Definition stored (result : exn + throat) : throat :=
  match result with
  | inr t => t
  | inl _ => initial 0 0
  end.

(** The entries for the square with a fibre radius of 1 *)
Definition open_square : throat :=
  stored (throat_props_of corner_library square square_normal 1 (initial 1 1)).

(** *** The measurements a pass stores *)

(** What a pass leaves of the entries [t]: the entries as they were; the
    three scalars zeroed; or the measurements of a region that
    [regionprops] returned, divided by a positive scale factor (by its
    square for the area), together with offset vertices. *)
Definition measures (lib : library) (t t' : throat) : Prop :=
  t' = t \/
  t' = mkThroat 0 0 0 (inradius t) (centroid t) (incentre t) (eroded_verts t) \/
  exists props img f r c i vs,
    In props (regionprops lib img) /\ 0 < f /\
    t' = mkThroat (rp_area props / (f * f)) (rp_perimeter props / f)
                  (rp_equivalent_diameter props / f) r
                  (Some c) (Some i) (Some vs).

Lemma throat_props_of_facet lib vertices normal offset t :
  throat_props_of lib vertices normal offset t
  = analyse lib (rotation_of lib normal) (facet_of lib vertices normal) offset t.
Proof.
  unfold throat_props_of, facet_of, rotation_of.
  destruct (aligned lib normal); reflexivity.
Qed.

Lemma measure_measures lib rotation translation f z_plane int_pts eroded
      props img t t' :
  0 < f -> In props (regionprops lib img) ->
  measure lib rotation translation f z_plane int_pts eroded props t = inr t' ->
  measures lib t t'.
Proof.
  intros Hf Hin. unfold measure.
  destruct (rp_centroid props) as [x0 y0].
  destruct (argmax (distance_transform_edt lib eroded)) as [inx0 iny0].
  destruct (nearest_coords (rp_coords props) int_pts []) as [offset_verts|];
    [|discriminate].
  destruct (3 <=? length offset_verts)%nat; intros [= <-];
    cbn [area perimeter equiv_diameter inradius centroid incentre eroded_verts].
  - right. right. exists props, img, f. do 4 eexists.
    split; [exact Hin|]. split; [exact Hf|]. reflexivity.
  - right. left. reflexivity.
Qed.

Lemma extract_measures lib rotation translation pts z order f r t t' :
  0 < f ->
  extract lib rotation translation pts z order f r t = inr t' ->
  measures lib t t'.
Proof.
  intros Hf. unfold extract.
  destruct (min_of _); [|discriminate].
  destruct (min_of _); [|discriminate].
  destruct (max_of _); [|discriminate].
  destruct (max_of _); [|discriminate].
  destruct (written _ _ _) as [ps|]; [|discriminate].
  destruct (Rge_dec _ _); [|intros [= <-]; left; reflexivity].
  destruct (regionprops lib _) as [|props [|]] eqn:E;
    try (intros [= <-]; left; reflexivity).
  intros H. eapply measure_measures; [exact Hf | | exact H].
  rewrite E. left. reflexivity.
Qed.

Lemma analyse_measures lib rotation facet offset t t' :
  analyse lib rotation facet offset t = inr t' -> measures lib t t'.
Proof.
  unfold analyse.
  destruct (min_of (map vx facet)) as [tx|] eqn:Htx; [|discriminate].
  destruct (min_of (map vy facet)) as [ty|] eqn:Hty; [|discriminate].
  destruct (max_of _) as [max_pts|] eqn:Hm; [|discriminate].
  destruct (max_of (map fst _)) as [max1|] eqn:Hm1; [|discriminate].
  destruct (max_of (map snd _)) as [max2|] eqn:Hm2; [|discriminate].
  destruct (Req_dec_T max_pts 0) as [|Hnz]; [discriminate|].
  destruct (Rle_dec _ _); [|intros [= <-]; left; reflexivity].
  apply extract_measures.
  apply Rdiv_lt_0_compat; [unfold res; lra|].
  exact (max_factor_positive facet tx ty max_pts max1 max2 Htx Hm Hm1 Hm2 Hnz).
Qed.

(** The scalars of a region, divided by the scale factor, are positive
    and those of a circle. *)
Lemma scaled_region_is_circular props f :
  region_facts props -> 0 < f ->
  0 < rp_area props / (f * f) /\
  0 < rp_perimeter props / f /\
  0 < rp_equivalent_diameter props / f /\
  PI * (rp_equivalent_diameter props / f / 2) ^ 2 = rp_area props / (f * f).
Proof.
  intros (Ha & Hp & Hd) Hf.
  pose proof PI_RGT_0 as Hpi.
  assert (Hq : 0 < 4 * rp_area props / PI)
    by (apply Rdiv_lt_0_compat; lra).
  assert (Hs : 0 < sqrt (4 * rp_area props / PI)) by (apply sqrt_lt_R0, Hq).
  assert (Hsq : sqrt (4 * rp_area props / PI) * sqrt (4 * rp_area props / PI)
                = 4 * rp_area props / PI) by (apply sqrt_sqrt; lra).
  rewrite Hd. repeat split.
  - apply Rdiv_lt_0_compat; [lra | apply Rmult_lt_0_compat; lra].
  - apply Rdiv_lt_0_compat; lra.
  - apply Rdiv_lt_0_compat; lra.
  - replace (PI * (sqrt (4 * rp_area props / PI) / f / 2) ^ 2)
      with (PI * (sqrt (4 * rp_area props / PI) * sqrt (4 * rp_area props / PI))
            / (4 * (f * f))) by (field; lra).
    rewrite Hsq. field. lra.
Qed.

(** *** Sums over the pixels of an image *)

Section Sums.
Context {A : Type} (g : A -> R).

Lemma sum_from l : forall a,
  fold_left (fun s x => s + g x) l a = a + fold_left (fun s x => s + g x) l 0.
Proof.
  induction l as [|x l IH]; intros a; simpl; [lra|].
  rewrite (IH (a + g x)), (IH (0 + g x)). lra.
Qed.

Lemma sum_not_positive l :
  (forall x, In x l -> g x <= 0) -> fold_left (fun s x => s + g x) l 0 <= 0.
Proof.
  induction l as [|x l IH]; intros H; simpl; [lra|].
  rewrite sum_from.
  pose proof (H x (or_introl eq_refl)).
  pose proof (IH (fun y Hy => H y (or_intror Hy))). lra.
Qed.

(** A sum of terms that are at most 1, and at most 0 away from one
    position, is at most 1. *)
Lemma sum_at_most_one (eq_dec : forall x y : A, {x = y} + {x <> y}) (c : A) l :
  NoDup l ->
  (forall x, In x l -> g x <= 1) ->
  (forall x, In x l -> x <> c -> g x <= 0) ->
  fold_left (fun s x => s + g x) l 0 <= 1.
Proof.
  induction 1 as [|x l Hx Hnd IH]; intros H1 H0; simpl; [lra|].
  rewrite sum_from.
  destruct (eq_dec x c) as [E|E].
  - pose proof (H1 x (or_introl eq_refl)).
    assert (fold_left (fun s y => s + g y) l 0 <= 0).
    { apply sum_not_positive. intros y Hy. apply H0; [right; exact Hy|].
      intros ->. subst x. contradiction. }
    lra.
  - pose proof (H0 x (or_introl eq_refl) E).
    assert (fold_left (fun s y => s + g y) l 0 <= 1).
    { apply IH; intros y Hy; [apply H1 | apply H0]; right; exact Hy. }
    lra.
Qed.

End Sums.

Lemma positions_in img a b :
  In (a, b) (positions img) <-> (a < rows img /\ b < cols img)%nat.
Proof.
  unfold positions. rewrite in_flat_map. split.
  - intros (x & Hx & Hin). apply in_map_iff in Hin.
    destruct Hin as (y & E & Hy). injection E as <- <-.
    apply in_seq in Hx. apply in_seq in Hy. lia.
  - intros [Ha Hb]. exists a. split; [apply in_seq; lia|].
    apply in_map, in_seq. lia.
Qed.

Lemma row_NoDup (a : nat) (l : list nat) :
  NoDup l -> NoDup (map (fun b => (a, b)) l).
Proof.
  induction 1 as [|x l Hx Hnd IH]; simpl; constructor; [|exact IH].
  intros Hin. apply in_map_iff in Hin. destruct Hin as (y & E & Hy).
  injection E as ->. contradiction.
Qed.

Lemma rows_NoDup (ncols : nat) : forall nrows start,
  NoDup (flat_map (fun a => map (fun b => (a, b)) (seq 0 ncols)) (seq start nrows)).
Proof.
  induction nrows as [|nrows IH]; intros start; simpl; [constructor|].
  apply NoDup_app.
  - apply row_NoDup, seq_NoDup.
  - apply IH.
  - intros [a b] Hin Hin'. apply in_map_iff in Hin.
    destruct Hin as (y & E & _). injection E as <- <-.
    apply in_flat_map in Hin'. destruct Hin' as (x & Hx & Hin').
    apply in_map_iff in Hin'. destruct Hin' as (y' & E & _).
    injection E as -> _. apply in_seq in Hx. lia.
Qed.

Lemma positions_NoDup img : NoDup (positions img).
Proof. apply rows_NoDup. Qed.

Lemma pixel_eq_dec (p q : nat * nat) : {p = q} + {p <> q}.
Proof. decide equality; apply Nat.eq_dec. Qed.

(** *** The image at a scaled offset of half the span *)

Lemma threshold_pixel r img a b :
  0 <= r ->
  pixel (threshold r img) a b = if Rgt_dec (pixel img a b) r then 1 else 0.
Proof.
  intros Hr. unfold threshold. cbn [pixel].
  destruct (Rle_dec (pixel img a b) r) as [Hle|Hgt].
  - destruct (Rgt_dec 0 r); [lra|].
    destruct (Rgt_dec (pixel img a b) r); [lra | reflexivity].
  - destruct (Rgt_dec (pixel img a b) r); [reflexivity | lra].
Qed.

Lemma distance_along_rows a b c : distance a b c b = Rabs (INR a - INR c).
Proof.
  unfold distance, sq_distance.
  replace ((INR a - INR c) * (INR a - INR c) + (INR b - INR b) * (INR b - INR b))
    with (Rsqr (INR a - INR c)) by (unfold Rsqr; ring).
  apply sqrt_Rsqr_abs.
Qed.

Lemma distance_along_cols a b d : distance a b a d = Rabs (INR b - INR d).
Proof.
  unfold distance, sq_distance.
  replace ((INR a - INR a) * (INR a - INR a) + (INR b - INR d) * (INR b - INR d))
    with (Rsqr (INR b - INR d)) by (unfold Rsqr; ring).
  apply sqrt_Rsqr_abs.
Qed.

Lemma INR_100 : INR 100 = 100.
Proof. rewrite INR_IZR_INZ. reflexivity. Qed.

Lemma far_apart (a c : nat) :
  100 < Rabs (INR a - INR c) -> (c + 100 < a \/ a + 100 < c)%nat.
Proof.
  intros H. destruct (le_lt_dec a c) as [Hle|Hlt].
  - right. apply INR_lt. rewrite plus_INR, INR_100.
    apply le_INR in Hle. rewrite Rabs_left1 in H by lra. lra.
  - left. apply INR_lt. rewrite plus_INR, INR_100.
    apply lt_INR in Hlt. rewrite Rabs_pos_eq in H by lra. lra.
Qed.

(** In a padded image of at most 203 x 203 only the pixel (101, 101) is
    further than 100 from the ring of padding: after the threshold at half
    the span at most one pixel is left. *)
Lemma eroded_sum lib img :
  keeps_shape (convex_hull_image lib) ->
  keeps_shape (distance_transform_edt lib) ->
  hull_clear_of_padding lib ->
  edt_within_distance lib ->
  (rows img <= 201)%nat -> (cols img <= 201)%nat ->
  sum_pixels (threshold (res / 2)
                        (distance_transform_edt lib (convex_hull_image lib (pad img))))
  <= 1.
Proof.
  intros Hhull Hedt Hclear Hdist Hrows Hcols.
  set (hull := convex_hull_image lib (pad img)).
  assert (Er : rows hull = (rows img + 2)%nat)
    by (unfold hull; rewrite (proj1 (Hhull _)); reflexivity).
  assert (Ec : cols hull = (cols img + 2)%nat)
    by (unfold hull; rewrite (proj2 (Hhull _)); reflexivity).
  assert (Hr : 0 <= res / 2) by (unfold res; lra).
  unfold sum_pixels.
  apply (sum_at_most_one _ pixel_eq_dec (101, 101)%nat).
  - apply positions_NoDup.
  - intros [a b] _. cbn [fst snd]. rewrite (threshold_pixel _ _ _ _ Hr).
    destruct (Rgt_dec _ _); lra.
  - intros [a b] Hin Hne. cbn [fst snd]. rewrite (threshold_pixel _ _ _ _ Hr).
    destruct (Rgt_dec _ _) as [Hgt|]; [|lra]. exfalso.
    apply positions_in in Hin. cbn [rows cols threshold] in Hin.
    rewrite (proj1 (Hedt _)), (proj2 (Hedt _)), Er, Ec in Hin.
    destruct Hin as [Ha Hb]. unfold res in Hgt.
    assert (Hfar : forall c d, (c < rows hull)%nat -> (d < cols hull)%nat ->
                               pixel hull c d = 0 -> 100 < distance a b c d).
    { intros c d Hc Hd Hz. pose proof (Hdist hull a b c d Hc Hd Hz). lra. }
    assert (H1 : 100 < Rabs (INR a - INR 0)).
    { rewrite <- (distance_along_rows a b 0). apply Hfar; [lia | lia |].
      apply Hclear. auto. }
    assert (H2 : 100 < Rabs (INR a - INR (rows img + 1))).
    { rewrite <- (distance_along_rows a b (rows img + 1)). apply Hfar; [lia | lia |].
      apply Hclear. auto. }
    assert (H3 : 100 < Rabs (INR b - INR 0)).
    { rewrite <- (distance_along_cols a b 0). apply Hfar; [lia | lia |].
      apply Hclear. auto. }
    assert (H4 : 100 < Rabs (INR b - INR (cols img + 1))).
    { rewrite <- (distance_along_cols a b (cols img + 1)). apply Hfar; [lia | lia |].
      apply Hclear. auto. }
    apply far_apart in H1, H2, H3, H4.
    apply Hne. f_equal; lia.
Qed.

(** *** No point is drawn outside the image *)

Lemma min_of_inhabited l x : In x l -> exists m, min_of l = Some m.
Proof. destruct l; [contradiction|]. intros _. eexists. reflexivity. Qed.

Lemma max_of_inhabited l x : In x l -> exists m, max_of l = Some m.
Proof. destruct l; [contradiction|]. intros _. eexists. reflexivity. Qed.

Lemma ceil_lt x : IZR (ceil x) < x + 1.
Proof.
  unfold ceil. rewrite opp_IZR.
  pose proof (proj2 (base_Int_part (- x))). lra.
Qed.

Lemma ceil_bounds x m : 0 <= x <= IZR m -> (0 <= ceil x <= m)%Z.
Proof.
  intros [H0 Hm]. pose proof (InHullFacts.le_ceil x). pose proof (ceil_lt x).
  split.
  - apply le_IZR. lra.
  - apply Z.lt_succ_r, lt_IZR. rewrite succ_IZR. lra.
Qed.

Lemma rint_in_image x m :
  0 <= x <= m -> (0 <= rint x < Z.of_nat (Z.to_nat (ceil m + 1)))%Z.
Proof.
  intros [H0 Hm].
  pose proof (InHullVolume.rint_near x) as [Hlo Hhi].
  pose proof (InHullFacts.le_ceil m) as Hc.
  assert (Hnn : (-1 < rint x)%Z) by (apply lt_IZR; lra).
  assert (Hlt : (rint x < ceil m + 1)%Z) by (apply lt_IZR; rewrite plus_IZR; lra).
  lia.
Qed.

Lemma written_defined nrows ncols int_pts :
  Forall (fun p => (0 <= fst p < Z.of_nat nrows)%Z /\
                   (0 <= snd p < Z.of_nat ncols)%Z) int_pts ->
  exists ps, written nrows ncols int_pts = Some ps.
Proof.
  induction 1 as [|[a b] l [Ha Hb] _ [ps IH]]; simpl.
  - eexists. reflexivity.
  - cbn [fst snd] in Ha, Hb.
    rewrite (normalize_index_nonnegative _ _ Ha),
            (normalize_index_nonnegative _ _ Hb), IH.
    eexists. reflexivity.
Qed.

(** *** The pass at a scaled offset of half the span *)

(** The body of [if r <= res/2:] at [r = res/2], for points that scale
    into [0 .. res] and reach 0 on both axes: the image is at most
    201 x 201, every point is drawn, fewer than 3 pixels are left and
    nothing is stored. *)
Lemma extract_at_half_the_span lib rotation translation pts z order f t :
  keeps_shape (convex_hull_image lib) ->
  keeps_shape (distance_transform_edt lib) ->
  hull_clear_of_padding lib ->
  edt_within_distance lib ->
  (exists p, In p pts /\ fst p * f = 0) ->
  (exists p, In p pts /\ snd p * f = 0) ->
  (forall p, In p pts -> 0 <= fst p * f <= res /\ 0 <= snd p * f <= res) ->
  extract lib rotation translation pts z order f (res / 2) t = inr t.
Proof.
  intros Hhull Hedt Hclear Hdist (p1 & Hp1 & Z1) (p2 & Hp2 & Z2) Hb.
  unfold extract.
  set (spts := map (fun p => (fst p * f, snd p * f)) pts).
  assert (Hin1 : forall x, In x (map fst spts) -> 0 <= x <= res).
  { intros x Hx. apply in_map_iff in Hx. destruct Hx as (q & <- & Hq).
    apply in_map_iff in Hq. destruct Hq as (p & <- & Hp). apply (Hb p Hp). }
  assert (Hin2 : forall x, In x (map snd spts) -> 0 <= x <= res).
  { intros x Hx. apply in_map_iff in Hx. destruct Hx as (q & <- & Hq).
    apply in_map_iff in Hq. destruct Hq as (p & <- & Hp). apply (Hb p Hp). }
  assert (Hz1 : In 0 (map fst spts)).
  { apply in_map_iff. exists (fst p1 * f, snd p1 * f). split; [exact Z1|].
    apply in_map_iff. exists p1. auto. }
  assert (Hz2 : In 0 (map snd spts)).
  { apply in_map_iff. exists (fst p2 * f, snd p2 * f). split; [exact Z2|].
    apply in_map_iff. exists p2. auto. }
  destruct (min_of_inhabited _ _ Hz1) as [minp1 E1].
  destruct (min_of_inhabited _ _ Hz2) as [minp2 E2].
  destruct (max_of_inhabited _ _ Hz1) as [maxp1 E3].
  destruct (max_of_inhabited _ _ Hz2) as [maxp2 E4].
  rewrite E1, E2, E3, E4.
  assert (M1 : minp1 = 0).
  { pose proof (Hin1 _ (min_of_in _ _ E1)).
    pose proof (InHullFacts.min_of_le _ _ _ E1 Hz1). lra. }
  assert (M2 : minp2 = 0).
  { pose proof (Hin2 _ (min_of_in _ _ E2)).
    pose proof (InHullFacts.min_of_le _ _ _ E2 Hz2). lra. }
  pose proof (Hin1 _ (max_of_in _ _ E3)) as B1.
  pose proof (Hin2 _ (max_of_in _ _ E4)) as B2.
  subst minp1 minp2. unfold res in B1, B2.
  assert (C1 : (0 <= ceil (maxp1 - 0) <= 200)%Z) by (apply ceil_bounds; lra).
  assert (C2 : (0 <= ceil (maxp2 - 0) <= 200)%Z) by (apply ceil_bounds; lra).
  set (nrows := Z.to_nat (ceil (maxp1 - 0) + 1)).
  set (ncols := Z.to_nat (ceil (maxp2 - 0) + 1)).
  destruct (written_defined nrows ncols
              (map (fun p => (rint (fst p), rint (snd p))) spts)) as [ps ->].
  { apply Forall_forall. intros q Hq. apply in_map_iff in Hq.
    destruct Hq as (s & <- & Hs). cbn [fst snd]. split.
    - apply rint_in_image.
      pose proof (Hin1 _ (in_map fst _ _ Hs)).
      pose proof (max_of_ge _ _ _ E3 (in_map fst _ _ Hs)). lra.
    - apply rint_in_image.
      pose proof (Hin2 _ (in_map snd _ _ Hs)).
      pose proof (max_of_ge _ _ _ E4 (in_map snd _ _ Hs)). lra. }
  cbv zeta.
  destruct (Rge_dec _ _) as [Hge|]; [|reflexivity].
  exfalso.
  pose proof (eroded_sum lib (drawn nrows ncols ps) Hhull Hedt Hclear Hdist) as Hsum.
  cbn [rows cols drawn] in Hsum.
  assert (Hle : sum_pixels
                  (threshold (res / 2)
                     (distance_transform_edt lib
                        (convex_hull_image lib (pad (drawn nrows ncols ps))))) <= 1)
    by (apply Hsum; unfold nrows, ncols; lia).
  lra.
Qed.

(** One pass of the loop for a facet in the plane whose scaled offset is
    at least half the span. *)
Lemma analyse_at_half_the_span_or_more
      lib rotation facet offset t tx ty max_pts max1 max2 :
  keeps_shape (convex_hull_image lib) ->
  keeps_shape (distance_transform_edt lib) ->
  hull_clear_of_padding lib ->
  edt_within_distance lib ->
  min_of (map vx facet) = Some tx ->
  min_of (map vy facet) = Some ty ->
  let pts := map (fun p => (vx p - tx, vy p - ty)) facet in
  max_of (flat_map (fun p => [fst p; snd p]) pts) = Some max_pts ->
  max_of (map fst pts) = Some max1 ->
  max_of (map snd pts) = Some max2 ->
  max_pts <> 0 ->
  res / 2 <= scaled_offset (Rmax max1 max2) offset ->
  analyse lib rotation facet offset t = inr t.
Proof.
  intros Hhull Hedt Hclear Hdist Htx Hty pts Hm Hm1 Hm2 Hnz Hr.
  destruct (Rle_lt_dec (scaled_offset (Rmax max1 max2) offset) (res / 2)) as [Hle|Hlt];
    [|exact (analyse_skips lib rotation facet offset t tx ty max_pts max1 max2
                           Htx Hty Hm Hm1 Hm2 Hnz Hlt)].
  assert (Er : scaled_offset (Rmax max1 max2) offset = res / 2) by lra.
  pose proof (max_factor_positive facet tx ty max_pts max1 max2 Htx Hm Hm1 Hm2 Hnz)
    as Hpos.
  unfold analyse. rewrite Htx, Hty. fold pts. rewrite Hm, Hm1, Hm2.
  destruct (Req_dec_T max_pts 0); [contradiction|].
  rewrite Er. destruct (Rle_dec (res / 2) (res / 2)); [|lra].
  assert (Hscale : forall M x, 0 < M -> 0 <= x <= M -> 0 <= x * (res / M) <= res).
  { intros M x HM [H0 Hx]. unfold res, Rdiv.
    assert (Hk : 0 < / M) by (apply Rinv_0_lt_compat; lra).
    assert (HMk : M * / M = 1) by (apply Rinv_r; lra).
    split; nra. }
  apply extract_at_half_the_span; auto.
  - apply min_of_in, in_map_iff in Htx. destruct Htx as (v & Ev & Hv).
    exists (vx v - tx, vy v - ty). split; [apply in_map_iff; exists v; auto|].
    cbn [fst]. rewrite Ev. lra.
  - apply min_of_in, in_map_iff in Hty. destruct Hty as (v & Ev & Hv).
    exists (vx v - tx, vy v - ty). split; [apply in_map_iff; exists v; auto|].
    cbn [snd]. rewrite Ev. lra.
  - intros p Hp. pose proof Hp as Hp'.
    apply in_map_iff in Hp. destruct Hp as (v & <- & Hv). cbn [fst snd].
    pose proof (InHullFacts.min_of_le _ _ _ Htx (in_map vx _ _ Hv)).
    pose proof (InHullFacts.min_of_le _ _ _ Hty (in_map vy _ _ Hv)).
    pose proof (max_of_ge _ _ _ Hm1 (in_map fst _ _ Hp')) as G1.
    pose proof (max_of_ge _ _ _ Hm2 (in_map snd _ _ Hp')) as G2.
    cbn [fst snd] in G1, G2.
    pose proof (Rmax_l max1 max2). pose proof (Rmax_r max1 max2).
    split; apply Hscale; lra.
Qed.

(** *** The libraries have the properties assumed *)

Lemma box_hull_keeps_shape : keeps_shape box_hull.
Proof. intros img. split; reflexivity. Qed.

Lemma exact_edt_keeps_shape : keeps_shape exact_edt.
Proof. intros img. split; reflexivity. Qed.

Lemma box_hull_clear_of_padding : hull_clear_of_padding raster_library.
Proof.
  intros img a b H. cbn [convex_hull_image raster_library box_hull pixel pad rows cols].
  destruct (Nat.leb_spec 1 a); destruct (Nat.leb_spec (a + 2) (rows img + 2));
    destruct (Nat.leb_spec 1 b); destruct (Nat.leb_spec (b + 2) (cols img + 2));
    cbn [andb]; try reflexivity.
  lia.
Qed.

Lemma exact_edt_within_distance : edt_within_distance raster_library.
Proof.
  intros img a b c d Hc Hd Hz.
  cbn [distance_transform_edt raster_library exact_edt pixel].
  destruct (Req_dec_T (pixel img a b) 0); [apply sqrt_pos|].
  assert (Hin : In (sq_distance a b c d)
                   (map (fun p => sq_distance a b (fst p) (snd p)) (zero_pixels img))).
  { apply in_map_iff. exists (c, d). split; [reflexivity|].
    apply filter_In. split; [apply positions_in; auto|].
    cbn [fst snd]. destruct (Req_dec_T (pixel img c d) 0); [reflexivity | contradiction]. }
  destruct (min_of_inhabited _ _ Hin) as [m Em]. rewrite Em.
  apply sqrt_le_1_alt. exact (InHullFacts.min_of_le _ _ _ Em Hin).
Qed.

Lemma corner_library_regions : regionprops_facts corner_library.
Proof.
  intros img props [<-|[]]. unfold region_facts, corner_region.
  cbn [rp_area rp_perimeter rp_equivalent_diameter].
  repeat split; lra.
Qed.

Lemma facet_of_square lib :
  angle_between_vectors lib square_normal z_axis = 0 ->
  facet_of lib square square_normal = square.
Proof.
  intros H. unfold facet_of, rotation_of.
  rewrite (proj2 (aligned_iff lib square_normal) (or_introl H)). reflexivity.
Qed.

(** *** The square of side 10 *)

Lemma square_scaled :
  map (fun p : R * R => (fst p * (res / Rmax (10 - 0) (10 - 0)),
                         snd p * (res / Rmax (10 - 0) (10 - 0))))
      (map (fun p : vec3 => (vx p - 0, vy p - 0)) square)
  = [(0, 0); (200, 0); (200, 200); (0, 200)].
Proof.
  unfold square, res. cbn [map fst snd vx vy]. rewrite Rmax_left by lra.
  repeat (f_equal; try (field; lra)).
Qed.

(** With a fibre radius of 1 the scaled offset is 20: the three pixels of
    the distance transform pass the threshold, the region is measured and
    its four corners are the offset vertices. *)
Lemma square_is_measured :
  exists t',
    throat_props_of corner_library square square_normal 1 (initial 1 1) = inr t' /\
    eroded_verts t' <> None.
Proof.
  unfold throat_props_of.
  rewrite (proj2 (aligned_iff corner_library square_normal) (or_introl eq_refl)).
  unfold analyse. destruct square_bounds as (Hx & Hy & Hm & Hm1 & Hm2).
  rewrite Hx, Hy, Hm, Hm1, Hm2.
  destruct (Req_dec_T (10 - 0) 0); [lra|].
  assert (Er : scaled_offset (Rmax (10 - 0) (10 - 0)) 1 = 20)
    by (rewrite Rmax_left by lra; unfold scaled_offset, res; lra).
  rewrite Er. destruct (Rle_dec 20 (res / 2)) as [_|Hn]; [|unfold res in Hn; lra].
  unfold extract. rewrite square_scaled.
  unfold min_of, max_of. cbn [map fst snd fold_left]. eval_min_max.
  rewrite (ceil_unique (200 - 0) 200) by lra.
  rewrite !rint_IZR.
  change (Z.to_nat (200 + 1)) with 201%nat.
  change (written 201 201 [(0, 0); (200, 0); (200, 200); (0, 200)]%Z)
    with (Some [(0, 0); (200, 0); (200, 200); (0, 200)]%nat).
  cbv zeta.
  cbn [convex_hull_image distance_transform_edt regionprops corner_library].
  assert (Es : sum_pixels (threshold 20 (mkImage2 1 3 (fun _ _ => 1000))) = 0 + 1 + 1 + 1).
  { unfold sum_pixels, positions, threshold.
    cbn [rows cols pixel seq flat_map map app fold_left fst snd].
    destruct (Rle_dec 1000 20); [lra|]. destruct (Rgt_dec 1000 20); [|lra].
    reflexivity. }
  rewrite Es. destruct (Rge_dec (0 + 1 + 1 + 1) 3); [|lra].
  unfold measure. cbn [rp_centroid rp_coords corner_region].
  destruct (argmax _) as [inx0 iny0].
  change (nearest_coords [(0, 0); (200, 0); (200, 200); (0, 200)]%Z
                         [(0, 0); (200, 0); (200, 200); (0, 200)]%Z [])
    with (Some [0; 1; 2; 3]%nat).
  cbn [length Nat.leb].
  eexists. split; [reflexivity|]. cbn [eroded_verts]. discriminate.
Qed.

(** *** Main results *)

(** C1.  For every throat a pass of [_throat_props] completes: the area,
    the perimeter and the equivalent diameter stored for it are all zero
    exactly when the throat is occluded, that is, when no offset vertices
    are stored for it; and for a throat that is not occluded all three are
    strictly positive and the area is that of the circle of the stored
    equivalent diameter, [pi * (d/2)^2 = area].  The measurements are those
    of [regionprops], divided by the scale factor: the theorem takes from
    the library that a region has a positive area and a positive perimeter
    and that its equivalent diameter is [sqrt(4 * area / pi)]. *)
Theorem occluded_throats_are_zero_and_open_ones_circular
        lib vertices normal offset Nt net_Nt t' :
  regionprops_facts lib ->
  throat_props_of lib vertices normal offset (initial Nt net_Nt) = inr t' ->
  (eroded_verts t' = None <->
   area t' = 0 /\ perimeter t' = 0 /\ equiv_diameter t' = 0) /\
  (eroded_verts t' <> None ->
   0 < area t' /\ 0 < perimeter t' /\ 0 < equiv_diameter t' /\
   PI * (equiv_diameter t' / 2) ^ 2 = area t').
Proof.
  intros Hlib H. rewrite throat_props_of_facet in H. apply analyse_measures in H.
  destruct H as [->|[->|(props & img & f & r & c & i & vs & Hin & Hf & ->)]].
  - cbn [initial area perimeter equiv_diameter eroded_verts]. split.
    + split; auto.
    + intros Hn. contradiction.
  - cbn [initial area perimeter equiv_diameter eroded_verts]. split.
    + split; auto.
    + intros Hn. contradiction.
  - cbn [area perimeter equiv_diameter eroded_verts].
    destruct (scaled_region_is_circular props f (Hlib img props Hin) Hf)
      as (Ha & Hp & Hd & Hc).
    split.
    + split; [discriminate|]. intros (Ha0 & _). lra.
    + intros _. auto.
Qed.

Lemma occluded_throats_are_zero_and_open_ones_circular_witness :
  eroded_verts open_square <> None /\
  0 < area open_square /\ 0 < perimeter open_square /\
  0 < equiv_diameter open_square /\
  PI * (equiv_diameter open_square / 2) ^ 2 = area open_square.
Proof.
  unfold open_square. destruct square_is_measured as (t' & E & Hv).
  rewrite E. cbn [stored]. split; [exact Hv|].
  apply (occluded_throats_are_zero_and_open_ones_circular
           corner_library square square_normal 1 1 1 t' corner_library_regions E).
  exact Hv.
Defined.

(** C5.  A throat whose scaled offset is at least half the span of the
    image is left fully occluded: the pass raises nothing and every entry
    stays as it was initialised, with area, perimeter, diameter and
    inradius 0 and no offset vertices.  Above half the span the extraction
    is skipped.  At exactly half the span the test [r <= res/2] lets the
    extraction run, but the image is at most 201 x 201, so that in the
    padded hull image at most one pixel is further than [r] from the ring
    of padding, fewer than 3 pixels are left and nothing is stored.  The
    theorem takes from the libraries that the hull image and the distance
    transform have the shape of their argument, that the hull does not
    reach the padding and that a distance transform is at most the
    distance to a zero pixel. *)
Theorem offset_of_half_the_span_or_more_occludes
        lib vertices normal offset Nt net_Nt tx ty max_pts max1 max2 :
  keeps_shape (convex_hull_image lib) ->
  keeps_shape (distance_transform_edt lib) ->
  hull_clear_of_padding lib ->
  edt_within_distance lib ->
  let facet := facet_of lib vertices normal in
  min_of (map vx facet) = Some tx ->
  min_of (map vy facet) = Some ty ->
  let pts := map (fun p => (vx p - tx, vy p - ty)) facet in
  max_of (flat_map (fun p => [fst p; snd p]) pts) = Some max_pts ->
  max_of (map fst pts) = Some max1 ->
  max_of (map snd pts) = Some max2 ->
  max_pts <> 0 ->
  res / 2 <= scaled_offset (Rmax max1 max2) offset ->
  throat_props_of lib vertices normal offset (initial Nt net_Nt)
  = inr (initial Nt net_Nt) /\
  area (initial Nt net_Nt) = 0 /\ perimeter (initial Nt net_Nt) = 0 /\
  equiv_diameter (initial Nt net_Nt) = 0 /\ inradius (initial Nt net_Nt) = 0 /\
  eroded_verts (initial Nt net_Nt) = None.
Proof.
  intros Hhull Hedt Hclear Hdist facet Htx Hty pts Hm Hm1 Hm2 Hnz Hr.
  split; [|repeat split].
  rewrite throat_props_of_facet.
  exact (analyse_at_half_the_span_or_more
           lib (rotation_of lib normal) facet offset (initial Nt net_Nt)
           tx ty max_pts max1 max2 Hhull Hedt Hclear Hdist Htx Hty Hm Hm1 Hm2 Hnz Hr).
Qed.

Lemma offset_of_half_the_span_or_more_occludes_witness :
  scaled_offset (Rmax (10 - 0) (10 - 0)) 5 = res / 2 /\
  throat_props_of raster_library square square_normal 5 (initial 1 1)
  = inr (initial 1 1) /\
  throat_props_of raster_library square square_normal 6 (initial 1 1)
  = inr (initial 1 1).
Proof.
  assert (E10 : Rmax (10 - 0) (10 - 0) = 10) by (rewrite Rmax_left; lra).
  assert (Ef : facet_of raster_library square square_normal = square)
    by (apply facet_of_square; reflexivity).
  destruct square_bounds as (Hx & Hy & Hm & Hm1 & Hm2).
  split; [rewrite E10; unfold scaled_offset, res; lra|].
  split.
  - apply (offset_of_half_the_span_or_more_occludes
             raster_library square square_normal 5 1 1 0 0 (10 - 0) (10 - 0) (10 - 0)
             box_hull_keeps_shape exact_edt_keeps_shape
             box_hull_clear_of_padding exact_edt_within_distance);
      rewrite ?Ef; auto; try lra.
    rewrite E10. unfold scaled_offset, res. lra.
  - apply (offset_of_half_the_span_or_more_occludes
             raster_library square square_normal 6 1 1 0 0 (10 - 0) (10 - 0) (10 - 0)
             box_hull_keeps_shape exact_edt_keeps_shape
             box_hull_clear_of_padding exact_edt_within_distance);
      rewrite ?Ef; auto; try lra.
    rewrite E10. unfold scaled_offset, res. lra.
Defined.

End ThroatOutputs.
